(** * micrograd: a scalar reverse-mode autodiff engine and its small MLP layer

    Shallow embedding of [micrograd/engine.py] and [micrograd/nn.py].

    Python objects of class [Value] live in an arena (a list); the identity
    of an object is its index.  Closures installed in [_backward] are
    represented by the variables they capture.  Numbers are Python [int]s,
    modelled by [Z]; an operation that Python evaluates in floating point
    leaves this integer model through the outcome [Floating].  The module
    [Frac] is the engine once more over Python's exact numbers, [int] and
    [fractions.Fraction], on which the operator [/] divides exactly. *)

From stdpp Require Import base decidable option list sets gmap relations.
From stdpp Require Import strings pretty.
From Stdlib Require Import ZArith Lia QArith Qcanon.

Local Open Scope Z_scope.

(** ** Python-level data *)

(** Identity of a [Value] object. *)
Abbreviation id := nat.

(** Objects that may be passed as the exponent of [__pow__]. *)
Inductive pyobj :=
| PyInt (z : Z)
| PyBool (b : bool)
| PyFloat (bits : Z)
| PyStr (s : string)
| PyNone
| PyValue (v : id).

(** The right operand of [+] and [*]: a [Value] or a raw integer. *)
Inductive operand :=
| Node (v : id)
| Num (z : Z).

(** Exceptions the engine can raise on integers. *)
Inductive exn :=
| AssertionError
| ZeroDivisionError.

Inductive result (A : Type) :=
| Ok (a : A)
| Raise (e : exn)
| Floating.
Arguments Ok {A} a.
Arguments Raise {A} e.
Arguments Floating {A}.

(** The closures assigned to [_backward], by the variables they capture
    ([out] is the node that owns the closure). *)
Inductive rule :=
| NoOp
| AddRule (self other : id)
| MulRule (self other : id)
| PowRule (self : id) (other : Z)
| ReluRule (self : id).

Record Value := mkValue {
  data : Z;
  grad : Z;
  _backward : rule;
  _prev : list id;
  _op : string
}.

Abbreviation store := (list Value).

(** ** Field access through an identity *)

Definition get_data (s : store) (v : id) : Z :=
  match s !! v with Some n => data n | None => 0 end.

Definition get_grad (s : store) (v : id) : Z :=
  match s !! v with Some n => grad n | None => 0 end.

Definition get_prev (s : store) (v : id) : list id :=
  match s !! v with Some n => _prev n | None => [] end.

Definition get_backward (s : store) (v : id) : rule :=
  match s !! v with Some n => _backward n | None => NoOp end.

Definition with_grad (g : Z) (n : Value) : Value :=
  mkValue (data n) g (_backward n) (_prev n) (_op n).

Definition with_backward (r : rule) (n : Value) : Value :=
  mkValue (data n) (grad n) r (_prev n) (_op n).

(** [v.grad = g] *)
Definition set_grad (v : id) (g : Z) (s : store) : store :=
  alter (with_grad g) v s.

(** [v.grad += d] *)
Definition add_grad (v : id) (d : Z) (s : store) : store :=
  set_grad v (get_grad s v + d) s.

(** [v._backward = r] *)
Definition set_backward (v : id) (r : rule) (s : store) : store :=
  alter (with_backward r) v s.

(** ** A state and exception monad over the arena *)

Definition M (A : Type) := store -> result (A * store).

Definition ret {A} (a : A) : M A := fun s => Ok (a, s).

Definition bind {A B} (m : M A) (k : A -> M B) : M B :=
  fun s => match m s with
           | Ok (a, s') => k a s'
           | Raise e => Raise e
           | Floating => Floating
           end.

Definition raise {A} (e : exn) : M A := fun _ => Raise e.

Definition lift {A} (r : result A) : M A :=
  fun s => match r with
           | Ok a => Ok (a, s)
           | Raise e => Raise e
           | Floating => Floating
           end.

Definition modify (f : store -> store) : M unit := fun s => Ok (tt, f s).

Notation "x <- m ;; k" := (bind m (fun x => k))
  (at level 100, m at next level, right associativity).
Notation "m ;;; k" := (bind m (fun _ => k))
  (at level 100, right associativity).

(** A list comprehension [[f x for x in l]]. *)
Fixpoint comprehension {A B} (f : A -> M B) (l : list A) : M (list B) :=
  match l with
  | [] => ret []
  | x :: l' => y <- f x ;; ys <- comprehension f l' ;; ret (y :: ys)
  end.

(** A loop [for x in l: f x]. *)
Fixpoint for_each {A} (f : A -> M unit) (l : list A) : M unit :=
  match l with
  | [] => ret tt
  | x :: l' => f x ;;; for_each f l'
  end.

(** A loop threading an accumulator, as [sum(l, start)] does. *)
Fixpoint fold_loop {A B} (f : B -> A -> M B) (l : list A) (b : B) : M B :=
  match l with
  | [] => ret b
  | x :: l' => b' <- f b x ;; fold_loop f l' b'
  end.

(** ** Python integer arithmetic used by the engine *)

(** [b ** e] on ints: an int for [e >= 0]; for [e < 0] Python computes in
    floating point and raises [ZeroDivisionError] on a zero base. *)
Definition py_pow (b e : Z) : result Z :=
  if decide (0 <= e) then Ok (b ^ e)
  else if decide (b = 0) then Raise ZeroDivisionError
  else Floating.

(** [flag * g] for a [bool] flag. *)
Definition bool_mul (flag : bool) (g : Z) : Z := if flag then g else 0.

(** [isinstance(other, (int, float))]; [bool] is a subclass of [int]. *)
Definition isinstance_int_float (o : pyobj) : bool :=
  match o with
  | PyInt _ | PyBool _ | PyFloat _ => true
  | _ => false
  end.

(** [f'**{other}'] for an int or bool exponent. *)
Definition pow_op (o : pyobj) : string :=
  match o with
  | PyInt z => "**" +:+ pretty z
  | PyBool true => "**True"
  | PyBool false => "**False"
  | _ => "**"
  end.

Section Engine.

(** [set(_children)] is iterated in hash order, which for objects hashed by
    identity is not fixed by the language: [set_rev] says, per tuple of
    children, whether the iteration runs against the tuple order. *)
Variable set_rev : list id -> bool.

Definition set_of (children : list id) : list id :=
  let l := remove_dups children in
  if set_rev children then reverse l else l.

(** ** [Value.__init__] and the operation builders *)

Definition Value_init (d : Z) (children : list id) (op : string) : M id :=
  fun s => Ok (length s, s ++ [mkValue d 0 NoOp (set_of children) op]).

(** [Value(d)], the constructor with its default arguments. *)
Definition new_Value (d : Z) : M id := Value_init d [] "".

(** [other if isinstance(other, Value) else Value(other)] *)
Definition wrap (other : operand) : M id :=
  match other with
  | Node v => ret v
  | Num z => new_Value z
  end.

Definition read_data (v : id) : M Z := fun s => Ok (get_data s v, s).

Definition __add__ (self : id) (other : operand) : M id :=
  other <- wrap other ;;
  a <- read_data self ;;
  b <- read_data other ;;
  out <- Value_init (a + b) [self; other] "+" ;;
  modify (set_backward out (AddRule self other)) ;;;
  ret out.

Definition __mul__ (self : id) (other : operand) : M id :=
  other <- wrap other ;;
  a <- read_data self ;;
  b <- read_data other ;;
  out <- Value_init (a * b) [self; other] "*" ;;
  modify (set_backward out (MulRule self other)) ;;;
  ret out.

(** The numeric value of an [int] (or [bool]) exponent. *)
Definition as_int (o : pyobj) : option Z :=
  match o with
  | PyInt z => Some z
  | PyBool b => Some (if b then 1 else 0)
  | _ => None
  end.

Definition __pow__ (self : id) (other : pyobj) : M id :=
  if isinstance_int_float other then
    match as_int other with
    | Some k =>
        a <- read_data self ;;
        d <- lift (py_pow a k) ;;
        out <- Value_init d [self] (pow_op other) ;;
        modify (set_backward out (PowRule self k)) ;;;
        ret out
    | None => fun _ => Floating
    end
  else raise AssertionError.

Definition relu (self : id) : M id :=
  a <- read_data self ;;
  out <- Value_init (if decide (a < 0) then 0 else a) [self] "ReLU" ;;
  modify (set_backward out (ReluRule self)) ;;;
  ret out.

(** ** The closures: [v._backward()] *)

Definition read_grad (v : id) : M Z := fun s => Ok (get_grad s v, s).

Definition run_rule (out : id) (r : rule) : M unit :=
  match r with
  | NoOp => ret tt
  | AddRule self other =>
      g <- read_grad out ;;
      modify (add_grad self g) ;;;
      g <- read_grad out ;;
      modify (add_grad other g)
  | MulRule self other =>
      b <- read_data other ;;
      g <- read_grad out ;;
      modify (add_grad self (b * g)) ;;;
      a <- read_data self ;;
      g <- read_grad out ;;
      modify (add_grad other (a * g))
  | PowRule self other =>
      a <- read_data self ;;
      p <- lift (py_pow a (other - 1)) ;;
      g <- read_grad out ;;
      modify (add_grad self ((other * p) * g))
  | ReluRule self =>
      d <- read_data out ;;
      g <- read_grad out ;;
      modify (add_grad self (bool_mul (bool_decide (d > 0)) g))
  end.

Definition call_backward (v : id) : M unit :=
  fun s => run_rule v (get_backward s v) s.

(** ** [Value.backward] *)

(** The traversal state: the [visited] set and the [topo] list. *)
Definition topo_state : Type := gset id * list id.

Fixpoint visit_children (f : id -> topo_state -> option topo_state)
    (children : list id) (st : topo_state) : option topo_state :=
  match children with
  | [] => Some st
  | child :: rest =>
      match f child st with
      | Some st' => visit_children f rest st'
      | None => None
      end
  end.

(** [build_topo]; the recursion is bounded by [fuel], and [None] is the
    exhausted bound. *)
Fixpoint build_topo (fuel : nat) (s : store) (v : id) (st : topo_state)
    : option topo_state :=
  match fuel with
  | O => None
  | S fuel' =>
      if decide (v ∈ st.1) then Some st
      else
        match visit_children (build_topo fuel' s) (get_prev s v)
                ({[v]} ∪ st.1, st.2) with
        | Some st' => Some (st'.1, st'.2 ++ [v])
        | None => None
        end
  end.

(** The list [topo] after [build_topo(self)]: every call marks one more
    object of the arena or returns at once, so [length s + 1] nested calls
    are enough. *)
Definition topo_of (s : store) (self : id) : list id :=
  match build_topo (S (length s)) s self (∅, []) with
  | Some st => st.2
  | None => []
  end.

Definition backward (self : id) : M unit :=
  fun s =>
    let topo := topo_of s self in
    (modify (set_grad self 1) ;;;
     for_each call_backward (reverse topo)) s.

(** ** Derived operators *)

Definition __neg__ (self : id) : M id := __mul__ self (Num (-1)).

Definition __radd__ (self : id) (other : Z) : M id := __add__ self (Num other).

(** [self + (-other)]: the negation of a [Value] is [__neg__], that of a raw
    integer is the integer's own. *)
Definition __sub__ (self : id) (other : operand) : M id :=
  match other with
  | Node o => n <- __neg__ o ;; __add__ self (Node n)
  | Num z => __add__ self (Num (- z))
  end.

(** [other + (-self)] with a raw [other]: [int.__add__] does not accept a
    [Value], so Python calls [(-self).__radd__(other)]. *)
Definition __rsub__ (self : id) (other : Z) : M id :=
  n <- __neg__ self ;; __radd__ n other.

Definition __rmul__ (self : id) (other : Z) : M id := __mul__ self (Num other).

(** [self * other**-1] *)
Definition __truediv__ (self : id) (other : operand) : M id :=
  match other with
  | Node o => p <- __pow__ o (PyInt (-1)) ;; __mul__ self (Node p)
  | Num z => p <- lift (py_pow z (-1)) ;; __mul__ self (Num p)
  end.

(** [other * self**-1] with a raw [other], through [__rmul__]. *)
Definition __rtruediv__ (self : id) (other : Z) : M id :=
  p <- __pow__ self (PyInt (-1)) ;; __rmul__ p other.

End Engine.


(** ** [nn.py]: neurons and layers *)

Record Neuron := mkNeuron {
  w : list id;
  b : id;
  nonlin : bool
}.

Record Layer := mkLayer {
  neurons : list Neuron
}.

(** What [Layer.__call__] returns: one [Value] or a list of them. *)
Inductive layer_out :=
| One (v : id)
| Many (vs : list id).

Section Network.

Variable set_rev : list id -> bool.

(** [sum((wi*xi for wi,xi in zip(self.w, x)), self.b)]: the generator is
    consumed lazily, so each product is built just before it is added. *)
Definition Neuron_call (n : Neuron) (x : list operand) : M id :=
  act <- fold_loop
           (fun acc wx => p <- __mul__ set_rev (fst wx) (snd wx) ;;
                          __add__ set_rev acc (Node p))
           (zip (w n) x) (b n) ;;
  if nonlin n then relu set_rev act else ret act.

Definition Layer_call (l : Layer) (x : list operand) : M layer_out :=
  out <- comprehension (fun n => Neuron_call n x) (neurons l) ;;
  ret (if decide (length out = 1%nat)
       then match out with o :: _ => One o | [] => Many out end
       else Many out).

End Network.

(** ** The graph held by an arena *)

(** [edge s v c]: [c] is an operand of [v]. *)
Definition edge (s : store) (v c : id) : Prop := c ∈ get_prev s v.

Definition reachable (s : store) (root v : id) : Prop := rtc (edge s) root v.

Definition acyclic (s : store) : Prop := ∀ v, ¬ tc (edge s) v v.

(** Operands are objects of the arena. *)
Definition closed (s : store) : Prop := ∀ v c, edge s v c → (c < length s)%nat.

(** [x] occurs at an earlier position than [y]. *)
Definition before (l : list id) (x y : id) : Prop :=
  ∃ i j, l !! i = Some x ∧ l !! j = Some y ∧ (i < j)%nat.

(** Number of objects of the arena not yet in [visited]. *)
Definition unvisited (s : store) (visited : gset id) : nat :=
  size (list_to_set (seq 0 (length s)) ∖ visited : gset id).

(** Arena order: every operand was constructed before its consumer.  This is
    what the operation builders guarantee, and it is decidable. *)
Definition ordered (s : store) : Prop :=
  Forall (λ p, Forall (λ c, (c < p.1)%nat) (_prev p.2)) (zip (seq 0 (length s)) s).

(** The objects whose [grad] a closure updates. *)
Definition rule_targets (r : rule) : list id :=
  match r with
  | NoOp => []
  | AddRule a b | MulRule a b => [a; b]
  | PowRule a _ | ReluRule a => [a]
  end.

(** The invariant of arenas built by the operation builders: operands are
    live, no object reaches itself, and a closure updates exactly the
    operands recorded in [_prev]. *)
Definition well_formed (s : store) : Prop :=
  closed s ∧ acyclic s ∧
  ∀ v x, x ∈ rule_targets (get_backward s v) ↔ edge s v x.

(** Two arenas that differ at most in the [grad] fields. *)
Definition same_graph (s s' : store) : Prop :=
  length s' = length s ∧
  ∀ x, get_data s' x = get_data s x ∧ get_prev s' x = get_prev s x ∧
       get_backward s' x = get_backward s x.

Definition ind (x a : id) : Z := if decide (x = a) then 1 else 0.

(** The local derivative of [v] with respect to [x]: what [v._backward()]
    adds to [x.grad] per unit of [v.grad]. *)
Definition weight (s : store) (v x : id) : Z :=
  match get_backward s v with
  | NoOp => 0
  | AddRule a b => ind x a + ind x b
  | MulRule a b => ind x a * get_data s b + ind x b * get_data s a
  | PowRule a k => ind x a * (k * get_data s a ^ (k - 1))
  | ReluRule a => ind x a * bool_mul (bool_decide (get_data s v > 0)) 1
  end.

(** The closure of [v] evaluates within the integers without raising. *)
Definition rule_ok (s : store) (v : id) : Prop :=
  match get_backward s v with
  | PowRule _ k => 1 <= k
  | _ => True
  end.

Definition Zsum {A} (f : A → Z) (l : list A) : Z :=
  foldr (λ x acc, f x + acc) 0 l.

(** The order in which the closures may fire: nothing that is still to fire
    updates an object that has fired. *)
Fixpoint sweep_order (s : store) (L : list id) : Prop :=
  match L with
  | [] => True
  | v :: Q => (∀ u, u ∈ v :: Q → ¬ edge s u v) ∧ sweep_order s Q
  end.

(** ** Programs, families and compositions used in the statements *)

(** What a call [build_topo(v)] from the state [(V, T)] leaves behind. *)
Definition topo_post (s : store) (v : id) (V : gset id) (T : list id)
    (st : topo_state) : Prop :=
  ∃ T2, st.2 = T ++ T2 ∧
    (∀ x, x ∈ st.1 ↔ x ∈ V ∨ x ∈ T2) ∧
    NoDup T2 ∧
    (∀ x, x ∈ T2 → x ∉ V) ∧
    (∀ x, x ∈ T2 → reachable s v x) ∧
    (v ∈ V ∨ ∃ T2', T2 = T2' ++ [v]) ∧
    v ∈ T ++ T2 ∧
    (∀ x c, x ∈ T2 → edge s x c → before (T ++ T2) c x).

(** The diamond [b = a*a; c = a*a; out = b + c] over a new leaf [a];
    returns [a] and [out]. *)
Definition diamond_graph (set_rev : list id → bool) (x : Z) : M (id * id) :=
  a <- new_Value set_rev x ;;
  b <- __mul__ set_rev a (Node a) ;;
  c <- __mul__ set_rev a (Node a) ;;
  out <- __add__ set_rev b (Node c) ;;
  ret (a, out).

Definition diamond (set_rev : list id → bool) (x : Z) : M id :=
  p <- diamond_graph set_rev x ;;
  backward (snd p) ;;;
  ret (fst p).

Definition product_example (set_rev : list id → bool) : M (id * id * id) :=
  a <- new_Value set_rev 2 ;;
  b <- new_Value set_rev (-3) ;;
  out <- __mul__ set_rev a (Node b) ;;
  backward out ;;;
  ret (a, b, out).

Definition power_example (set_rev : list id → bool) : M (id * id) :=
  a <- new_Value set_rev 2 ;;
  out <- __pow__ set_rev a (PyInt 3) ;;
  backward out ;;;
  ret (a, out).

Definition relu_example (set_rev : list id → bool) (x : Z) : M (id * id) :=
  a <- new_Value set_rev x ;;
  out <- relu set_rev a ;;
  backward out ;;;
  ret (a, out).

(** The arena of the diamond over the leaf [3], with the operand sets
    iterated in tuple order. *)
Definition diamond_arena : store :=
  [mkValue 3 0 NoOp [] "";
   mkValue 9 0 (MulRule 0 0) [0%nat] "*";
   mkValue 9 0 (MulRule 0 0) [0%nat] "*";
   mkValue 18 0 (AddRule 1 2) [1%nat; 2%nat] "+"].

(** A call of one of the operators of [Value]. *)
Inductive op_call :=
| CAdd (self : id) (other : operand)
| CMul (self : id) (other : operand)
| CPow (self : id) (other : pyobj)
| CRelu (self : id)
| CNeg (self : id)
| CRadd (self : id) (other : Z)
| CSub (self : id) (other : operand)
| CRsub (self : id) (other : Z)
| CRmul (self : id) (other : Z)
| CTruediv (self : id) (other : operand)
| CRtruediv (self : id) (other : Z).

Definition run_op (set_rev : list id → bool) (c : op_call) : M id :=
  match c with
  | CAdd self other => __add__ set_rev self other
  | CMul self other => __mul__ set_rev self other
  | CPow self other => __pow__ set_rev self other
  | CRelu self => relu set_rev self
  | CNeg self => __neg__ set_rev self
  | CRadd self other => __radd__ set_rev self other
  | CSub self other => __sub__ set_rev self other
  | CRsub self other => __rsub__ set_rev self other
  | CRmul self other => __rmul__ set_rev self other
  | CTruediv self other => __truediv__ set_rev self other
  | CRtruediv self other => __rtruediv__ set_rev self other
  end.

(** A computation that leaves the objects of the arena as they are and
    appends objects whose [grad] is 0. *)
Definition extends {A} (m : M A) : Prop :=
  ∀ s a s', m s = Ok (a, s') →
    ∃ new, s' = s ++ new ∧ Forall (λ n, grad n = 0) new.

(** As [extends], with at least one new object, the last of which is the
    result. *)
Definition appends (m : M id) : Prop :=
  ∀ s r s', m s = Ok (r, s') →
    ∃ new, s' = s ++ new ∧ Forall (λ n, grad n = 0) new ∧ length s' = S r.

(** The operators that evaluate a power. *)
Definition uses_pow (c : op_call) : bool :=
  match c with
  | CPow _ _ | CTruediv _ _ | CRtruediv _ _ => true
  | _ => false
  end.

(** [a = Value(0); out = a ** 0; out.backward()] *)
Definition zero_power_example (set_rev : list id → bool) : M unit :=
  a <- new_Value set_rev 0 ;;
  out <- __pow__ set_rev a (PyInt 0) ;;
  backward out.

(** The arena of [out = a.relu()] over the leaf [a = 5]. *)
Definition relu_arena : store :=
  [mkValue 5 0 NoOp [] ""; mkValue 5 0 (ReluRule 0) [0%nat] "ReLU"].

(** ** [nn.py]: parameters, [zero_grad] and the network *)

(** [Module]: what the classes of [nn.py] share is [parameters]. *)
Class Module (A : Type) := parameters : A → list id.

(** The base class: [return []]. *)
#[global] Instance Module_base : Module unit := λ _, [].

(** [self.w + [self.b]] *)
#[global] Instance Module_Neuron : Module Neuron := λ n, w n ++ [b n].

(** [[p for n in self.neurons for p in n.parameters()]] *)
#[global] Instance Module_Layer : Module Layer :=
  λ l, flat_map (parameters (A := Neuron)) (neurons l).

Record MLP := mkMLP {
  layers : list Layer
}.

(** [[p for layer in self.layers for p in layer.parameters()]] *)
#[global] Instance Module_MLP : Module MLP :=
  λ m, flat_map (parameters (A := Layer)) (layers m).

(** [for p in self.parameters(): p.grad = 0] *)
Definition zero_grad {A} `{Module A} (m : A) : M unit :=
  for_each (λ p, modify (set_grad p 0)) (parameters m).

(** What flows between the layers of an [MLP]: a list, or the single
    [Value] that a layer of one neuron returns. *)
Inductive activations :=
| Seq (xs : list operand)
| Single (v : id).

Definition of_layer_out (o : layer_out) : activations :=
  match o with
  | One v => Single v
  | Many vs => Seq (Node <$> vs)
  end.

(** A result, or the [TypeError] of iterating over a [Value]. *)
Inductive typed (A : Type) :=
| WellTyped (a : A)
| TypeError.
Arguments WellTyped {A} a.
Arguments TypeError {A}.

(** [layer(x)] for whatever [x] is.  A neuron starts with
    [zip(self.w, x)], which raises [TypeError] when [x] is a [Value]; a layer
    without neurons calls none and returns the empty list. *)
Definition Layer_apply (set_rev : list id → bool) (l : Layer) (x : activations)
    (s : store) : typed (result (layer_out * store)) :=
  match x with
  | Seq xs => WellTyped (Layer_call set_rev l xs s)
  | Single _ =>
      match neurons l with
      | [] => WellTyped (Ok (Many [], s))
      | _ :: _ => TypeError
      end
  end.

(** The loop of [MLP.__call__]: [for layer in self.layers: x = layer(x)]. *)
Fixpoint run_layers (set_rev : list id → bool) (ls : list Layer)
    (x : activations) (s : store) : typed (result (activations * store)) :=
  match ls with
  | [] => WellTyped (Ok (x, s))
  | l :: ls' =>
      match Layer_apply set_rev l x s with
      | WellTyped (Ok (o, s')) => run_layers set_rev ls' (of_layer_out o) s'
      | WellTyped (Raise e) => WellTyped (Raise e)
      | WellTyped Floating => WellTyped Floating
      | TypeError => TypeError
      end
  end.

Definition MLP_call (set_rev : list id → bool) (m : MLP) (x : activations)
    : store → typed (result (activations * store)) :=
  run_layers set_rev (layers m) x.

(** The arguments of the calls [Layer(sz[i], sz[i+1], nonlin=i!=len(nouts)-1)]
    that [MLP.__init__] makes, for [sz = [nin] + nouts] and
    [i in range(len(nouts))]. *)
Definition MLP_layer_args (nin : nat) (nouts : list nat)
    : list (nat * nat * bool) :=
  let sz := [nin] ++ nouts in
  (λ i, (sz !!! i, sz !!! (i + 1)%nat,
         bool_decide (i ≠ (length nouts - 1)%nat)))
    <$> seq 0 (length nouts).

(** ** Notions used by the further properties *)

(** The number an operand stands for. *)
Definition operand_value (s : store) (o : operand) : Z :=
  match o with
  | Node v => get_data s v
  | Num z => z
  end.

(** An operand that is a [Value] is an object of the arena. *)
Definition operand_ok (s : store) (o : operand) : Prop :=
  match o with
  | Node v => (v < length s)%nat
  | Num _ => True
  end.

(** The operands of an operator call are objects of the arena. *)
Definition call_ok (s : store) (c : op_call) : Prop :=
  match c with
  | CAdd self other | CMul self other | CSub self other
  | CTruediv self other => (self < length s)%nat ∧ operand_ok s other
  | CPow self _ | CRelu self | CNeg self | CRadd self _ | CRsub self _
  | CRmul self _ | CRtruediv self _ => (self < length s)%nat
  end.


(** [sum(wi*xi for wi,xi in zip(w, x))] as a number. *)
Definition dot (s : store) (wx : list (id * operand)) : Z :=
  Zsum (λ p, get_data s p.1 * operand_value s p.2) wx.

(** What a call [build_topo(v)] from the state [(V, T)] leaves behind on
    any arena, cyclic or not: the objects it appends are new, reachable from
    [v] and have all their operands marked. *)
Definition visit_post (s : store) (v : id) (V : gset id) (T : list id)
    (st : topo_state) : Prop :=
  ∃ T2, st.2 = T ++ T2 ∧
    (∀ x, x ∈ st.1 ↔ x ∈ V ∨ x ∈ T2) ∧
    NoDup T2 ∧
    (∀ x, x ∈ T2 → x ∉ V) ∧
    (∀ x, x ∈ T2 → reachable s v x) ∧
    (v ∈ V ∨ ∃ T2', T2 = T2' ++ [v]) ∧
    (∀ x c, x ∈ T2 → edge s x c → c ∈ st.1).

(** The forward pass as arithmetic on numbers: the weights and biases are
    read from the arena, the inputs are given as numbers. *)
Definition neuron_eval (s : store) (n : Neuron) (xv : list Z) : Z :=
  let act := get_data s (b n)
             + Zsum (λ p, get_data s p.1 * p.2) (zip (w n) xv) in
  if nonlin n then Z.max 0 act else act.

Definition layer_eval (s : store) (l : Layer) (xv : list Z) : list Z :=
  (λ n, neuron_eval s n xv) <$> neurons l.

Definition mlp_eval (s : store) (ls : list Layer) (xv : list Z) : list Z :=
  foldl (λ xv l, layer_eval s l xv) xv ls.

(** The weights and the bias of a neuron are objects of the arena. *)
Definition neuron_ok (s : store) (n : Neuron) : Prop :=
  (b n < length s)%nat ∧ Forall (λ wi, (wi < length s)%nat) (w n).

Definition layer_ok (s : store) (l : Layer) : Prop :=
  Forall (neuron_ok s) (neurons l).

(** The numbers that activations stand for. *)
Definition activation_values (s : store) (x : activations) : list Z :=
  match x with
  | Seq xs => operand_value s <$> xs
  | Single v => [get_data s v]
  end.




(** The objects that [Neuron.__call__] builds for the pairs [wx], laid out
    from position [lo] on: per pair a leaf for a raw input, then the product
    and the sum.  [acc] is the running sum when the pairs start, [r] the
    last sum and [hi] the first position after them. *)
Fixpoint chain (T : store) (lo : nat) (acc : id) (wx : list (id * operand))
    (r : id) (hi : nat) : Prop :=
  match wx with
  | [] => r = acc ∧ hi = lo
  | (wi, xi) :: wx' =>
      ∃ o P,
        match xi with
        | Node v => o = v ∧ P = lo
        | Num z => o = lo ∧ P = S lo ∧
                   get_backward T lo = NoOp ∧ get_data T lo = z
        end ∧
        get_backward T P = MulRule wi o ∧ get_grad T P = 0 ∧
        get_backward T (S P) = AddRule acc P ∧ get_grad T (S P) = 0 ∧
        chain T (S (S P)) (S P) wx' r hi
  end.

(** The slope of a neuron whose output has the value [d]: what [relu] lets
    through of the gradient, and 1 for a linear neuron. *)
Definition slope (nonlin : bool) (d : Z) : Z :=
  if nonlin then (if decide (0 < d) then 1 else 0) else 1.

(** * The engine over exact numbers: [int] and [fractions.Fraction]

    The engine does not fix the type of [data].  On [int]s the operator [/]
    always leaves the integers, because [b ** -1] is a [float]; on Python's
    exact rationals, [fractions.Fraction], the same code divides exactly.
    The module [Frac] is [engine.py] once more, over numbers that are an
    [int] or a [Fraction], with Python's rules for mixing them.  Floating
    point stays outside: a [float] exponent, and a negative power of an
    [int], end in [Floating]. *)

Declare Scope frac_scope.
Delimit Scope frac_scope with frac.

Module Frac.

(** A number: an [int], or a [Fraction], which Python keeps in lowest terms
    as [Qc] does. *)
Inductive num :=
| Int (z : Z)
| Fraction (q : Qc).

(** The rational that a number stands for. *)
Definition val (n : num) : Qc :=
  match n with
  | Int z => Qc_of_Z z
  | Fraction q => q
  end.

(** [a + b] and [a * b]: an [int] for two [int]s, a [Fraction] as soon as
    one operand is one. *)
Definition add (a b : num) : num :=
  match a, b with
  | Int x, Int y => Int (x + y)
  | _, _ => Fraction (val a + val b)
  end.

Definition mul (a b : num) : num :=
  match a, b with
  | Int x, Int y => Int (x * y)
  | _, _ => Fraction (val a * val b)
  end.

(** [-a] *)
Definition neg (a : num) : num :=
  match a with
  | Int x => Int (- x)
  | Fraction q => Fraction (- q)
  end.

(** [b ** e] for an [int] exponent [e].  [int.__pow__] is [py_pow];
    [Fraction.__pow__] is exact: [q ** e] for [e >= 0], the power of the
    inverse for [e < 0], and [ZeroDivisionError] for a negative power of
    zero. *)
Definition pow (b : num) (e : Z) : result num :=
  match b with
  | Int x =>
      match py_pow x e with
      | Ok r => Ok (Int r)
      | Raise ex => Raise ex
      | Floating => Floating
      end
  | Fraction q =>
      if decide (0 <= e) then Ok (Fraction (q ^ Z.to_nat e)%Qc)
      else if decide (q = 0%Qc) then Raise ZeroDivisionError
      else Ok (Fraction ((/ q) ^ Z.to_nat (- e))%Qc)
  end.

(** [flag * g] for a [bool] flag, which Python multiplies as the [int] 1
    or 0. *)
Definition bool_mul (flag : bool) (g : num) : num :=
  mul (Int (if flag then 1 else 0)) g.

Record Value := mkValue {
  data : num;
  grad : num;
  _backward : rule;
  _prev : list id;
  _op : string
}.

Abbreviation store := (list Value).

(** The right operand of an operator: a [Value] or a raw number. *)
Inductive operand :=
| Node (v : id)
| Raw (n : num).

(** ** Field access through an identity *)

Definition get_data (s : store) (v : id) : num :=
  match s !! v with Some n => data n | None => Int 0 end.

Definition get_grad (s : store) (v : id) : num :=
  match s !! v with Some n => grad n | None => Int 0 end.

Definition get_prev (s : store) (v : id) : list id :=
  match s !! v with Some n => _prev n | None => [] end.

Definition get_backward (s : store) (v : id) : rule :=
  match s !! v with Some n => _backward n | None => NoOp end.

Definition with_grad (g : num) (n : Value) : Value :=
  mkValue (data n) g (_backward n) (_prev n) (_op n).

Definition with_backward (r : rule) (n : Value) : Value :=
  mkValue (data n) (grad n) r (_prev n) (_op n).

(** [v.grad = g] *)
Definition set_grad (v : id) (g : num) (s : store) : store :=
  alter (with_grad g) v s.

(** [v.grad += d] *)
Definition add_grad (v : id) (d : num) (s : store) : store :=
  set_grad v (add (get_grad s v) d) s.

(** [v._backward = r] *)
Definition set_backward (v : id) (r : rule) (s : store) : store :=
  alter (with_backward r) v s.

(** ** The state and exception monad over this arena *)

Definition M (A : Type) := store -> result (A * store).

Definition ret {A} (a : A) : M A := fun s => Ok (a, s).

Definition bind {A B} (m : M A) (k : A -> M B) : M B :=
  fun s => match m s with
           | Ok (a, s') => k a s'
           | Raise e => Raise e
           | Floating => Floating
           end.

Definition raise {A} (e : exn) : M A := fun _ => Raise e.

Definition lift {A} (r : result A) : M A :=
  fun s => match r with
           | Ok a => Ok (a, s)
           | Raise e => Raise e
           | Floating => Floating
           end.

Definition modify (f : store -> store) : M unit := fun s => Ok (tt, f s).

Local Notation "x <- m ;; k" := (bind m (fun x => k))
  (at level 100, m at next level, right associativity) : frac_scope.
Local Notation "m ;;; k" := (bind m (fun _ => k))
  (at level 100, right associativity) : frac_scope.
Local Open Scope frac_scope.

Fixpoint for_each {A} (f : A -> M unit) (l : list A) : M unit :=
  match l with
  | [] => ret tt
  | x :: l' => f x ;;; for_each f l'
  end.

Section Engine.

Variable set_rev : list id -> bool.

(** ** [Value.__init__] and the operation builders *)

Definition Value_init (d : num) (children : list id) (op : string) : M id :=
  fun s => Ok (length s,
               s ++ [mkValue d (Int 0) NoOp (set_of set_rev children) op]).

(** [Value(d)] *)
Definition new_Value (d : num) : M id := Value_init d [] "".

(** [other if isinstance(other, Value) else Value(other)] *)
Definition wrap (other : operand) : M id :=
  match other with
  | Node v => ret v
  | Raw z => new_Value z
  end.

Definition read_data (v : id) : M num := fun s => Ok (get_data s v, s).

Definition __add__ (self : id) (other : operand) : M id :=
  other <- wrap other ;;
  a <- read_data self ;;
  b <- read_data other ;;
  out <- Value_init (add a b) [self; other] "+" ;;
  modify (set_backward out (AddRule self other)) ;;;
  ret out.

Definition __mul__ (self : id) (other : operand) : M id :=
  other <- wrap other ;;
  a <- read_data self ;;
  b <- read_data other ;;
  out <- Value_init (mul a b) [self; other] "*" ;;
  modify (set_backward out (MulRule self other)) ;;;
  ret out.

Definition __pow__ (self : id) (other : pyobj) : M id :=
  if isinstance_int_float other then
    match as_int other with
    | Some k =>
        a <- read_data self ;;
        d <- lift (pow a k) ;;
        out <- Value_init d [self] (pow_op other) ;;
        modify (set_backward out (PowRule self k)) ;;;
        ret out
    | None => fun _ => Floating
    end
  else raise AssertionError.

Definition relu (self : id) : M id :=
  a <- read_data self ;;
  out <- Value_init (if decide (val a < 0)%Qc then Int 0 else a)
           [self] "ReLU" ;;
  modify (set_backward out (ReluRule self)) ;;;
  ret out.

(** ** The closures: [v._backward()] *)

Definition read_grad (v : id) : M num := fun s => Ok (get_grad s v, s).

Definition run_rule (out : id) (r : rule) : M unit :=
  match r with
  | NoOp => ret tt
  | AddRule self other =>
      g <- read_grad out ;;
      modify (add_grad self g) ;;;
      g <- read_grad out ;;
      modify (add_grad other g)
  | MulRule self other =>
      b <- read_data other ;;
      g <- read_grad out ;;
      modify (add_grad self (mul b g)) ;;;
      a <- read_data self ;;
      g <- read_grad out ;;
      modify (add_grad other (mul a g))
  | PowRule self other =>
      a <- read_data self ;;
      p <- lift (pow a (other - 1)) ;;
      g <- read_grad out ;;
      modify (add_grad self (mul (mul (Int other) p) g))
  | ReluRule self =>
      d <- read_data out ;;
      g <- read_grad out ;;
      modify (add_grad self (bool_mul (bool_decide (0 < val d)%Qc) g))
  end.

Definition call_backward (v : id) : M unit :=
  fun s => run_rule v (get_backward s v) s.

(** ** [Value.backward] *)

Fixpoint build_topo (fuel : nat) (s : store) (v : id) (st : topo_state)
    : option topo_state :=
  match fuel with
  | O => None
  | S fuel' =>
      if decide (v ∈ st.1) then Some st
      else
        match visit_children (build_topo fuel' s) (get_prev s v)
                ({[v]} ∪ st.1, st.2) with
        | Some st' => Some (st'.1, st'.2 ++ [v])
        | None => None
        end
  end.

Definition topo_of (s : store) (self : id) : list id :=
  match build_topo (S (length s)) s self (∅, []) with
  | Some st => st.2
  | None => []
  end.

Definition backward (self : id) : M unit :=
  fun s =>
    let topo := topo_of s self in
    (modify (set_grad self (Int 1)) ;;;
     for_each call_backward (reverse topo)) s.

(** ** Derived operators *)

Definition __neg__ (self : id) : M id := __mul__ self (Raw (Int (-1))).

Definition __radd__ (self : id) (other : num) : M id :=
  __add__ self (Raw other).

(** [self + (-other)] *)
Definition __sub__ (self : id) (other : operand) : M id :=
  match other with
  | Node o => n <- __neg__ o ;; __add__ self (Node n)
  | Raw z => __add__ self (Raw (neg z))
  end.

(** [other + (-self)] with a raw [other]: neither [int.__add__] nor
    [Fraction.__add__] accepts a [Value], so Python calls
    [(-self).__radd__(other)]. *)
Definition __rsub__ (self : id) (other : num) : M id :=
  n <- __neg__ self ;; __radd__ n other.

Definition __rmul__ (self : id) (other : num) : M id :=
  __mul__ self (Raw other).

(** [self * other**-1] *)
Definition __truediv__ (self : id) (other : operand) : M id :=
  match other with
  | Node o => p <- __pow__ o (PyInt (-1)) ;; __mul__ self (Node p)
  | Raw z => p <- lift (pow z (-1)) ;; __mul__ self (Raw p)
  end.

(** [other * self**-1] with a raw [other], through [__rmul__]. *)
Definition __rtruediv__ (self : id) (other : num) : M id :=
  p <- __pow__ self (PyInt (-1)) ;; __rmul__ p other.

(** ** The compositions of primitives that the derived operators stand for *)

(** [a * (-1)] *)
Definition spec_negate (a : id) : M id := __mul__ a (Raw (Int (-1))).

(** [a + negate(b)]; the negation of a raw number is the number's own. *)
Definition spec_subtract (a : id) (o : operand) : M id :=
  match o with
  | Node b => n <- spec_negate b ;; __add__ a (Node n)
  | Raw z => __add__ a (Raw (neg z))
  end.

(** [a * power(b, -1)]; the power of a raw number is the number's own. *)
Definition spec_divide (a : id) (o : operand) : M id :=
  match o with
  | Node b => p <- __pow__ b (PyInt (-1)) ;; __mul__ a (Node p)
  | Raw z => p <- lift (pow z (-1)) ;; __mul__ a (Raw p)
  end.

(** The forward compositions that the reflected operators are compared
    with: the raw left operand is wrapped, and the forward operator is
    applied to it. *)
Definition forward_add (z : num) (a : id) : M id :=
  zv <- new_Value z ;; __add__ zv (Node a).

Definition forward_subtract (z : num) (a : id) : M id :=
  zv <- new_Value z ;; spec_subtract zv (Node a).

Definition forward_multiply (z : num) (a : id) : M id :=
  zv <- new_Value z ;; __mul__ zv (Node a).

Definition forward_divide (z : num) (a : id) : M id :=
  zv <- new_Value z ;; spec_divide zv (Node a).

(** Build [out] by [op], run the backward pass on it and return it. *)
Definition differentiate (op : M id) : M id :=
  out <- op ;; backward out ;;; ret out.

End Engine.

End Frac.

Notation "x <- m ;; k" := (Frac.bind m (fun x => k))
  (at level 100, m at next level, right associativity) : frac_scope.
Notation "m ;;; k" := (Frac.bind m (fun _ => k))
  (at level 100, right associativity) : frac_scope.

(** The graph of an arena of [Frac]: the same objects without their
    numbers. *)
Definition shape (s : Frac.store) : store :=
  (λ n, mkValue 0 0 (Frac._backward n) (Frac._prev n) (Frac._op n)) <$> s.

(** The value of [data] and [grad] as rationals. *)
Definition vdata (s : Frac.store) (v : id) : Qc := Frac.val (Frac.get_data s v).

Definition vgrad (s : Frac.store) (v : id) : Qc := Frac.val (Frac.get_grad s v).

(** [q ** e] on rationals, for [q <> 0] when [e < 0]. *)
Definition qpow (q : Qc) (e : Z) : Qc :=
  if decide (0 <= e) then (q ^ Z.to_nat e)%Qc else ((/ q) ^ Z.to_nat (- e))%Qc.

Definition qind (x a : id) : Qc := if decide (x = a) then 1%Qc else 0%Qc.

(** The local derivative of [v] with respect to [x] in an arena of [Frac]. *)
Definition fweight (s : Frac.store) (v x : id) : Qc :=
  match Frac.get_backward s v with
  | NoOp => 0
  | AddRule a b => qind x a + qind x b
  | MulRule a b => qind x a * vdata s b + qind x b * vdata s a
  | PowRule a k => qind x a * (Qc_of_Z k * qpow (vdata s a) (k - 1))
  | ReluRule a => qind x a * (if decide (0 < vdata s v) then 1 else 0)
  end%Qc.

(** The closure of [v] evaluates without leaving the exact numbers. *)
Definition frule_ok (s : Frac.store) (v : id) : Prop :=
  match Frac.get_backward s v with
  | PowRule a k => ∃ p, Frac.pow (Frac.get_data s a) (k - 1) = Ok p
  | _ => True
  end.

Definition Qsum {A} (f : A → Qc) (l : list A) : Qc :=
  foldr (λ x acc, (f x + acc)%Qc) 0%Qc l.

(** Two arenas of [Frac] that differ at most in the [grad] fields. *)
Definition fsame (s s' : Frac.store) : Prop :=
  shape s' = shape s ∧ ∀ x, Frac.get_data s' x = Frac.get_data s x.


(** The objects of [s] that the traversal from one of the objects [es]
    visits. *)
Definition below (s : Frac.store) (es : list id) : list id :=
  filter (λ v, Exists (λ e, v ∈ Frac.topo_of s e) es) (seq 0 (length s)).

(** [flows s es seed s']: the gradient in [s'] of every object [x] of [s]
    is the gradient it had in [s], plus its seed, plus what the chain rule
    passes down to it from the objects below [es]. *)
Definition flows (s : Frac.store) (es : list id) (seed : id → Qc)
    (s' : Frac.store) : Prop :=
  ∀ x, (x < length s)%nat →
    vgrad s' x
    = (vgrad s x + seed x
       + Qsum (λ v, fweight s v x * vgrad s' v) (below s es))%Qc.

(** [gives m s es value seed]: from the arena [s], the program [m] followed
    by the backward pass on its result returns; the result is a new object
    that holds [value] and has gradient 1; the numbers of [s] are kept; the
    gradients of the objects of [s] are those that flow from the seeds at
    the operands [es]; and an object that no operand reaches through an
    edge has gained exactly its seed. *)
Definition gives (m : Frac.M id) (s : Frac.store) (es : list id)
    (value : Qc) (seed : id → Qc) : Prop :=
  ∃ r s', Frac.differentiate m s = Ok (r, s') ∧
    (length s ≤ r)%nat ∧
    (∀ x, (x < length s)%nat → Frac.get_data s' x = Frac.get_data s x) ∧
    vdata s' r = value ∧
    vgrad s' r = 1%Qc ∧
    flows s es seed s' ∧
    (∀ x, (x < length s)%nat →
       (∀ e, e ∈ es → ¬ tc (edge (shape s)) e x) →
       vgrad s' x = (vgrad s x + seed x)%Qc).

(** Two programs that, each followed by the backward pass on its result,
    both return, with the same value in their results and the same numbers
    and gradients in every object of [s]. *)
Definition same_derivatives (m1 m2 : Frac.M id) (s : Frac.store) : Prop :=
  ∃ r1 s1 r2 s2,
    Frac.differentiate m1 s = Ok (r1, s1) ∧
    Frac.differentiate m2 s = Ok (r2, s2) ∧
    vdata s1 r1 = vdata s2 r2 ∧
    vgrad s1 r1 = vgrad s2 r2 ∧
    ∀ x, (x < length s)%nat →
      Frac.get_data s1 x = Frac.get_data s2 x ∧ vgrad s1 x = vgrad s2 x.

(** The objects [new] appended to [s] by an operator with the operands
    [es]: [_prev] and the closure name the same objects, all of them
    older; the old ones among them are operands; every new object but the
    last, and every operand, is consumed by a new object. *)
Definition extends_by (s : Frac.store) (es : list id)
    (new : list Frac.Value) : Prop :=
  (∀ j v c, new !! j = Some v →
     (c ∈ Frac._prev v ↔ c ∈ rule_targets (Frac._backward v)) ∧
     (c ∈ rule_targets (Frac._backward v) →
      (c < length s + j)%nat ∧ ((c < length s)%nat → c ∈ es))) ∧
  (∀ i, (S i < length new)%nat →
     ∃ j v, new !! j = Some v ∧
            (length s + i)%nat ∈ rule_targets (Frac._backward v)) ∧
  (∀ e, e ∈ es →
     (e < length s)%nat ∧
     ∃ j v, new !! j = Some v ∧ e ∈ rule_targets (Frac._backward v)).

(** An arena of two leaves that hold [Fraction(3)] and [Fraction(2)]. *)
Definition fraction_arena : Frac.store :=
  [Frac.mkValue (Frac.Fraction (Q2Qc (3 # 1))) (Frac.Int 0) NoOp [] "";
   Frac.mkValue (Frac.Fraction (Q2Qc (2 # 1))) (Frac.Int 0) NoOp [] ""].

(** Close [l = r] by evaluating [l]; [r] may still be unknown. *)
Ltac vm_run :=
  lazymatch goal with
  | |- ?l = _ =>
      let v := eval vm_compute in l in
      apply (eq_trans (y := v)); [vm_compute; reflexivity | reflexivity]
  end.

(** ** Properties of [build_topo] *)

Section Topo.

Variable s : store.
Hypothesis Hacyclic : acyclic s.
Hypothesis Hclosed : closed s.


Lemma before_app_l l l' x y : before l x y → before (l ++ l') x y.
Proof.
  intros (i & j & Hi & Hj & Hij). exists i, j.
  split_and!; [by apply lookup_app_l_Some | by apply lookup_app_l_Some | done].
Qed.

Lemma before_snoc l x y : x ∈ l → before (l ++ [y]) x y.
Proof.
  intros [i Hi]%list_elem_of_lookup. exists i, (length l).
  split_and!.
  - by apply lookup_app_l_Some.
  - rewrite lookup_app_r by lia. by rewrite Nat.sub_diag.
  - by eapply lookup_lt_Some.
Qed.

Lemma before_elem_l l x y : before l x y → x ∈ l.
Proof. intros (i & j & Hi & _). by eapply list_elem_of_lookup_2. Qed.

Lemma unvisited_mono V V' : V ⊆ V' → (unvisited s V' ≤ unvisited s V)%nat.
Proof. intros HV. unfold unvisited. apply subseteq_size. set_solver. Qed.

Lemma unvisited_add v V :
  (v < length s)%nat → v ∉ V → (unvisited s ({[v]} ∪ V) < unvisited s V)%nat.
Proof.
  intros Hv HV. unfold unvisited. apply subset_size.
  apply strict_spec_alt. split; [set_solver|].
  intros Heq.
  assert (v ∈ (list_to_set (seq 0 (length s)) ∖ V : gset id)) as Hin.
  { apply elem_of_difference. split; [|done].
    apply elem_of_list_to_set, elem_of_seq. lia. }
  rewrite <- Heq in Hin. set_solver.
Qed.

Lemma visit_children_spec (f : id → topo_state → option topo_state)
    (fuel : nat) (v : id) :
  (∀ c V T, (c < length s)%nat →
     (∀ a, a ∈ V → a ∈ T ∨ tc (edge s) a c) →
     (unvisited s V < fuel)%nat →
     ∃ st, f c (V, T) = Some st ∧ topo_post s c V T st) →
  ∀ children V T,
    (∀ c, c ∈ children → edge s v c) →
    (∀ a, a ∈ V → a ∈ T ∨ tc (edge s) a v ∨ a = v) →
    (unvisited s V < fuel)%nat →
    ∃ st T2, visit_children f children (V, T) = Some st ∧
      st.2 = T ++ T2 ∧
      (∀ x, x ∈ st.1 ↔ x ∈ V ∨ x ∈ T2) ∧
      NoDup T2 ∧
      (∀ x, x ∈ T2 → x ∉ V) ∧
      (∀ x, x ∈ T2 → tc (edge s) v x) ∧
      (∀ c, c ∈ children → c ∈ T ++ T2) ∧
      (∀ x c, x ∈ T2 → edge s x c → before (T ++ T2) c x).
Proof.
  intros Hf. induction children as [|c rest IH]; intros V T Hch Hstack Hfuel.
  - exists (V, T), []. simpl. rewrite app_nil_r.
    split_and!; try done; try (intros ? []%elem_of_nil).
    + set_solver.
    + apply NoDup_nil_2.
    + intros ? ? []%elem_of_nil.
  - assert (edge s v c) as Hvc by (apply Hch; left).
    destruct (Hf c V T) as (st1 & Hst1 & T2a & HT & HV & Hnd & Hfresh & Hreach
                            & _ & Hc & Hcl); [by eapply Hclosed | | done |].
    { intros a Ha. destruct (Hstack a Ha) as [?|[?| ->]]; [by left | right..].
      - by eapply tc_r.
      - by apply tc_once. }
    destruct st1 as [V1 T1]. simpl in HT, HV. subst T1.
    destruct (IH V1 (T ++ T2a)) as (st & T2b & Hst & HT' & HV' & Hnd' & Hfresh'
                                    & Hreach' & Hin' & Hcl').
    { intros c' Hc'. apply Hch. by right. }
    { intros a [Ha|Ha]%HV.
      - destruct (Hstack a Ha) as [?|?]; [left; set_solver | by right].
      - left. set_solver. }
    { eapply Nat.le_lt_trans; [apply unvisited_mono | exact Hfuel].
      intros x Hx. apply HV. by left. }
    exists st, (T2a ++ T2b). simpl. rewrite Hst1. split_and!.
    + done.
    + by rewrite HT', app_assoc.
    + intros x. rewrite HV', HV. set_solver.
    + apply NoDup_app. split_and!; [done | | done].
      intros x Hx Hx'. apply (Hfresh' x Hx'), HV. by right.
    + intros x [Hx|Hx]%elem_of_app; [by apply Hfresh|].
      intros HxV. apply (Hfresh' x Hx), HV. by left.
    + intros x [Hx|Hx]%elem_of_app; [|by apply Hreach'].
      eapply tc_rtc_r; [by apply tc_once | by apply Hreach].
    + intros c' [Hc'|Hc']%elem_of_cons; [subst c'|].
      * rewrite app_assoc. set_solver.
      * rewrite app_assoc. by apply Hin'.
    + intros x c' [Hx|Hx]%elem_of_app He; rewrite app_assoc.
      * apply before_app_l. by eapply Hcl.
      * by eapply Hcl'.
Qed.

Lemma build_topo_spec (fuel : nat) : ∀ v V T,
  (v < length s)%nat →
  (∀ a, a ∈ V → a ∈ T ∨ tc (edge s) a v) →
  (unvisited s V < fuel)%nat →
  ∃ st, build_topo fuel s v (V, T) = Some st ∧ topo_post s v V T st.
Proof.
  induction fuel as [|fuel IH]; intros v V T Hv Hstack Hfuel; [lia|].
  cbn [build_topo fst snd]. case_decide as HvV.
  - exists (V, T). split; [done|]. exists []. simpl. rewrite app_nil_r.
    split_and!; try done; try (intros ? []%elem_of_nil).
    + set_solver.
    + apply NoDup_nil_2.
    + by left.
    + destruct (Hstack v HvV) as [?|Hcyc]; [done|]. by destruct (Hacyclic v).
    + intros ? ? []%elem_of_nil.
  - destruct (visit_children_spec (build_topo fuel s) fuel v IH
                (get_prev s v) ({[v]} ∪ V) T)
      as (st & T2 & Hst & HT & HV & Hnd & Hfresh & Hreach & Hin & Hcl).
    { done. }
    { intros a [Ha%elem_of_singleton|Ha]%elem_of_union; [by right; right|].
      destruct (Hstack a Ha); [by left | by right; left]. }
    { pose proof (unvisited_add v V Hv HvV). lia. }
    rewrite Hst. eexists. split; [done|]. exists (T2 ++ [v]). simpl.
    assert (v ∉ T2) as HvT2 by (intros Hx; apply (Hfresh v Hx); set_solver).
    split_and!.
    + by rewrite HT, app_assoc.
    + intros x. rewrite HV. set_solver.
    + apply NoDup_app. split_and!; [done | | apply NoDup_singleton].
      intros x Hx ->%list_elem_of_singleton. done.
    + intros x [Hx|Hx%list_elem_of_singleton]%elem_of_app; [|by subst x].
      intros HxV. apply (Hfresh x Hx). set_solver.
    + intros x [Hx|Hx%list_elem_of_singleton]%elem_of_app.
      * by apply tc_rtc, Hreach.
      * subst x. apply rtc_refl.
    + right. by exists T2.
    + set_solver.
    + intros x c [Hx|Hx%list_elem_of_singleton]%elem_of_app He; rewrite app_assoc.
      * apply before_app_l. by eapply Hcl.
      * subst x. apply before_snoc. by apply Hin.
Qed.

Lemma unvisited_empty : (unvisited s ∅ ≤ length s)%nat.
Proof.
  unfold unvisited.
  trans (size (list_to_set (seq 0 (length s)) : gset id)).
  - apply subseteq_size. set_solver.
  - rewrite size_list_to_set by apply NoDup_seq. by rewrite length_seq.
Qed.

Lemma topo_of_spec root :
  (root < length s)%nat →
  ∃ V T', build_topo (S (length s)) s root (∅, []) = Some (V, T' ++ [root]) ∧
    topo_of s root = T' ++ [root] ∧
    NoDup (topo_of s root) ∧
    (∀ v, v ∈ topo_of s root ↔ reachable s root v) ∧
    (∀ v c, v ∈ topo_of s root → edge s v c → before (topo_of s root) c v).
Proof.
  intros Hroot.
  destruct (build_topo_spec (S (length s)) root ∅ []) as (st & Hst & Hpost);
    [done | set_solver | pose proof unvisited_empty; lia |].
  destruct Hpost as (T2 & HT & HV & Hnd & _ & Hreach & Hlast & Hin & Hcl).
  simpl in HT, Hin, Hcl. destruct st as [V T]. simpl in HT. subst T.
  destruct Hlast as [[]%not_elem_of_empty | [T' ->]].
  exists V, T'. unfold topo_of. rewrite Hst. simpl. split_and!; try done.
  intros v. split; [apply Hreach|].
  revert v. apply (rtc_ind_r (λ v, v ∈ T' ++ [root])).
  - set_solver.
  - intros y z _ Hyz IH. eapply before_elem_l, Hcl; [exact IH | done].
Qed.

End Topo.

Lemma ordered_edge s v c : ordered s → edge s v c → (c < v < length s)%nat.
Proof.
  unfold ordered, edge, get_prev. intros Hord Hc.
  destruct (s !! v) as [n|] eqn:Hn; [|by apply elem_of_nil in Hc].
  pose proof (lookup_lt_Some _ _ _ Hn) as Hlt. split; [|done].
  rewrite Forall_lookup in Hord.
  specialize (Hord v (v, n)). simpl in Hord.
  rewrite Forall_forall in Hord. apply Hord; [|done].
  apply lookup_zip_with_Some. exists v, n. split_and!; [done| |done].
  by apply lookup_seq.
Qed.

Lemma ordered_closed s : ordered s → closed s.
Proof.
  intros Hord v c Hvc. destruct (ordered_edge s v c Hord Hvc). lia.
Qed.

Lemma ordered_tc s v c : ordered s → tc (edge s) v c → (c < v)%nat.
Proof.
  intros Hord Htc. induction Htc as [x y Hxy|x y z Hxy _ IH].
  - by destruct (ordered_edge s x y).
  - destruct (ordered_edge s x y Hord Hxy). lia.
Qed.

Lemma ordered_acyclic s : ordered s → acyclic s.
Proof. intros Hord v Hv. apply ordered_tc in Hv; [lia | done]. Qed.

(** ** Reading fields after an update *)

Lemma length_set_grad v g s : length (set_grad v g s) = length s.
Proof. apply length_alter. Qed.

Lemma get_grad_set_grad v g s x :
  (v < length s)%nat →
  get_grad (set_grad v g s) x = if decide (x = v) then g else get_grad s x.
Proof.
  intros Hv. unfold get_grad, set_grad. case_decide as Hx.
  - subst x. rewrite list_lookup_alter_eq.
    destruct (lookup_lt_is_Some_2 s v Hv) as [n Hn]. by rewrite Hn.
  - by rewrite list_lookup_alter_ne.
Qed.

Lemma same_graph_set_grad v g s : same_graph s (set_grad v g s).
Proof.
  split; [apply length_set_grad|].
  intros x. unfold get_data, get_prev, get_backward, set_grad.
  destruct (decide (x = v)) as [->|Hx].
  - rewrite list_lookup_alter_eq. by destruct (s !! v).
  - by rewrite list_lookup_alter_ne.
Qed.

Lemma get_grad_add_grad v d s x :
  (v < length s)%nat →
  get_grad (add_grad v d s) x = get_grad s x + ind x v * d.
Proof.
  intros Hv. unfold add_grad. rewrite get_grad_set_grad by done.
  unfold ind. case_decide; [subst|]; lia.
Qed.

Lemma same_graph_add_grad v d s : same_graph s (add_grad v d s).
Proof. apply same_graph_set_grad. Qed.

Lemma same_graph_refl s : same_graph s s.
Proof. by split. Qed.

Lemma same_graph_trans s1 s2 s3 :
  same_graph s1 s2 → same_graph s2 s3 → same_graph s1 s3.
Proof.
  intros [Hl1 H1] [Hl2 H2]. split; [congruence|].
  intros x. destruct (H1 x) as (?&?&?), (H2 x) as (?&?&?).
  split_and!; congruence.
Qed.

Lemma same_graph_sym s1 s2 : same_graph s1 s2 → same_graph s2 s1.
Proof.
  intros [Hl H]. split; [done|].
  intros x. destruct (H x) as (?&?&?). done.
Qed.

Lemma same_graph_edge s s' v c : same_graph s s' → edge s' v c ↔ edge s v c.
Proof. intros [_ H]. unfold edge. destruct (H v) as (_ & -> & _). done. Qed.

Lemma same_graph_weight s s' v x : same_graph s s' → weight s' v x = weight s v x.
Proof.
  intros [_ H]. unfold weight. destruct (H v) as (Hd & _ & ->).
  destruct (get_backward s v) as [|a b'|a b'|a k|a]; try done.
  - destruct (H a) as (-> & _), (H b') as (-> & _). done.
  - destruct (H a) as (-> & _). done.
  - by rewrite Hd.
Qed.

Lemma same_graph_rule_ok s s' v : same_graph s s' → rule_ok s' v ↔ rule_ok s v.
Proof. intros [_ H]. unfold rule_ok. destruct (H v) as (_ & _ & ->). done. Qed.

Lemma same_graph_tc s s' v c :
  same_graph s s' → tc (edge s') v c → tc (edge s) v c.
Proof.
  intros Hs Htc. induction Htc as [x y Hxy|x y z Hxy _ IH].
  - apply tc_once. by apply (same_graph_edge s s').
  - eapply tc_l; [|exact IH]. by apply (same_graph_edge s s').
Qed.

Lemma same_graph_well_formed s s' :
  same_graph s s' → well_formed s → well_formed s'.
Proof.
  intros Hs (Hcl & Hac & Htg). split_and!.
  - intros v c Hvc. apply (same_graph_edge s s') in Hvc; [|done].
    destruct Hs as [-> _]. by eapply Hcl.
  - intros v Hv. apply (Hac v). by eapply same_graph_tc.
  - intros v x. rewrite (same_graph_edge s s') by done.
    destruct Hs as [_ H]. destruct (H v) as (_ & _ & ->). apply Htg.
Qed.

(** ** One closure *)

Lemma length_add_grad v d s : length (add_grad v d s) = length s.
Proof. apply length_set_grad. Qed.

Lemma ind_eq x : ind x x = 1.
Proof. unfold ind. by rewrite decide_True. Qed.

Lemma ind_ne x a : x ≠ a → ind x a = 0.
Proof. intros. unfold ind. by rewrite decide_False. Qed.

Lemma wf_targets s v x :
  well_formed s → x ∈ rule_targets (get_backward s v) →
  (x < length s)%nat ∧ v ≠ x.
Proof.
  intros (Hcl & Hac & Htg) Hx%Htg. split; [by eapply Hcl|].
  intros ->. by apply (Hac x), tc_once.
Qed.

Lemma weight_no_edge s v x : well_formed s → ¬ edge s v x → weight s v x = 0.
Proof.
  intros (_ & _ & Htg) Hvx. unfold weight.
  assert (x ∉ rule_targets (get_backward s v)) as Hx by (by rewrite Htg).
  destruct (get_backward s v) as [|a c|a c|a k|a]; simpl in Hx; try done.
  - rewrite !ind_ne by set_solver. done.
  - rewrite !ind_ne by set_solver. lia.
  - rewrite ind_ne by set_solver. lia.
  - rewrite ind_ne by set_solver. lia.
Qed.

Lemma call_backward_ok s v :
  rule_ok s v → ∃ s', call_backward v s = Ok (tt, s') ∧ same_graph s s'.
Proof.
  unfold rule_ok, call_backward. intros Hok.
  destruct (get_backward s v) as [|a c|a c|a k|a];
    cbv [run_rule bind read_grad read_data modify ret lift].
  - eexists. split; [done | apply same_graph_refl].
  - eexists. split; [done|].
    eapply same_graph_trans; apply same_graph_add_grad.
  - eexists. split; [done|].
    eapply same_graph_trans; apply same_graph_add_grad.
  - unfold py_pow. rewrite decide_True by lia.
    eexists. split; [done | apply same_graph_add_grad].
  - eexists. split; [done | apply same_graph_add_grad].
Qed.

Lemma call_backward_not_ok s v :
  ¬ rule_ok s v →
  call_backward v s = Raise ZeroDivisionError ∨ call_backward v s = Floating.
Proof.
  unfold rule_ok, call_backward. intros Hok.
  destruct (get_backward s v) as [|a c|a c|a k|a]; try done.
  cbv [run_rule bind read_grad read_data modify ret lift].
  unfold py_pow. rewrite decide_False by lia.
  case_decide; [by left | by right].
Qed.

Lemma call_backward_grad s v s' :
  well_formed s → call_backward v s = Ok (tt, s') →
  ∀ x, get_grad s' x = get_grad s x + weight s v x * get_grad s v.
Proof.
  intros Hwf Hrun x. pose proof (wf_targets s v) as Htg.
  unfold call_backward, weight in *.
  destruct (get_backward s v) as [|a c|a c|a k|a];
    cbv [run_rule bind read_grad read_data modify ret lift] in Hrun;
    simpl in Htg.
  - injection Hrun as <-. lia.
  - injection Hrun as <-.
    destruct (Htg a) as [? ?]; [done | set_solver|].
    destruct (Htg c) as [? ?]; [done | set_solver|].
    rewrite !get_grad_add_grad by (by rewrite ?length_add_grad).
    rewrite (ind_ne v a) by done. lia.
  - injection Hrun as <-.
    destruct (Htg a) as [? ?]; [done | set_solver|].
    destruct (Htg c) as [? ?]; [done | set_solver|].
    rewrite !get_grad_add_grad by (by rewrite ?length_add_grad).
    rewrite (ind_ne v a) by done.
    destruct (same_graph_add_grad a (get_data s c * get_grad s v) s) as [_ Hsg].
    destruct (Hsg a) as (-> & _). lia.
  - destruct (py_pow (get_data s a) (k - 1)) as [p| |] eqn:Hp; try done.
    injection Hrun as <-.
    destruct (Htg a) as [? ?]; [done | set_solver|].
    rewrite get_grad_add_grad by done.
    unfold py_pow in Hp. case_decide; [|by case_decide].
    injection Hp as <-. lia.
  - injection Hrun as <-.
    destruct (Htg a) as [? ?]; [done | set_solver|].
    rewrite get_grad_add_grad by done.
    unfold bool_mul. case_bool_decide; lia.
Qed.

Lemma rule_ok_dec s v : {rule_ok s v} + {¬ rule_ok s v}.
Proof.
  unfold rule_ok. destruct (get_backward s v); try (by left).
  apply Z_le_dec.
Qed.

Lemma call_backward_inv s v u s' :
  call_backward v s = Ok (u, s') → rule_ok s v ∧ same_graph s s'.
Proof.
  intros Hrun. destruct (rule_ok_dec s v) as [Hok|Hok].
  - split; [done|]. destruct (call_backward_ok s v Hok) as (s'' & Hs'' & Hsg).
    congruence.
  - destruct (call_backward_not_ok s v Hok); congruence.
Qed.

(** ** Sums over the traversal order *)

Lemma Zsum_zero {A} (f : A → Z) l : (∀ x, x ∈ l → f x = 0) → Zsum f l = 0.
Proof.
  induction l as [|y l IH]; intros Hf; simpl; [done|].
  rewrite Hf, IH; [done | | left]. intros x Hx. apply Hf. by right.
Qed.

Lemma Zsum_ext {A} (f g : A → Z) l :
  (∀ x, x ∈ l → f x = g x) → Zsum f l = Zsum g l.
Proof.
  induction l as [|y l IH]; intros Hf; simpl; [done|].
  rewrite Hf, IH; [done | | left]. intros x Hx. apply Hf. by right.
Qed.

Lemma Zsum_app {A} (f : A → Z) l l' : Zsum f (l ++ l') = Zsum f l + Zsum f l'.
Proof. induction l as [|y l IH]; simpl; lia. Qed.

Lemma Zsum_reverse {A} (f : A → Z) l : Zsum f (reverse l) = Zsum f l.
Proof.
  induction l as [|y l IH]; simpl; [done|].
  rewrite reverse_cons, Zsum_app, IH. simpl. lia.
Qed.

(** A sum whose only non-zero term is at [p]. *)
Lemma Zsum_single (f : id → Z) l p :
  NoDup l → p ∈ l → (∀ x, x ∈ l → x ≠ p → f x = 0) → Zsum f l = f p.
Proof.
  induction l as [|y l IH]; intros Hnd Hp Hf; [by apply elem_of_nil in Hp|].
  apply NoDup_cons in Hnd as [Hy Hnd]. simpl.
  destruct (decide (y = p)) as [->|Hne].
  - rewrite Zsum_zero; [lia|]. intros x Hx. apply Hf; [by right|].
    intros ->. done.
  - rewrite Hf by (done || left). rewrite IH; [lia | done | set_solver |].
    intros x Hx. apply Hf. by right.
Qed.

(** ** The loop over [reversed(topo)] *)

Lemma same_graph_sweep_order s s' L :
  same_graph s s' → sweep_order s L → sweep_order s' L.
Proof.
  intros Hsg. induction L as [|v Q IH]; simpl; [done|].
  intros [Hv HQ]. split; [|by apply IH].
  intros u Hu Huv. apply (Hv u Hu). by apply (same_graph_edge s s').
Qed.

Lemma for_each_backward_ok L : ∀ s,
  Forall (rule_ok s) L →
  ∃ s', for_each call_backward L s = Ok (tt, s') ∧ same_graph s s'.
Proof.
  induction L as [|v Q IH]; intros s HL; simpl.
  - eexists. split; [done | apply same_graph_refl].
  - apply Forall_cons in HL as [Hv HQ].
    destruct (call_backward_ok s v Hv) as (s1 & Hs1 & Hsg1).
    destruct (IH s1) as (s' & Hs' & Hsg').
    { eapply Forall_impl; [exact HQ|]. intros u Hu.
      by apply (same_graph_rule_ok s s1). }
    exists s'. unfold bind. rewrite Hs1. split; [done|].
    by eapply same_graph_trans.
Qed.

Lemma for_each_backward_inv L : ∀ s u s',
  for_each call_backward L s = Ok (u, s') →
  Forall (rule_ok s) L ∧ same_graph s s'.
Proof.
  induction L as [|v Q IH]; intros s u s' Hrun; simpl in Hrun.
  - injection Hrun as _ <-. split; [done | apply same_graph_refl].
  - unfold bind in Hrun.
    destruct (call_backward v s) as [[[] s1]| |] eqn:Hs1; try done.
    apply call_backward_inv in Hs1 as [Hv Hsg1].
    apply IH in Hrun as [HQ Hsg']. split; [|by eapply same_graph_trans].
    apply Forall_cons. split; [done|].
    eapply Forall_impl; [exact HQ|]. intros w Hw.
    by apply (same_graph_rule_ok s s1).
Qed.

(** The chain rule, as the loop establishes it: the final gradient of an
    object is its gradient before the loop plus, for every closure that
    fired, that closure's local derivative times the final gradient of its
    owner. *)
Lemma for_each_backward_grad L : ∀ s s',
  well_formed s → sweep_order s L →
  for_each call_backward L s = Ok (tt, s') →
  ∀ x, get_grad s' x
       = get_grad s x + Zsum (λ v, weight s v x * get_grad s' v) L.
Proof.
  induction L as [|v Q IH]; intros s s' Hwf Hsw Hrun x; simpl in Hrun.
  - injection Hrun as <-. simpl. lia.
  - unfold bind in Hrun.
    destruct (call_backward v s) as [[[] s1]| |] eqn:Hs1; try done.
    destruct Hsw as [Hv HQ].
    pose proof (call_backward_inv _ _ _ _ Hs1) as [_ Hsg1].
    pose proof (same_graph_well_formed _ _ Hsg1 Hwf) as Hwf1.
    pose proof (same_graph_sweep_order _ _ _ Hsg1 HQ) as HQ1.
    pose proof (IH s1 s' Hwf1 HQ1 Hrun) as Hfin.
    pose proof (call_backward_grad s v s1 Hwf Hs1) as Hstep.
    assert (get_grad s' v = get_grad s v) as Hfix.
    { rewrite (Hfin v), Zsum_zero.
      - rewrite (Hstep v), (weight_no_edge s v v); [lia | done |].
        apply Hv. by left.
      - intros u Hu. rewrite (same_graph_weight s s1) by done.
        rewrite (weight_no_edge s u v); [lia | done |]. apply Hv. by right. }
    rewrite (Hfin x), (Hstep x). simpl. rewrite Hfix.
    rewrite (Zsum_ext _ (λ u, weight s u x * get_grad s' u)); [lia|].
    intros u _. by rewrite (same_graph_weight s s1).
Qed.

Lemma topo_sweep_order s T :
  NoDup T → (∀ u c, u ∈ T → edge s u c → before T c u) →
  sweep_order s (reverse T).
Proof.
  induction T as [|x T IH] using rev_ind; intros Hnd Hcl; [done|].
  rewrite reverse_snoc. simpl.
  pose proof Hnd as Hnd'. apply NoDup_app in Hnd' as (HndT & Hdisj & _).
  assert ((T ++ [x]) !! length T = Some x) as Hx.
  { rewrite lookup_app_r by lia. by rewrite Nat.sub_diag. }
  split.
  - intros u Hu Hux.
    assert (u ∈ T ++ [x]) as Hu'.
    { apply elem_of_cons in Hu as [->|Hu%elem_of_reverse]; set_solver. }
    destruct (Hcl u x Hu' Hux) as (i & j & Hi & Hj & Hij).
    pose proof (NoDup_lookup _ _ _ _ Hnd Hi Hx) as ->.
    apply lookup_lt_Some in Hj. rewrite length_app in Hj. simpl in Hj. lia.
  - apply IH; [done|]. intros u c Hu Huc.
    destruct (Hcl u c) as (i & j & Hi & Hj & Hij); [set_solver | done |].
    apply list_elem_of_lookup in Hu as [k Hk].
    pose proof (lookup_lt_Some _ _ _ Hk) as Hklt.
    pose proof (lookup_app_l_Some _ [x] _ _ Hk) as Hk'.
    pose proof (NoDup_lookup _ _ _ _ Hnd Hj Hk') as ->.
    exists i, k. split_and!; [|done|done].
    by rewrite lookup_app_l in Hi by lia.
Qed.

(** ** The backward pass *)

Lemma backward_unfold root s :
  backward root s
  = for_each call_backward (reverse (topo_of s root)) (set_grad root 1 s).
Proof. done. Qed.

Lemma build_topo_same_graph s s' fuel : same_graph s s' →
  ∀ v st, build_topo fuel s' v st = build_topo fuel s v st.
Proof.
  intros [_ Hsg]. induction fuel as [|fuel IH]; intros v st; simpl; [done|].
  destruct (Hsg v) as (_ & -> & _).
  assert (∀ l st0, visit_children (build_topo fuel s') l st0
                   = visit_children (build_topo fuel s) l st0) as ->; [|done].
  induction l as [|c l IHl]; intros st0; simpl; [done|].
  rewrite IH. by destruct (build_topo fuel s c st0).
Qed.

Lemma topo_of_same_graph s s' root :
  same_graph s s' → topo_of s' root = topo_of s root.
Proof.
  intros Hsg. unfold topo_of. destruct (Hsg) as [-> _].
  by rewrite (build_topo_same_graph s s').
Qed.

Lemma backward_inv root s u s' :
  backward root s = Ok (u, s') →
  Forall (rule_ok s) (topo_of s root) ∧ same_graph s s'.
Proof.
  rewrite backward_unfold. intros [Hok Hsg]%for_each_backward_inv.
  pose proof (same_graph_set_grad root 1 s) as Hsg0. split.
  - apply Forall_forall. intros v Hv.
    apply (same_graph_rule_ok s (set_grad root 1 s)); [done|].
    rewrite Forall_forall in Hok. by apply Hok, elem_of_reverse.
  - by eapply same_graph_trans.
Qed.

(** The backward pass solves the chain-rule equations: the root ends at 1,
    and every other object ends at its previous gradient plus the
    contributions of its consumers. *)
Lemma backward_spec root s :
  well_formed s → (root < length s)%nat →
  Forall (rule_ok s) (topo_of s root) →
  ∃ s', backward root s = Ok (tt, s') ∧ same_graph s s' ∧
    get_grad s' root = 1 ∧
    ∀ x, x ≠ root →
      get_grad s' x
      = get_grad s x + Zsum (λ v, weight s v x * get_grad s' v) (topo_of s root).
Proof.
  intros Hwf Hroot Hok.
  pose proof (same_graph_set_grad root 1 s) as Hsg0.
  pose proof (same_graph_well_formed _ _ Hsg0 Hwf) as Hwf0.
  destruct Hwf as (Hcl & Hac & Htg).
  destruct (topo_of_spec s Hac Hcl root Hroot) as (V & T' & _ & HT & Hnd & _ & Hbef).
  pose proof (topo_sweep_order s _ Hnd Hbef) as Hsw.
  destruct (for_each_backward_ok (reverse (topo_of s root)) (set_grad root 1 s))
    as (s' & Hrun & Hsg).
  { apply Forall_forall. intros v Hv. rewrite elem_of_reverse in Hv.
    apply (same_graph_rule_ok s); [done|].
    rewrite Forall_forall in Hok. by apply Hok. }
  exists s'. rewrite backward_unfold. split; [done|].
  split; [by eapply same_graph_trans|].
  pose proof (for_each_backward_grad _ _ _ Hwf0
                (same_graph_sweep_order _ _ _ Hsg0 Hsw) Hrun) as Hgrad.
  assert (∀ x, Zsum (λ v, weight (set_grad root 1 s) v x * get_grad s' v)
                 (reverse (topo_of s root))
               = Zsum (λ v, weight s v x * get_grad s' v) (topo_of s root)) as Hsum.
  { intros x. rewrite Zsum_reverse. apply Zsum_ext. intros v _.
    by rewrite (same_graph_weight s). }
  split.
  - rewrite Hgrad, Hsum, get_grad_set_grad, decide_True by done.
    rewrite Zsum_zero; [lia|]. intros v Hv.
    rewrite weight_no_edge; [lia | done |].
    rewrite HT, reverse_snoc in Hsw. destruct Hsw as [Hno _].
    apply Hno. rewrite <- reverse_snoc, <- HT. by apply elem_of_reverse.
  - intros x Hx. rewrite Hgrad, Hsum, get_grad_set_grad by done.
    by rewrite decide_False.
Qed.

(** ** Arenas extended by new objects *)

Lemma tc_first_step {A} (R : relation A) x z :
  tc R x z → ∃ y, R x y ∧ rtc R y z.
Proof.
  intros [x' z' H|x' y z' H1 H2].
  - exists z'. split; [done | apply rtc_refl].
  - exists y. split; [done | by apply tc_rtc].
Qed.

Lemma get_prev_app_l s l v : (v < length s)%nat → get_prev (s ++ l) v = get_prev s v.
Proof. intros. unfold get_prev. by rewrite lookup_app_l. Qed.

Lemma get_data_app_l s l v : (v < length s)%nat → get_data (s ++ l) v = get_data s v.
Proof. intros. unfold get_data. by rewrite lookup_app_l. Qed.

Lemma get_grad_app_l s l v : (v < length s)%nat → get_grad (s ++ l) v = get_grad s v.
Proof. intros. unfold get_grad. by rewrite lookup_app_l. Qed.

Lemma get_backward_app_l s l v :
  (v < length s)%nat → get_backward (s ++ l) v = get_backward s v.
Proof. intros. unfold get_backward. by rewrite lookup_app_l. Qed.

Lemma lookup_app_offset (s l : store) i : (s ++ l) !! (length s + i)%nat = l !! i.
Proof. rewrite lookup_app_r by lia. f_equal. lia. Qed.

Lemma lookup_snoc_new (s : store) n : (s ++ [n]) !! length s = Some n.
Proof. pose proof (lookup_app_offset s [n] 0) as H. by rewrite Nat.add_0_r in H. Qed.

Lemma get_prev_ge s v : (length s ≤ v)%nat → get_prev s v = [].
Proof. intros. unfold get_prev. by rewrite lookup_ge_None_2. Qed.

Lemma edge_lt s v c : edge s v c → (v < length s)%nat.
Proof.
  unfold edge. intros Hc. destruct (decide (v < length s)%nat); [done|].
  rewrite get_prev_ge in Hc by lia. by apply elem_of_nil in Hc.
Qed.

Lemma set_backward_snoc s n r :
  set_backward (length s) r (s ++ [n]) = s ++ [with_backward r n].
Proof.
  unfold set_backward. pose proof (alter_app_r (with_backward r) s [n] 0) as H.
  by rewrite Nat.add_0_r in H.
Qed.

(** Edges of an arena extended by one object whose operands are old. *)
Lemma edge_snoc s n v c :
  edge (s ++ [n]) v c ↔ edge s v c ∨ (v = length s ∧ c ∈ _prev n).
Proof.
  unfold edge. destruct (decide (v < length s)%nat) as [Hv|Hv].
  - rewrite get_prev_app_l by done. split; [by left|]. intros [?|[? _]]; [done|lia].
  - rewrite (get_prev_ge s v) by lia.
    destruct (decide (v = length s)) as [->|Hne].
    + unfold get_prev. rewrite lookup_snoc_new. split; [by right|].
      intros [[]%elem_of_nil|[_ ?]]. done.
    + rewrite get_prev_ge by (rewrite length_app; simpl; lia).
      split; [intros []%elem_of_nil | intros [[]%elem_of_nil|[? _]]; done].
Qed.

Lemma tc_snoc_old s n v x :
  closed s → (v < length s)%nat → tc (edge (s ++ [n])) v x →
  tc (edge s) v x ∧ (x < length s)%nat.
Proof.
  intros Hcl Hv Htc. induction Htc as [v x Hvx|v y x Hvy _ IH].
  - apply edge_snoc in Hvx as [Hvx|[? _]]; [|lia].
    split; [by apply tc_once | by eapply Hcl].
  - apply edge_snoc in Hvy as [Hvy|[? _]]; [|lia].
    destruct IH as [IH ?]; [by eapply Hcl|]. split; [|done]. by eapply tc_l.
Qed.

Lemma well_formed_snoc s n :
  well_formed s →
  (∀ c, c ∈ _prev n → (c < length s)%nat) →
  (∀ x, x ∈ rule_targets (_backward n) ↔ x ∈ _prev n) →
  well_formed (s ++ [n]).
Proof.
  intros (Hcl & Hac & Htg) Hprev Hrule. split_and!.
  - intros v c [Hvc|[-> Hc]]%edge_snoc; rewrite length_app; simpl.
    + apply Hcl in Hvc. lia.
    + apply Hprev in Hc. lia.
  - intros v Hv. destruct (decide (v < length s)%nat) as [Hlt|Hge].
    + apply tc_snoc_old in Hv as [Hv _]; [|done..]. by apply (Hac v).
    + apply tc_first_step in Hv as (c & Hvc & Hcv). 
      apply edge_snoc in Hvc as [Hvc%edge_lt|[-> Hc%Hprev]]; [lia|].
      apply rtc_tc in Hcv as [->|Hcv]; [lia|].
      apply tc_snoc_old in Hcv as [_ ?]; [lia | done..].
  - intros v x. rewrite edge_snoc.
    destruct (decide (v < length s)%nat) as [Hlt|Hge].
    + rewrite get_backward_app_l by done. rewrite Htg.
      split; [by left | intros [?|[? _]]; [done|lia]].
    + destruct (decide (v = length s)) as [->|Hne].
      * unfold get_backward. rewrite lookup_snoc_new, Hrule.
        split; [by right | intros [Hx%edge_lt|[_ ?]]; [lia|done]].
      * unfold get_backward at 1.
        rewrite lookup_ge_None_2 by (rewrite length_app; simpl; lia).
        split; [intros []%elem_of_nil | intros [Hx%edge_lt|[? _]]; [lia|done]].
Qed.

Lemma well_formed_nil : well_formed [].
Proof.
  split_and!.
  - intros v c []%elem_of_nil.
  - intros v Hv. apply tc_first_step in Hv as (c & []%elem_of_nil & _).
  - intros v x. split; intros []%elem_of_nil.
Qed.

(** ** What the builders append *)

Section Builders.

Variable set_rev : list id → bool.

Lemma elem_of_set_of l x : x ∈ set_of set_rev l ↔ x ∈ l.
Proof.
  unfold set_of. destruct (set_rev l).
  - by rewrite elem_of_reverse, elem_of_remove_dups.
  - by rewrite elem_of_remove_dups.
Qed.

Lemma NoDup_set_of l : NoDup (set_of set_rev l).
Proof.
  unfold set_of. destruct (set_rev l).
  - rewrite reverse_Permutation. apply NoDup_remove_dups.
  - apply NoDup_remove_dups.
Qed.

Lemma set_of_nil : set_of set_rev [] = [].
Proof. unfold set_of. by destruct (set_rev []). Qed.

Lemma set_of_singleton x : set_of set_rev [x] = [x].
Proof. unfold set_of. by destruct (set_rev [x]). Qed.

Lemma new_Value_run z s :
  new_Value set_rev z s = Ok (length s, s ++ [mkValue z 0 NoOp [] ""]).
Proof. unfold new_Value, Value_init. by rewrite set_of_nil. Qed.

Lemma add_run self other s :
  __add__ set_rev self (Node other) s
  = Ok (length s,
        s ++ [mkValue (get_data s self + get_data s other) 0
                (AddRule self other) (set_of set_rev [self; other]) "+"]).
Proof.
  cbv [__add__ wrap bind ret read_data Value_init modify].
  by rewrite set_backward_snoc.
Qed.

Lemma mul_run self other s :
  __mul__ set_rev self (Node other) s
  = Ok (length s,
        s ++ [mkValue (get_data s self * get_data s other) 0
                (MulRule self other) (set_of set_rev [self; other]) "*"]).
Proof.
  cbv [__mul__ wrap bind ret read_data Value_init modify].
  by rewrite set_backward_snoc.
Qed.

Lemma relu_run self s :
  relu set_rev self s
  = Ok (length s,
        s ++ [mkValue (if decide (get_data s self < 0) then 0 else get_data s self)
                0 (ReluRule self) [self] "ReLU"]).
Proof.
  cbv [relu bind ret read_data Value_init modify].
  by rewrite set_backward_snoc, set_of_singleton.
Qed.

Lemma pow_run self other k s :
  as_int other = Some k → 0 <= k →
  __pow__ set_rev self other s
  = Ok (length s,
        s ++ [mkValue (get_data s self ^ k) 0 (PowRule self k) [self]
                (pow_op other)]).
Proof.
  intros Hk Hpos. unfold __pow__.
  assert (isinstance_int_float other = true) as -> by (by destruct other).
  rewrite Hk. cbv [bind ret read_data lift Value_init modify py_pow].
  rewrite decide_True by done.
  by rewrite set_backward_snoc, set_of_singleton.
Qed.

(** With a raw right operand the builders first wrap it in a new leaf. *)
Lemma add_wrap self other s :
  __add__ set_rev self other s
  = (o <- wrap set_rev other ;; __add__ set_rev self (Node o)) s.
Proof. done. Qed.

Lemma mul_wrap self other s :
  __mul__ set_rev self other s
  = (o <- wrap set_rev other ;; __mul__ set_rev self (Node o)) s.
Proof. done. Qed.

Lemma add_Num_run self z s :
  (self < length s)%nat →
  __add__ set_rev self (Num z) s
  = Ok (S (length s),
        s ++ [mkValue z 0 NoOp [] "";
              mkValue (get_data s self + z) 0 (AddRule self (length s))
                (set_of set_rev [self; length s]) "+"]).
Proof.
  intros Hself. rewrite add_wrap. unfold bind, wrap.
  rewrite new_Value_run, add_run, length_app, <- app_assoc. simpl.
  rewrite get_data_app_l by done. unfold get_data at 2.
  rewrite lookup_snoc_new. simpl. do 4 f_equal; lia.
Qed.

Lemma mul_Num_run self z s :
  (self < length s)%nat →
  __mul__ set_rev self (Num z) s
  = Ok (S (length s),
        s ++ [mkValue z 0 NoOp [] "";
              mkValue (get_data s self * z) 0 (MulRule self (length s))
                (set_of set_rev [self; length s]) "*"]).
Proof.
  intros Hself. rewrite mul_wrap. unfold bind, wrap.
  rewrite new_Value_run, mul_run, length_app, <- app_assoc. simpl.
  rewrite get_data_app_l by done. unfold get_data at 2.
  rewrite lookup_snoc_new. simpl. do 4 f_equal; lia.
Qed.

End Builders.

Lemma get_prev_offset s l i n :
  l !! i = Some n → get_prev (s ++ l) (length s + i) = _prev n.
Proof. intros H. unfold get_prev. by rewrite lookup_app_offset, H. Qed.

Lemma get_backward_offset s l i n :
  l !! i = Some n → get_backward (s ++ l) (length s + i) = _backward n.
Proof. intros H. unfold get_backward. by rewrite lookup_app_offset, H. Qed.

Lemma get_data_offset s l i n :
  l !! i = Some n → get_data (s ++ l) (length s + i) = data n.
Proof. intros H. unfold get_data. by rewrite lookup_app_offset, H. Qed.

Lemma get_grad_offset s l i n :
  l !! i = Some n → get_grad (s ++ l) (length s + i) = grad n.
Proof. intros H. unfold get_grad. by rewrite lookup_app_offset, H. Qed.

Lemma reachable_leaf s v x : get_prev s v = [] → reachable s v x → x = v.
Proof.
  intros Hv Hx. apply rtc_inv in Hx as [->|(y & Hy & _)]; [done|].
  unfold edge in Hy. rewrite Hv in Hy. by apply elem_of_nil in Hy.
Qed.

Lemma Zsum_split {A} (P : A → Prop) `{∀ x, Decision (P x)} (f : A → Z) l :
  Zsum f l = Zsum (λ x, if decide (P x) then f x else 0) l
             + Zsum (λ x, if decide (P x) then 0 else f x) l.
Proof. induction l as [|y l IH]; simpl; [done|]. case_decide; lia. Qed.

Lemma Zsum_two (f : id → Z) l p q :
  NoDup l → p ∈ l → q ∈ l → p ≠ q →
  (∀ x, x ∈ l → x ≠ p → x ≠ q → f x = 0) → Zsum f l = f p + f q.
Proof.
  intros Hnd Hp Hq Hpq Hf. rewrite (Zsum_split (λ x, x = p)).
  rewrite (Zsum_single _ l p), (Zsum_single _ l q); try done.
  - rewrite decide_True, decide_False; done.
  - intros x Hx Hxq. case_decide; [done|]. by apply Hf.
  - intros x Hx Hxp. by rewrite decide_False.
Qed.



Lemma get_data_here s n l : get_data (s ++ n :: l) (length s) = data n.
Proof.
  pose proof (get_data_offset s (n :: l) 0 n eq_refl) as H.
  by rewrite Nat.add_0_r in H.
Qed.

Lemma set_of_dup set_rev x : set_of set_rev [x; x] = [x].
Proof.
  unfold set_of. simpl.
  destruct (decide_rel elem_of x [x]) as [|Hx]; [|set_solver].
  by destruct (set_rev [x; x]).
Qed.

Lemma diamond_build set_rev s x :
  diamond_graph set_rev x s
  = Ok ((length s, (length s + 3)%nat),
        s ++ [mkValue x 0 NoOp [] "";
              mkValue (x * x) 0 (MulRule (length s) (length s)) [length s] "*";
              mkValue (x * x) 0 (MulRule (length s) (length s)) [length s] "*";
              mkValue (x * x + x * x) 0
                (AddRule (length s + 1) (length s + 2))
                (set_of set_rev [length s + 1; length s + 2])%nat "+"]).
Proof.
  unfold diamond_graph, bind.
  rewrite new_Value_run, mul_run, get_data_here, set_of_dup.
  rewrite <- app_assoc. simpl app. rewrite mul_run, get_data_here.
  rewrite <- app_assoc. simpl app. rewrite add_run.
  rewrite <- app_assoc. simpl app. rewrite !length_app. simpl length.
  unfold get_data. rewrite !lookup_app_offset. simpl.
  rewrite set_of_dup. unfold ret. repeat f_equal; lia.
Qed.

Lemma well_formed_app_leaf s z op :
  well_formed s → well_formed (s ++ [mkValue z 0 NoOp [] op]).
Proof. intros. apply well_formed_snoc; [done| |]; simpl; set_solver. Qed.

(** C1. For a leaf [a] with [b = a*a], [c = a*a] and [out = b + c], the
    backward pass on [out] leaves [a.grad = 4 * a.data]: both paths through
    the diamond contribute, and the contributions add up.  The leaf is
    created in any well-formed arena, and the sets of operands may be
    iterated in any order. *)
Theorem diamond_gradient set_rev s x :
  well_formed s →
  ∃ s', diamond set_rev x s = Ok (length s, s') ∧
        get_data s' (length s) = x ∧ get_grad s' (length s) = 4 * x.
Proof.
  intros Hwf. unfold diamond, bind. rewrite diamond_build. simpl.
  set (n := length s).
  set (A := mkValue x 0 NoOp [] "").
  set (B := mkValue (x * x) 0 (MulRule n n) [n] "*").
  set (O := mkValue _ 0 (AddRule _ _) _ "+").
  assert (well_formed (s ++ [A; B; B; O])) as Hwf4.
  { change (s ++ [A; B; B; O]) with (s ++ [A] ++ [B] ++ [B] ++ [O]).
    rewrite !app_assoc.
    apply well_formed_snoc; [apply well_formed_snoc; [apply well_formed_snoc|..]|..];
      [by apply well_formed_app_leaf|..]; simpl;
      try (intros c; rewrite ?elem_of_set_of, ?length_app; simpl;
           fold n; set_solver by lia). }
  set (s4 := s ++ [A; B; B; O]) in *.
  assert (get_prev s4 (n + 0) = [] ∧ get_prev s4 (n + 1) = [n] ∧
          get_prev s4 (n + 2) = [n] ∧
          get_prev s4 (n + 3) = set_of set_rev [n + 1; n + 2]%nat)
    as (HpA & HpB & HpC & HpO).
  { unfold get_prev, s4, n. by rewrite !lookup_app_offset. }
  assert (get_backward s4 (n + 0) = NoOp ∧ get_backward s4 (n + 1) = MulRule n n ∧
          get_backward s4 (n + 2) = MulRule n n ∧
          get_backward s4 (n + 3) = AddRule (n + 1) (n + 2))
    as (HbA & HbB & HbC & HbO).
  { unfold get_backward, s4, n. by rewrite !lookup_app_offset. }
  assert (get_data s4 n = x ∧ get_grad s4 (n + 0) = 0 ∧
          get_grad s4 (n + 1) = 0 ∧ get_grad s4 (n + 2) = 0)
    as (HdA & HgA & HgB & HgC).
  { unfold get_grad, s4, n. rewrite !lookup_app_offset. split; [|done].
    apply get_data_here. }
  assert (∀ v, reachable s4 (n + 3) v → v ∈ [n + 3; n + 1; n + 2; n + 0]%nat)
    as Hreach.
  { assert (∀ v, reachable s4 n v → v = n) as HA.
    { intros v. apply reachable_leaf. by rewrite <- (Nat.add_0_r n), HpA. }
    intros v [<-|(y & Hy & Hv)]%rtc_inv; [set_solver|].
    unfold edge in Hy. rewrite HpO, elem_of_set_of in Hy.
    assert (y = (n + 1)%nat ∨ y = (n + 2)%nat) as [-> | ->] by set_solver.
    - apply rtc_inv in Hv as [<-|(z & Hz & Hv)]; [set_solver|].
      unfold edge in Hz. rewrite HpB in Hz.
      apply list_elem_of_singleton in Hz as ->. apply HA in Hv as ->.
      rewrite Nat.add_0_r. set_solver.
    - apply rtc_inv in Hv as [<-|(z & Hz & Hv)]; [set_solver|].
      unfold edge in Hz. rewrite HpC in Hz.
      apply list_elem_of_singleton in Hz as ->. apply HA in Hv as ->.
      rewrite Nat.add_0_r. set_solver. }
  destruct (Hwf4) as (Hcl4 & Hac4 & _).
  assert (n + 3 < length s4)%nat as Hroot.
  { unfold s4, n. rewrite length_app. simpl. lia. }
  destruct (topo_of_spec s4 Hac4 Hcl4 (n + 3) Hroot)
    as (_ & _ & _ & _ & Hnd & Hmem & _).
  destruct (backward_spec (n + 3) s4 Hwf4 Hroot) as (s' & -> & Hsg & HgO & Hgrad).
  { apply Forall_forall. intros v Hv%Hmem%Hreach. unfold rule_ok.
    repeat (apply elem_of_cons in Hv as [->|Hv]);
      [by rewrite HbO | by rewrite HbB | by rewrite HbC | by rewrite HbA
      | by apply elem_of_nil in Hv]. }
  exists s'. split; [done|].
  assert ((n + 1)%nat ∈ topo_of s4 (n + 3) ∧ (n + 2)%nat ∈ topo_of s4 (n + 3)
          ∧ (n + 3)%nat ∈ topo_of s4 (n + 3)) as (HinB & HinC & HinO).
  { rewrite !Hmem. split_and!; [| |apply rtc_refl];
      apply rtc_once; unfold edge; rewrite HpO, elem_of_set_of; set_solver. }
  assert (get_grad s' (n + 1) = 1) as HB.
  { rewrite Hgrad by lia. rewrite (Zsum_single _ _ (n + 3)%nat); [|done..|].
    - unfold weight. rewrite HbO, HgO, HgB, ind_eq, ind_ne by lia. lia.
    - intros v Hv%Hmem%Hreach Hne. unfold weight.
      repeat (apply elem_of_cons in Hv as [->|Hv]);
        [done | rewrite HbB | rewrite HbC | rewrite HbA
        | by apply elem_of_nil in Hv];
        rewrite ?ind_ne by lia; lia. }
  assert (get_grad s' (n + 2) = 1) as HC.
  { rewrite Hgrad by lia. rewrite (Zsum_single _ _ (n + 3)%nat); [|done..|].
    - unfold weight. rewrite HbO, HgO, HgC, ind_eq, ind_ne by lia. lia.
    - intros v Hv%Hmem%Hreach Hne. unfold weight.
      repeat (apply elem_of_cons in Hv as [->|Hv]);
        [done | rewrite HbB | rewrite HbC | rewrite HbA
        | by apply elem_of_nil in Hv];
        rewrite ?ind_ne by lia; lia. }
  destruct Hsg as [_ Hsg]. destruct (Hsg n) as (-> & _). split; [done|].
  rewrite <- (Nat.add_0_r n). rewrite Hgrad by lia.
  rewrite (Zsum_two _ _ (n + 1)%nat (n + 2)%nat); [|done..|lia|].
  - unfold weight. rewrite HbB, HbC, HB, HC, HgA, Nat.add_0_r, ind_eq, HdA. lia.
  - intros v Hv%Hmem%Hreach Hne1 Hne2. unfold weight.
    repeat (apply elem_of_cons in Hv as [->|Hv]);
      [rewrite HbO | done | done | rewrite HbA | by apply elem_of_nil in Hv];
      rewrite ?ind_ne by lia; lia.
Qed.

(** ** The local-derivative table *)




Lemma get_grad_add_grad_ne v d s x : x ≠ v → get_grad (add_grad v d s) x = get_grad s x.
Proof.
  intros Hx. unfold get_grad, add_grad, set_grad.
  by rewrite list_lookup_alter_ne.
Qed.

Lemma get_data_add_grad v d s x : get_data (add_grad v d s) x = get_data s x.
Proof. destruct (same_graph_add_grad v d s) as [_ H]. by destruct (H x) as (-> & _). Qed.

Lemma mul_rule_run t out a c :
  get_backward t out = MulRule a c → out ≠ a →
  call_backward out t
  = Ok (tt, add_grad c (get_data t a * get_grad t out)
              (add_grad a (get_data t c * get_grad t out) t)).
Proof.
  intros Hr Hne. unfold call_backward. rewrite Hr.
  cbv [run_rule bind read_grad read_data modify].
  by rewrite get_data_add_grad, get_grad_add_grad_ne.
Qed.

Lemma pow_rule_run t out a k :
  get_backward t out = PowRule a k → 1 <= k →
  call_backward out t
  = Ok (tt, add_grad a ((k * get_data t a ^ (k - 1)) * get_grad t out) t).
Proof.
  intros Hr Hk. unfold call_backward. rewrite Hr.
  cbv [run_rule bind read_grad read_data modify lift py_pow].
  by rewrite decide_True by lia.
Qed.

(** C3. Each primitive's forward value and backward contribution follow the
    local-derivative table.  For [out = a*b] the forward value is the product
    and the closure adds [b.data * out.grad] to [a.grad] and
    [a.data * out.grad] to [b.grad]; for [out = a**k] the forward value is the
    power and the closure adds [k * a.data**(k-1) * out.grad] to [a.grad].
    With leaves [a = 2], [b = -3] and [out = a*b], the backward pass leaves
    [a.grad = -3], [b.grad = 2], [out.grad = 1]; with [a = 2] and
    [out = a**3] it leaves [a.grad = 12]. *)
Theorem local_derivative_table set_rev :
  (∀ s a c, ∃ s',
     __mul__ set_rev a (Node c) s = Ok (length s, s') ∧
     get_data s' (length s) = get_data s a * get_data s c ∧
     get_backward s' (length s) = MulRule a c) ∧
  (∀ t out a c, get_backward t out = MulRule a c → out ≠ a →
     call_backward out t
     = Ok (tt, add_grad c (get_data t a * get_grad t out)
                 (add_grad a (get_data t c * get_grad t out) t))) ∧
  (∀ s a k, 0 <= k → ∃ s',
     __pow__ set_rev a (PyInt k) s = Ok (length s, s') ∧
     get_data s' (length s) = get_data s a ^ k ∧
     get_backward s' (length s) = PowRule a k) ∧
  (∀ t out a k, get_backward t out = PowRule a k → 1 <= k →
     call_backward out t
     = Ok (tt, add_grad a ((k * get_data t a ^ (k - 1)) * get_grad t out) t)) ∧
  (∃ s', product_example set_rev [] = Ok ((0, 1, 2)%nat, s') ∧
     get_data s' 2 = -6 ∧
     get_grad s' 0 = -3 ∧ get_grad s' 1 = 2 ∧ get_grad s' 2 = 1) ∧
  (∃ s', power_example set_rev [] = Ok ((0, 1)%nat, s') ∧
     get_data s' 1 = 8 ∧ get_grad s' 0 = 12).
Proof.
  split_and!.
  - intros s a c. eexists. rewrite mul_run. split; [done|].
    unfold get_data, get_backward. by rewrite lookup_snoc_new.
  - apply mul_rule_run.
  - intros s a k Hk. eexists. rewrite (pow_run _ _ _ k) by done. split; [done|].
    unfold get_data, get_backward. by rewrite lookup_snoc_new.
  - apply pow_rule_run.
  - unfold product_example, bind. rewrite !new_Value_run, mul_run.
    unfold set_of. destruct (set_rev _); vm_compute; eexists; done.
  - unfold power_example, bind.
    rewrite new_Value_run, (pow_run _ _ _ 3) by done.
    vm_compute. eexists; done.
Qed.

Lemma local_derivative_table_witness :
  call_backward 2
    [mkValue 2 0 NoOp [] ""; mkValue (-3) 0 NoOp [] "";
     mkValue (-6) 1 (MulRule 0 1) [0; 1]%nat "*"]
  = Ok (tt, [mkValue 2 (-3) NoOp [] ""; mkValue (-3) 2 NoOp [] "";
             mkValue (-6) 1 (MulRule 0 1) [0; 1]%nat "*"]).
Proof.
  rewrite (proj1 (proj2 (local_derivative_table (λ _, false)))
             [mkValue 2 0 NoOp [] ""; mkValue (-3) 0 NoOp [] "";
              mkValue (-6) 1 (MulRule 0 1) [0; 1]%nat "*"]
             2%nat 0%nat 1%nat eq_refl ltac:(lia)).
  reflexivity.
Defined.

(** C6. ReLU gates the value and the gradient by the sign of its input: for
    a leaf [a = -5] and [out = a.relu()], [out.data = 0] and the backward
    pass leaves [a.grad = 0]; for [a = 5], [out.data = 5] and [a.grad = 1].
    For every integer [x] the value is [0] below zero and [x] otherwise, and
    the gradient is [1] exactly for [x > 0]. *)
Theorem relu_gating set_rev :
  (∃ s', relu_example set_rev (-5) [] = Ok ((0, 1)%nat, s') ∧
     get_data s' 1 = 0 ∧ get_grad s' 0 = 0) ∧
  (∃ s', relu_example set_rev 5 [] = Ok ((0, 1)%nat, s') ∧
     get_data s' 1 = 5 ∧ get_grad s' 0 = 1) ∧
  (∀ x, ∃ s', relu_example set_rev x [] = Ok ((0, 1)%nat, s') ∧
     get_data s' 1 = (if decide (x < 0) then 0 else x) ∧
     get_grad s' 0 = (if decide (0 < x) then 1 else 0) ∧
     get_grad s' 1 = 1).
Proof.
  assert (∀ x, ∃ s', relu_example set_rev x [] = Ok ((0, 1)%nat, s') ∧
     get_data s' 1 = (if decide (x < 0) then 0 else x) ∧
     get_grad s' 0 = (if decide (0 < x) then 1 else 0) ∧
     get_grad s' 1 = 1) as Hgen.
  { intros x. unfold relu_example, bind. rewrite new_Value_run, relu_run.
    simpl length. simpl app. change (get_data [_] 0) with x.
    rewrite backward_unfold.
    change (topo_of _ 1) with [0; 1]%nat.
    eexists. split; [reflexivity|].
    cbv [get_data get_grad add_grad set_grad lookup list_lookup alter list_alter
         with_grad data grad _backward _prev _op bool_mul].
    split_and!; [done| |done].
    repeat case_decide; case_bool_decide; lia. }
  split_and!; [| |done].
  - destruct (Hgen (-5)) as (s' & ? & ? & ? & ?). by exists s'.
  - destruct (Hgen 5) as (s' & ? & ? & ? & ?). by exists s'.
Qed.

(** C2. On an acyclic graph, the traversal of the backward pass terminates
    and its list [topo] holds every object reachable from the root exactly
    once, and nothing else; every operand stands before the object that
    consumes it. *)
Theorem topological_completeness s root :
  acyclic s → closed s → (root < length s)%nat →
  (∃ st, build_topo (S (length s)) s root (∅, []) = Some st ∧
         topo_of s root = st.2) ∧
  (∀ v, reachable s root v →
        ∃ i, topo_of s root !! i = Some v ∧
             ∀ j, topo_of s root !! j = Some v → j = i) ∧
  (∀ v, v ∈ topo_of s root → reachable s root v) ∧
  (∀ v c, v ∈ topo_of s root → edge s v c → before (topo_of s root) c v).
Proof.
  intros Hac Hcl Hroot.
  destruct (topo_of_spec s Hac Hcl root Hroot)
    as (V & T' & Hrun & HT & Hnd & Hmem & Hbef).
  split_and!.
  - eexists. split; [exact Hrun|]. by rewrite HT.
  - intros v [i Hi]%Hmem%list_elem_of_lookup. exists i. split; [done|].
    intros j Hj. by eapply NoDup_lookup.
  - intros v Hv. by apply Hmem.
  - done.
Qed.


Lemma diamond_arena_ordered : ordered diamond_arena.
Proof. unfold ordered. simpl. repeat constructor; simpl; lia. Qed.

Lemma topological_completeness_witness :
  topo_of diamond_arena 3 = [0; 1; 2; 3]%nat ∧
  (∀ v c, v ∈ topo_of diamond_arena 3 → edge diamond_arena v c →
          before (topo_of diamond_arena 3) c v).
Proof.
  split; [vm_compute; reflexivity|].
  apply (topological_completeness diamond_arena 3).
  - apply ordered_acyclic, diamond_arena_ordered.
  - apply ordered_closed, diamond_arena_ordered.
  - simpl. lia.
Defined.

Lemma diamond_gradient_witness :
  ∃ s', diamond (λ _, false) 3 [] = Ok (0%nat, s') ∧
        get_data s' 0 = 3 ∧ get_grad s' 0 = 4 * 3.
Proof. apply (diamond_gradient (λ _, false) [] 3 well_formed_nil). Defined.

(** ** The operators as one family *)





Section Frame.

Variable set_rev : list id → bool.

Lemma appends_extends m : appends m → extends m.
Proof. intros Hm s r s' Hrun. destruct (Hm s r s' Hrun) as (new & ? & ? & _). eauto. Qed.

Lemma extends_appends {A} (m : M A) (k : A → M id) :
  extends m → (∀ a, appends (k a)) → appends (bind m k).
Proof.
  intros Hm Hk s r s' Hrun. unfold bind in Hrun.
  destruct (m s) as [[a s1]| |] eqn:Hs1; try done.
  destruct (Hm s a s1 Hs1) as (new1 & -> & Hg1).
  destruct (Hk a _ r s' Hrun) as (new2 & -> & Hg2 & Hlen).
  exists (new1 ++ new2). rewrite app_assoc. split_and!; [done| |done].
  by apply Forall_app.
Qed.

Lemma appends_run (m : M id) (node : store → Value) :
  (∀ s, m s = Ok (length s, s ++ [node s])) → (∀ s, grad (node s) = 0) →
  appends m.
Proof.
  intros Hm Hg s r s' Hrun. rewrite Hm in Hrun. injection Hrun as <- <-.
  exists [node s]. split_and!; [done | by repeat constructor |].
  rewrite length_app. simpl. lia.
Qed.

Lemma extends_wrap other : extends (wrap set_rev other).
Proof.
  intros s r s' Hrun. destruct other as [v|z]; simpl in Hrun.
  - injection Hrun as <- <-. exists []. by rewrite app_nil_r.
  - rewrite new_Value_run in Hrun. injection Hrun as <- <-.
    eexists. split; [done|]. by repeat constructor.
Qed.

Lemma extends_lift {A} (r : result A) : extends (lift r).
Proof.
  intros s a s' Hrun. destruct r; try done. injection Hrun as <- <-.
  exists []. by rewrite app_nil_r.
Qed.

Lemma appends_add self other : appends (__add__ set_rev self other).
Proof.
  apply (extends_appends (wrap set_rev other)); [apply extends_wrap|].
  intros o. eapply appends_run; [apply add_run | done].
Qed.

Lemma appends_mul self other : appends (__mul__ set_rev self other).
Proof.
  apply (extends_appends (wrap set_rev other)); [apply extends_wrap|].
  intros o. eapply appends_run; [apply mul_run | done].
Qed.

Lemma appends_relu self : appends (relu set_rev self).
Proof. eapply appends_run; [apply relu_run | done]. Qed.

Lemma pow_Ok_inv self other s r s' :
  __pow__ set_rev self other s = Ok (r, s') →
  ∃ k, as_int other = Some k ∧ 0 <= k ∧ r = length s ∧
       s' = s ++ [mkValue (get_data s self ^ k) 0 (PowRule self k) [self]
                    (pow_op other)].
Proof.
  intros Hrun. pose proof Hrun as Hrun'. unfold __pow__ in Hrun.
  destruct (isinstance_int_float other); [|done].
  destruct (as_int other) as [k|] eqn:Hk; [|done].
  destruct (decide (0 <= k)) as [Hpos|Hneg].
  - rewrite (pow_run _ _ _ k) in Hrun' by done.
    injection Hrun' as <- <-. by exists k.
  - cbv [bind read_data lift py_pow] in Hrun.
    rewrite decide_False in Hrun by done. by case_decide.
Qed.

Lemma appends_pow self other : appends (__pow__ set_rev self other).
Proof.
  intros s r s' (k & _ & _ & -> & ->)%pow_Ok_inv.
  eexists. split_and!; [done | by repeat constructor |].
  rewrite length_app. simpl. lia.
Qed.

Lemma appends_op c : appends (run_op set_rev c).
Proof.
  destruct c as [self other|self other|self other|self|self|self z
                |self other|self z|self z|self other|self z]; simpl.
  - apply appends_add.
  - apply appends_mul.
  - apply appends_pow.
  - apply appends_relu.
  - apply appends_mul.
  - apply appends_add.
  - destruct other as [o|z]; [|apply appends_add].
    apply extends_appends; [apply appends_extends, appends_mul|].
    intros n. apply appends_add.
  - apply extends_appends; [apply appends_extends, appends_mul|].
    intros n. apply appends_add.
  - apply appends_mul.
  - destruct other as [o|z].
    + apply extends_appends; [apply appends_extends, appends_pow|].
      intros n. apply appends_mul.
    + apply extends_appends; [apply extends_lift|].
      intros n. apply appends_mul.
  - apply extends_appends; [apply appends_extends, appends_pow|].
    intros n. apply appends_mul.
Qed.

End Frame.

(** C9. Building an operation node never changes an object that exists: after
    any operator call the arena is the old arena followed by new objects, so
    every old object keeps all its fields, [data] and [grad] included; each
    new object has [grad = 0], and the result is the last of them.  A
    primitive called on [Value] operands creates one object; a raw integer
    operand is first wrapped in a new leaf with that value and no operands. *)
Theorem builders_frame set_rev :
  (∀ c s r s', run_op set_rev c s = Ok (r, s') →
     ∃ new, s' = s ++ new ∧ Forall (λ n, grad n = 0) new ∧ length s' = S r ∧
       (∀ v n, s !! v = Some n → s' !! v = Some n) ∧
       (∀ v, (v < length s)%nat →
             get_data s' v = get_data s v ∧ get_grad s' v = get_grad s v)) ∧
  (∀ s self other,
     (∃ n, __add__ set_rev self (Node other) s = Ok (length s, s ++ [n])) ∧
     (∃ n, __mul__ set_rev self (Node other) s = Ok (length s, s ++ [n])) ∧
     (∃ n, relu set_rev self s = Ok (length s, s ++ [n]))) ∧
  (∀ s self other r s', __pow__ set_rev self other s = Ok (r, s') →
     ∃ n, r = length s ∧ s' = s ++ [n]) ∧
  (∀ s self z, (self < length s)%nat →
     (∃ n, __add__ set_rev self (Num z) s
           = Ok (S (length s), s ++ [mkValue z 0 NoOp [] ""; n])) ∧
     (∃ n, __mul__ set_rev self (Num z) s
           = Ok (S (length s), s ++ [mkValue z 0 NoOp [] ""; n]))).
Proof.
  split_and!.
  - intros c s r s' Hrun.
    destruct (appends_op set_rev c s r s' Hrun) as (new & -> & Hg & Hlen).
    exists new. split_and!; try done.
    + intros v n Hv. by apply lookup_app_l_Some.
    + intros v Hv. by rewrite get_data_app_l, get_grad_app_l.
  - intros s self other. rewrite add_run, mul_run, relu_run.
    split_and!; by eexists.
  - intros s self other r s' (k & _ & _ & -> & ->)%pow_Ok_inv. by eexists.
  - intros s self z Hself. rewrite add_Num_run, mul_Num_run by done.
    split; by eexists.
Qed.

Lemma builders_frame_witness :
  ∃ new, [mkValue 2 7 NoOp [] ""; mkValue 1 0 NoOp [] "";
          mkValue 3 0 (AddRule 0 1) [0; 1]%nat "+"]
         = [mkValue 2 7 NoOp [] ""] ++ new ∧
         Forall (λ n, grad n = 0) new.
Proof.
  destruct (proj1 (builders_frame (λ _, false)) (CAdd 0 (Num 1))
              [mkValue 2 7 NoOp [] ""] 2%nat
              [mkValue 2 7 NoOp [] ""; mkValue 1 0 NoOp [] "";
               mkValue 3 0 (AddRule 0 1) [0; 1]%nat "+"] eq_refl)
    as (new & Hnew & Hg & _).
  by exists new.
Defined.

(** ** Failures *)



Lemma for_each_backward_raise L : ∀ s e,
  for_each call_backward L s = Raise e → e = ZeroDivisionError.
Proof.
  induction L as [|v Q IH]; intros s e Hrun; simpl in Hrun; [done|].
  unfold bind in Hrun. destruct (rule_ok_dec s v) as [Hok|Hok].
  - destruct (call_backward_ok s v Hok) as (s1 & Hs1 & _).
    rewrite Hs1 in Hrun. by eapply IH.
  - destruct (call_backward_not_ok s v Hok) as [Hs1|Hs1];
      rewrite Hs1 in Hrun; congruence.
Qed.

Section Failures.

Variable set_rev : list id → bool.

Lemma pow_assertion self other s :
  __pow__ set_rev self other s = Raise AssertionError
  ↔ isinstance_int_float other = false.
Proof.
  unfold __pow__. destruct (isinstance_int_float other); [|done].
  split; [|done]. destruct (as_int other) as [k|]; [|done].
  cbv [bind read_data lift py_pow Value_init modify ret].
  repeat case_decide; done.
Qed.

Lemma pow_int_outcome self k s :
  (0 <= k → ∃ s', __pow__ set_rev self (PyInt k) s = Ok (length s, s')) ∧
  (k < 0 → get_data s self = 0 →
     __pow__ set_rev self (PyInt k) s = Raise ZeroDivisionError) ∧
  (k < 0 → get_data s self ≠ 0 →
     __pow__ set_rev self (PyInt k) s = Floating).
Proof.
  split_and!.
  - intros Hk. eexists. by apply pow_run.
  - intros Hk Hd. cbv [__pow__ isinstance_int_float as_int bind read_data lift py_pow].
    by rewrite decide_False, decide_True by lia.
  - intros Hk Hd. cbv [__pow__ isinstance_int_float as_int bind read_data lift py_pow].
    by rewrite !decide_False by lia.
Qed.

Lemma total_op c s :
  uses_pow c = false → ∃ r s', run_op set_rev c s = Ok (r, s').
Proof.
  assert (∀ self other t, ∃ r t', __add__ set_rev self other t = Ok (r, t')) as Hadd.
  { intros self [o|z] t; rewrite add_wrap; unfold bind, wrap.
    - unfold ret. rewrite add_run. eauto.
    - rewrite new_Value_run, add_run. eauto. }
  assert (∀ self other t, ∃ r t', __mul__ set_rev self other t = Ok (r, t')) as Hmul.
  { intros self [o|z] t; rewrite mul_wrap; unfold bind, wrap.
    - unfold ret. rewrite mul_run. eauto.
    - rewrite new_Value_run, mul_run. eauto. }
  destruct c as [self other|self other|self other|self|self|self z
                |self other|self z|self z|self other|self z]; try done;
    intros _; simpl.
  - apply Hadd.
  - apply Hmul.
  - rewrite relu_run. eauto.
  - apply Hmul.
  - apply Hadd.
  - destruct other as [o|z]; [|apply Hadd].
    destruct (Hmul o (Num (-1)) s) as (n & s1 & Hn).
    unfold __sub__, __neg__, bind. rewrite Hn. apply Hadd.
  - destruct (Hmul self (Num (-1)) s) as (n & s1 & Hn).
    unfold __rsub__, __neg__, bind. rewrite Hn. apply Hadd.
  - apply Hmul.
Qed.

Lemma op_assertion c s :
  run_op set_rev c s = Raise AssertionError →
  ∃ self other, c = CPow self other ∧ isinstance_int_float other = false.
Proof.
  intros Hrun.
  destruct (uses_pow c) eqn:Hc.
  - destruct c as [| |self other| | | | | | |self other|self z]; try done;
      simpl in Hrun.
    + exists self, other. split; [done|]. by eapply pow_assertion.
    + exfalso. destruct other as [o|z]; unfold __truediv__, bind in Hrun.
      * destruct (__pow__ set_rev o (PyInt (-1)) s) as [[p s1]|e|] eqn:Hp;
          [|injection Hrun as ->; by apply pow_assertion in Hp|done].
        destruct (total_op (CMul self (Node p)) s1 eq_refl) as (r & s2 & Hr).
        simpl in Hr. congruence.
      * unfold lift, py_pow in Hrun. rewrite decide_False in Hrun by lia.
        by case_decide.
    + exfalso. unfold __rtruediv__, bind in Hrun.
      destruct (__pow__ set_rev self (PyInt (-1)) s) as [[p s1]|e|] eqn:Hp;
        [|injection Hrun as ->; by apply pow_assertion in Hp|done].
      destruct (total_op (CRmul p z) s1 eq_refl) as (r & s2 & Hr).
      simpl in Hr. congruence.
  - destruct (total_op c s Hc) as (r & s' & Hr). congruence.
Qed.

Lemma truediv_outcome self other s :
  __truediv__ set_rev self other s
  = if decide (match other with Node o => get_data s o | Num z => z end = 0)
    then Raise ZeroDivisionError else Floating.
Proof.
  destruct other as [o|z]; unfold __truediv__, bind.
  - case_decide as Hd.
    + by rewrite (proj1 (proj2 (pow_int_outcome o (-1) s))).
    + by rewrite (proj2 (proj2 (pow_int_outcome o (-1) s))).
  - unfold lift, py_pow. rewrite decide_False by lia. by case_decide.
Qed.

End Failures.

Lemma backward_ok_iff root s :
  well_formed s → (root < length s)%nat →
  (∃ s', backward root s = Ok (tt, s')) ↔ Forall (rule_ok s) (topo_of s root).
Proof.
  intros Hwf Hroot. split.
  - intros [s' Hs']. by apply backward_inv in Hs' as [? _].
  - intros Hok. destruct (backward_spec root s Hwf Hroot Hok) as (s' & ? & _).
    by exists s'.
Qed.

Lemma backward_raise root s e : backward root s = Raise e → e = ZeroDivisionError.
Proof. rewrite backward_unfold. apply for_each_backward_raise. Qed.

(** C7, as the code has it.  [__pow__] fails its assertion exactly when the
    exponent is not an [int] or a [float] ([bool] counts as [int]), and no
    other operator ever fails an assertion.  On integers, add, multiply,
    relu, negate, subtract and the reflected add, subtract and multiply
    always return, and the backward pass returns exactly when every power
    node it reaches has an exponent of at least 1.  The other failure is
    Python's own [ZeroDivisionError]: a zero base with a negative exponent
    in [__pow__], hence a zero divisor in [/], and a power node with base 0
    and exponent at most 0 in the backward pass. *)
Theorem failure_modes set_rev :
  (∀ s self other,
     __pow__ set_rev self other s = Raise AssertionError
     ↔ isinstance_int_float other = false) ∧
  (∀ c s, run_op set_rev c s = Raise AssertionError →
     ∃ self other, c = CPow self other ∧ isinstance_int_float other = false) ∧
  (∀ c s, uses_pow c = false → ∃ r s', run_op set_rev c s = Ok (r, s')) ∧
  (∀ s self k, 0 <= k →
     ∃ s', __pow__ set_rev self (PyInt k) s = Ok (length s, s')) ∧
  (∀ s self k, k < 0 → get_data s self = 0 →
     __pow__ set_rev self (PyInt k) s = Raise ZeroDivisionError) ∧
  (∀ s self other,
     __truediv__ set_rev self other s
     = if decide (match other with Node o => get_data s o | Num z => z end = 0)
       then Raise ZeroDivisionError else Floating) ∧
  (∀ s root, well_formed s → (root < length s)%nat →
     (∃ s', backward root s = Ok (tt, s'))
     ↔ Forall (rule_ok s) (topo_of s root)) ∧
  (∀ s root e, backward root s = Raise e → e = ZeroDivisionError).
Proof.
  split_and!.
  - intros s self other. apply pow_assertion.
  - intros c s. apply op_assertion.
  - intros c s. apply total_op.
  - intros s self k. apply pow_int_outcome.
  - intros s self k. apply pow_int_outcome.
  - intros s self other. apply truediv_outcome.
  - intros s root. apply backward_ok_iff.
  - intros s root e. apply backward_raise.
Qed.

Lemma failure_modes_witness :
  ∃ r s', run_op (λ _, false) (CSub 0 (Num 4)) [mkValue 1 0 NoOp [] ""]
          = Ok (r, s').
Proof.
  apply (proj1 (proj2 (proj2 (failure_modes (λ _, false))))).
  reflexivity.
Defined.

(** Division by zero and the backward pass through [0 ** 0] raise. *)
Lemma division_by_zero_raises :
  __truediv__ (λ _, false) 0 (Num 0) [mkValue 1 0 NoOp [] ""]
  = Raise ZeroDivisionError ∧
  __truediv__ (λ _, false) 0 (Node 1)
    [mkValue 1 0 NoOp [] ""; mkValue 0 0 NoOp [] ""]
  = Raise ZeroDivisionError ∧
  zero_power_example (λ _, false) [] = Raise ZeroDivisionError.
Proof. split_and!; vm_compute; reflexivity. Qed.

(** ** Repeated passes *)

(** The sum of the contributions to [x] when the root is its only consumer. *)
Lemma Zsum_root_only s root x (g : id → Z) :
  well_formed s → (root < length s)%nat →
  (∀ v, v ∈ topo_of s root → edge s v x → v = root) →
  Zsum (λ v, weight s v x * g v) (topo_of s root) = weight s root x * g root.
Proof.
  intros Hwf Hroot Honly. pose proof Hwf as (Hcl & Hac & _).
  destruct (topo_of_spec s Hac Hcl root Hroot) as (_ & _ & _ & _ & Hnd & Hmem & _).
  rewrite (Zsum_single _ _ root); [done | done | |].
  - apply Hmem, rtc_refl.
  - intros v Hv Hne. rewrite weight_no_edge; [lia | done |].
    intros Hvx. by apply Hne, Honly.
Qed.

Lemma relu_arena_well_formed : well_formed relu_arena.
Proof.
  change relu_arena with ([] ++ [mkValue 5 0 NoOp [] ""]
                             ++ [mkValue 5 0 (ReluRule 0) [0%nat] "ReLU"]).
  rewrite app_assoc.
  apply well_formed_snoc; [apply well_formed_app_leaf, well_formed_nil|..];
    simpl; [intros c ->%list_elem_of_singleton; lia | done].
Qed.

(** C4, as the code has it.  A second backward pass on the unchanged graph
    returns as the first did and accumulates on top of what the first left:
    the root is reseeded to 1, and every other object ends at its gradient
    after the first pass plus the contributions of its consumers, taken at
    their new gradients.  An object whose only consumer is the root receives
    in the second pass exactly what it received in the first, so its
    gradient doubles when it started at 0. *)
Theorem second_pass_accumulates s root s1 :
  well_formed s → (root < length s)%nat →
  backward root s = Ok (tt, s1) →
  ∃ s2, backward root s1 = Ok (tt, s2) ∧
    get_grad s1 root = 1 ∧ get_grad s2 root = 1 ∧
    (∀ x, x ≠ root →
       get_grad s2 x
       = get_grad s1 x
         + Zsum (λ v, weight s v x * get_grad s2 v) (topo_of s root)) ∧
    (∀ x, x ≠ root →
       (∀ v, v ∈ topo_of s root → edge s v x → v = root) →
       get_grad s1 x = get_grad s x + weight s root x ∧
       get_grad s2 x = get_grad s1 x + weight s root x ∧
       (get_grad s x = 0 → get_grad s2 x = 2 * get_grad s1 x)).
Proof.
  intros Hwf Hroot Hrun1.
  pose proof (backward_inv _ _ _ _ Hrun1) as [Hok Hsg].
  destruct (backward_spec root s Hwf Hroot Hok) as (s1' & Hrun1' & _ & Hr1 & Hg1).
  assert (s1' = s1) as -> by congruence.
  pose proof (same_graph_well_formed _ _ Hsg Hwf) as Hwf1.
  assert (root < length s1)%nat as Hroot1 by (by destruct Hsg as [-> _]).
  destruct (backward_spec root s1 Hwf1 Hroot1) as (s2 & Hrun2 & _ & Hr2 & Hg2).
  { rewrite (topo_of_same_graph s s1) by done.
    eapply Forall_impl; [exact Hok|]. intros v Hv.
    by apply (same_graph_rule_ok s s1). }
  rewrite (topo_of_same_graph s s1) in Hg2 by done.
  assert (∀ x, x ≠ root →
       get_grad s2 x
       = get_grad s1 x
         + Zsum (λ v, weight s v x * get_grad s2 v) (topo_of s root)) as Hg2'.
  { intros x Hx. rewrite (Hg2 x Hx). f_equal. apply Zsum_ext.
    intros v _. by rewrite (same_graph_weight s s1). }
  exists s2. split_and!; try done.
  intros x Hx Honly.
  pose proof (Hg1 x Hx) as H1. pose proof (Hg2' x Hx) as H2.
  rewrite (Zsum_root_only s root x) in H1, H2 by done.
  rewrite Hr1 in H1. rewrite Hr2 in H2. lia.
Qed.

Lemma second_pass_accumulates_witness :
  ∃ s2, backward 1 [mkValue 5 1 NoOp [] ""; mkValue 5 1 (ReluRule 0) [0%nat] "ReLU"]
        = Ok (tt, s2) ∧ get_grad s2 1 = 1 ∧ get_grad s2 0 = 2 * 1.
Proof.
  destruct (second_pass_accumulates relu_arena 1%nat
              [mkValue 5 1 NoOp [] ""; mkValue 5 1 (ReluRule 0) [0%nat] "ReLU"]
              relu_arena_well_formed ltac:(simpl; lia)
              ltac:(vm_compute; reflexivity))
    as (s2 & Hrun & _ & Hroot & _ & Honly).
  exists s2. split_and!; [done | done |].
  apply (Honly 0%nat); [lia | | vm_run].
  intros v _ Hv. unfold edge in Hv.
  destruct v as [|[|v]]; [by apply elem_of_nil in Hv | done |
                          by apply elem_of_nil in Hv].
Defined.

(** In the diamond over the leaf 3, the second pass takes [a.grad] from 12
    to 36, not to 24. *)
Lemma second_pass_triples :
  diamond_graph (λ _, false) 3 [] = Ok ((0, 3)%nat, diamond_arena) ∧
  ∃ s1 s2, backward 3 diamond_arena = Ok (tt, s1) ∧
           backward 3 s1 = Ok (tt, s2) ∧
           get_grad s1 0 = 12 ∧ get_grad s2 0 = 36 ∧
           get_grad s2 0 ≠ 2 * get_grad s1 0.
Proof. split; [vm_run|]. do 2 eexists. split_and!; [vm_run..|by vm_compute]. Qed.

(** C5, as the code has it.  The backward pass changes [grad] fields only.
    It overwrites the root's gradient with 1; every other object keeps its
    previous gradient and has the contributions of its consumers added to
    it.  Every object reachable from the root, the root apart, is updated by
    the closure of an object that the pass reaches; an object that is not
    reachable keeps its gradient. *)
Theorem backward_accumulates s root s' :
  well_formed s → (root < length s)%nat →
  backward root s = Ok (tt, s') →
  same_graph s s' ∧
  get_grad s' root = 1 ∧
  (∀ x, x ≠ root →
     get_grad s' x
     = get_grad s x + Zsum (λ v, weight s v x * get_grad s' v) (topo_of s root)) ∧
  (∀ x, reachable s root x → x ≠ root →
     ∃ v, reachable s root v ∧ x ∈ rule_targets (get_backward s v)) ∧
  (∀ x, ¬ reachable s root x → get_grad s' x = get_grad s x).
Proof.
  intros Hwf Hroot Hrun.
  pose proof (backward_inv _ _ _ _ Hrun) as [Hok Hsg].
  destruct (backward_spec root s Hwf Hroot Hok) as (s1 & Hrun1 & _ & Hr & Hg).
  assert (s1 = s') as -> by congruence.
  pose proof Hwf as (Hcl & Hac & Htg).
  destruct (topo_of_spec s Hac Hcl root Hroot) as (_ & _ & _ & _ & _ & Hmem & _).
  split_and!; try done.
  - intros x Hx Hne. apply rtc_inv_r in Hx as [->|(v & Hv & Hvx)]; [done|].
    exists v. split; [done|]. by apply Htg.
  - intros x Hx. rewrite Hg.
    + rewrite Zsum_zero; [lia|]. intros v Hv.
      rewrite weight_no_edge; [lia | done |]. intros Hvx. apply Hx.
      eapply rtc_r; [by apply Hmem | done].
    + intros ->. apply Hx, rtc_refl.
Qed.


Lemma backward_accumulates_witness :
  ∃ s', backward 1 relu_arena = Ok (tt, s') ∧ get_grad s' 1 = 1 ∧ get_grad s' 0 = 1.
Proof.
  eexists. split; [vm_run|].
  split; [|vm_run].
  eapply (backward_accumulates relu_arena 1%nat).
  - apply relu_arena_well_formed.
  - simpl. lia.
  - vm_run.
Defined.

(** The gradient that the first pass left on the leaf is still counted after
    the second: the second pass leaves 2 where the first left 1. *)
Lemma previous_gradient_kept :
  relu_example (λ _, false) 5 [] = (backward 1 ;;; ret (0, 1)%nat) relu_arena ∧
  ∃ s1 s2, backward 1 relu_arena = Ok (tt, s1) ∧ backward 1 s1 = Ok (tt, s2) ∧
           get_grad s1 0 = 1 ∧ get_grad s2 0 = 2 ∧
           get_grad s2 0 ≠ get_grad s1 0.
Proof. split; [vm_run|]. do 2 eexists. split_and!; [vm_run..|by vm_compute]. Qed.

(** ** Layers *)

Section NetworkFacts.

Variable set_rev : list id → bool.

Lemma comprehension_total {A B} (f : A → M B) l :
  (∀ a s, ∃ r s', f a s = Ok (r, s')) →
  ∀ s, ∃ outs s', comprehension f l s = Ok (outs, s') ∧ length outs = length l.
Proof.
  intros Hf. induction l as [|a l IH]; intros s; simpl.
  - by exists [], s.
  - destruct (Hf a s) as (r & s1 & Hr). destruct (IH s1) as (outs & s' & Hs' & Hlen).
    exists (r :: outs), s'. unfold bind. rewrite Hr, Hs'. simpl. by rewrite Hlen.
Qed.

Lemma Neuron_call_total n x s : ∃ r s', Neuron_call set_rev n x s = Ok (r, s').
Proof.
  unfold Neuron_call.
  assert (∀ l acc t, ∃ r t',
    fold_loop (λ acc wx, p <- __mul__ set_rev wx.1 wx.2 ;;
                         __add__ set_rev acc (Node p)) l acc t = Ok (r, t'))
    as Hloop.
  { induction l as [|[wi xi] l IH]; intros acc t; simpl; [by eexists _, _|].
    unfold bind at 1 2.
    destruct (total_op set_rev (CMul wi xi) t eq_refl) as (p & t1 & Hp).
    simpl in Hp. rewrite Hp.
    destruct (total_op set_rev (CAdd acc (Node p)) t1 eq_refl) as (r & t2 & Hr).
    simpl in Hr. rewrite Hr. apply IH. }
  destruct (Hloop (zip (w n) x) (b n) s) as (act & s1 & Hact).
  unfold bind at 1. rewrite Hact. destruct (nonlin n).
  - rewrite relu_run. by eexists _, _.
  - by eexists _, _.
Qed.

End NetworkFacts.

(** C10. A layer applied to an input vector returns: every neuron is applied
    to the input in order, each in the arena its predecessors left.  With
    exactly one neuron the layer returns that neuron's output itself; with
    any other number of neurons, none included, it returns the list of the
    outputs, one per neuron. *)
Theorem layer_output_shape set_rev l x s :
  ∃ outs s',
    comprehension (λ n, Neuron_call set_rev n x) (neurons l) s = Ok (outs, s') ∧
    length outs = length (neurons l) ∧
    (∀ n, neurons l = [n] →
       ∃ o, Neuron_call set_rev n x s = Ok (o, s') ∧ outs = [o] ∧
            Layer_call set_rev l x s = Ok (One o, s')) ∧
    (length (neurons l) ≠ 1%nat →
       Layer_call set_rev l x s = Ok (Many outs, s')).
Proof.
  destruct (comprehension_total (λ n, Neuron_call set_rev n x) (neurons l)
              (λ n t, Neuron_call_total set_rev n x t) s)
    as (outs & s' & Hrun & Hlen).
  exists outs, s'. split_and!; try done.
  - intros n Hn. unfold Layer_call, bind. rewrite Hrun.
    rewrite Hn in Hrun, Hlen. simpl in Hrun. unfold bind in Hrun.
    destruct (Neuron_call set_rev n x s) as [[o s1]| |]; try done.
    injection Hrun as <- <-. by exists o.
  - intros Hne. unfold Layer_call, bind. rewrite Hrun. unfold ret.
    rewrite Hlen. by rewrite decide_False.
Qed.

Lemma layer_output_shape_witness :
  ∃ o s', Layer_call (λ _, false) (mkLayer [mkNeuron [0%nat] 1%nat true]) [Num 3]
            [mkValue 2 0 NoOp [] ""; mkValue 0 0 NoOp [] ""]
          = Ok (One o, s').
Proof.
  destruct (layer_output_shape (λ _, false)
              (mkLayer [mkNeuron [0%nat] 1%nat true]) [Num 3]
              [mkValue 2 0 NoOp [] ""; mkValue 0 0 NoOp [] ""])
    as (outs & s' & _ & _ & Hone & _).
  destruct (Hone (mkNeuron [0%nat] 1%nat true) eq_refl) as (o & _ & _ & Ho).
  by exists o, s'.
Defined.

Lemma get_data_last s n : get_data (s ++ [n]) (length s) = data n.
Proof. apply get_data_here. Qed.

(** ** Further properties: the arena invariant *)

Section Invariant.

Variable set_rev : list id → bool.

Lemma add_keeps_wf self other s r s' :
  well_formed s → (self < length s)%nat → operand_ok s other →
  __add__ set_rev self other s = Ok (r, s') →
  well_formed s' ∧ (length s ≤ r < length s')%nat.
Proof.
  intros Hwf Hself Hother Hrun. destruct other as [o|z]; simpl in Hother.
  - rewrite add_run in Hrun. injection Hrun as <- <-. split.
    + apply well_formed_snoc; [done|..]; simpl; intros c;
        rewrite ?elem_of_set_of; set_solver by lia.
    + rewrite length_app. simpl. lia.
  - rewrite add_Num_run in Hrun by done. injection Hrun as <- <-. split.
    + change (s ++ [?l; ?n]) with (s ++ [l] ++ [n]). rewrite app_assoc.
      apply well_formed_snoc; [by apply well_formed_app_leaf|..]; simpl;
        intros c; rewrite ?elem_of_set_of, ?length_app; simpl;
        set_solver by lia.
    + rewrite length_app. simpl. lia.
Qed.

Lemma mul_keeps_wf self other s r s' :
  well_formed s → (self < length s)%nat → operand_ok s other →
  __mul__ set_rev self other s = Ok (r, s') →
  well_formed s' ∧ (length s ≤ r < length s')%nat.
Proof.
  intros Hwf Hself Hother Hrun. destruct other as [o|z]; simpl in Hother.
  - rewrite mul_run in Hrun. injection Hrun as <- <-. split.
    + apply well_formed_snoc; [done|..]; simpl; intros c;
        rewrite ?elem_of_set_of; set_solver by lia.
    + rewrite length_app. simpl. lia.
  - rewrite mul_Num_run in Hrun by done. injection Hrun as <- <-. split.
    + change (s ++ [?l; ?n]) with (s ++ [l] ++ [n]). rewrite app_assoc.
      apply well_formed_snoc; [by apply well_formed_app_leaf|..]; simpl;
        intros c; rewrite ?elem_of_set_of, ?length_app; simpl;
        set_solver by lia.
    + rewrite length_app. simpl. lia.
Qed.

Lemma relu_keeps_wf self s r s' :
  well_formed s → (self < length s)%nat →
  relu set_rev self s = Ok (r, s') →
  well_formed s' ∧ (length s ≤ r < length s')%nat.
Proof.
  intros Hwf Hself Hrun. rewrite relu_run in Hrun. injection Hrun as <- <-.
  split.
  - apply well_formed_snoc; [done|..]; simpl; intros c; set_solver by lia.
  - rewrite length_app. simpl. lia.
Qed.

Lemma pow_keeps_wf self other s r s' :
  well_formed s → (self < length s)%nat →
  __pow__ set_rev self other s = Ok (r, s') →
  well_formed s' ∧ (length s ≤ r < length s')%nat.
Proof.
  intros Hwf Hself (k & _ & _ & -> & ->)%pow_Ok_inv. split.
  - apply well_formed_snoc; [done|..]; simpl; intros c; set_solver by lia.
  - rewrite length_app. simpl. lia.
Qed.

End Invariant.

Lemma run_op_keeps_wf set_rev c s r s' :
  well_formed s → call_ok s c →
  run_op set_rev c s = Ok (r, s') →
  well_formed s' ∧ (length s ≤ r < length s')%nat.
Proof.
  intros Hwf Hok Hrun.
  destruct c as [self other|self other|self other|self|self|self z
                |self other|self z|self z|self other|self z];
    simpl in Hok, Hrun.
  - destruct Hok. by eapply add_keeps_wf.
  - destruct Hok. by eapply mul_keeps_wf.
  - by eapply pow_keeps_wf.
  - by eapply relu_keeps_wf.
  - by eapply (mul_keeps_wf set_rev self (Num (-1))).
  - by eapply (add_keeps_wf set_rev self (Num z)).
  - destruct Hok as [Hself Hother]. destruct other as [o|z]; simpl in Hother.
    + unfold __sub__, __neg__, bind in Hrun.
      destruct (__mul__ set_rev o (Num (-1)) s) as [[n s1]| |] eqn:Hn; try done.
      destruct (mul_keeps_wf set_rev o (Num (-1)) _ _ _ Hwf Hother I Hn)
        as [Hwf1 Hn1].
      destruct (add_keeps_wf set_rev self (Node n) s1 r s' Hwf1) as [? ?];
        [lia | simpl; lia | done |]. split; [done | lia].
    + by eapply (add_keeps_wf set_rev self (Num (- z))).
  - unfold __rsub__, __radd__, __neg__, bind in Hrun.
    destruct (__mul__ set_rev self (Num (-1)) s) as [[n s1]| |] eqn:Hn; try done.
    destruct (mul_keeps_wf set_rev self (Num (-1)) _ _ _ Hwf Hok I Hn)
      as [Hwf1 Hn1].
    destruct (add_keeps_wf set_rev n (Num z) s1 r s' Hwf1) as [? ?];
      [lia | done | done |]. split; [done | lia].
  - by eapply (mul_keeps_wf set_rev self (Num z)).
  - rewrite truediv_outcome in Hrun. by case_decide.
  - unfold __rtruediv__, bind in Hrun.
    destruct (__pow__ set_rev self (PyInt (-1)) s) as [[p s1]| |] eqn:Hp;
      try done.
    apply pow_Ok_inv in Hp as (k & Hk & Hpos & _). simpl in Hk.
    injection Hk as <-. lia.
Qed.

(** X1. The operators keep the arena well formed: called on objects of a
    well-formed arena, an operator that returns leaves an arena in which
    operands are live, no object reaches itself and every closure updates
    exactly the operands of its owner; its result is a new object. *)
Theorem operators_keep_well_formed set_rev c s r s' :
  well_formed s → call_ok s c →
  run_op set_rev c s = Ok (r, s') →
  well_formed s' ∧ (length s ≤ r < length s')%nat.
Proof. apply run_op_keeps_wf. Qed.

Lemma operators_keep_well_formed_witness :
  well_formed [mkValue (-2) 0 NoOp [] ""; mkValue (-1) 0 NoOp [] "";
               mkValue 2 0 (MulRule 0 1) [0; 1]%nat "*";
               mkValue 5 0 NoOp [] "";
               mkValue 7 0 (AddRule 2 3) [2; 3]%nat "+"].
Proof.
  apply (operators_keep_well_formed (λ _, false) (CRsub 0 5)
           [mkValue (-2) 0 NoOp [] ""] 4%nat).
  - apply (well_formed_app_leaf [] (-2) ""), well_formed_nil.
  - simpl. lia.
  - vm_compute. reflexivity.
Defined.

(** ** Further properties: the traversal on any arena *)

Lemma unvisited_le s (V V' : gset id) :
  V ⊆ V' → (unvisited s V' ≤ unvisited s V)%nat.
Proof. intros HV. unfold unvisited. apply subseteq_size. set_solver. Qed.

Lemma unvisited_lt s v (V : gset id) :
  (v < length s)%nat → v ∉ V → (unvisited s ({[v]} ∪ V) < unvisited s V)%nat.
Proof.
  intros Hv HV. unfold unvisited. apply subset_size.
  apply strict_spec_alt. split; [set_solver|].
  intros Heq.
  assert (v ∈ (list_to_set (seq 0 (length s)) ∖ V : gset id)) as Hin.
  { apply elem_of_difference. split; [|done].
    apply elem_of_list_to_set, elem_of_seq. lia. }
  rewrite <- Heq in Hin. set_solver.
Qed.

Lemma unvisited_none s : (unvisited s ∅ ≤ length s)%nat.
Proof.
  unfold unvisited.
  trans (size (list_to_set (seq 0 (length s)) : gset id)).
  - apply subseteq_size. set_solver.
  - rewrite size_list_to_set by apply NoDup_seq. by rewrite length_seq.
Qed.

Section TopoTotal.

Variable s : store.
Hypothesis Hclosed : closed s.

Lemma visit_children_total (f : id → topo_state → option topo_state)
    (fuel : nat) (v : id) :
  (∀ c V T, (c < length s)%nat → (unvisited s V < fuel)%nat →
     ∃ st, f c (V, T) = Some st ∧ visit_post s c V T st) →
  ∀ children V T,
    (∀ c, c ∈ children → edge s v c) →
    (unvisited s V < fuel)%nat →
    ∃ st T2, visit_children f children (V, T) = Some st ∧
      st.2 = T ++ T2 ∧
      (∀ x, x ∈ st.1 ↔ x ∈ V ∨ x ∈ T2) ∧
      NoDup T2 ∧
      (∀ x, x ∈ T2 → x ∉ V) ∧
      (∀ x, x ∈ T2 → tc (edge s) v x) ∧
      (∀ c, c ∈ children → c ∈ st.1) ∧
      (∀ x c, x ∈ T2 → edge s x c → c ∈ st.1).
Proof.
  intros Hf. induction children as [|c rest IH]; intros V T Hch Hfuel.
  - exists (V, T), []. simpl. rewrite app_nil_r.
    split_and!; try done; try (intros ? []%elem_of_nil).
    + set_solver.
    + apply NoDup_nil_2.
    + intros ? ? []%elem_of_nil.
  - assert (edge s v c) as Hvc by (apply Hch; left).
    destruct (Hf c V T) as (st1 & Hst1 & T2a & HT & HV & Hnd & Hfresh & Hreach
                            & Hlast & Hcl); [by eapply Hclosed | done |].
    destruct st1 as [V1 T1]. simpl in HT, HV, Hcl. subst T1.
    destruct (IH V1 (T ++ T2a)) as (st & T2b & Hst & HT' & HV' & Hnd' & Hfresh'
                                    & Hreach' & Hin' & Hcl').
    { intros c' Hc'. apply Hch. by right. }
    { eapply Nat.le_lt_trans; [apply unvisited_le | exact Hfuel].
      intros x Hx. apply HV. by left. }
    exists st, (T2a ++ T2b). simpl. rewrite Hst1. split_and!.
    + done.
    + by rewrite HT', app_assoc.
    + intros x. rewrite HV', HV. set_solver.
    + apply NoDup_app. split_and!; [done | | done].
      intros x Hx Hx'. apply (Hfresh' x Hx'), HV. by right.
    + intros x [Hx|Hx]%elem_of_app; [by apply Hfresh|].
      intros HxV. apply (Hfresh' x Hx), HV. by left.
    + intros x [Hx|Hx]%elem_of_app; [|by apply Hreach'].
      eapply tc_rtc_r; [by apply tc_once | by apply Hreach].
    + intros c' [Hc'|Hc']%elem_of_cons; [subst c'|by apply Hin'].
      apply HV'. left. apply HV.
      destruct Hlast as [?|[T2' ->]]; [by left | right; set_solver].
    + intros x c' [Hx|Hx]%elem_of_app He; [|by eapply Hcl'].
      apply HV'. left. by eapply Hcl.
Qed.

Lemma build_topo_total (fuel : nat) : ∀ v V T,
  (v < length s)%nat → (unvisited s V < fuel)%nat →
  ∃ st, build_topo fuel s v (V, T) = Some st ∧ visit_post s v V T st.
Proof.
  induction fuel as [|fuel IH]; intros v V T Hv Hfuel; [lia|].
  cbn [build_topo fst snd]. case_decide as HvV.
  - exists (V, T). split; [done|]. exists []. simpl. rewrite app_nil_r.
    split_and!; try done; try (intros ? []%elem_of_nil).
    + set_solver.
    + apply NoDup_nil_2.
    + by left.
    + intros ? ? []%elem_of_nil.
  - destruct (visit_children_total (build_topo fuel s) fuel v IH
                (get_prev s v) ({[v]} ∪ V) T)
      as (st & T2 & Hst & HT & HV & Hnd & Hfresh & Hreach & Hin & Hcl).
    { done. }
    { pose proof (unvisited_lt s v V Hv HvV). lia. }
    rewrite Hst. eexists. split; [done|]. exists (T2 ++ [v]). simpl.
    assert (v ∉ T2) as HvT2 by (intros Hx; apply (Hfresh v Hx); set_solver).
    split_and!.
    + by rewrite HT, app_assoc.
    + intros x. rewrite HV. set_solver.
    + apply NoDup_app. split_and!; [done | | apply NoDup_singleton].
      intros x Hx ->%list_elem_of_singleton. done.
    + intros x [Hx|Hx%list_elem_of_singleton]%elem_of_app; [|by subst x].
      intros HxV. apply (Hfresh x Hx). set_solver.
    + intros x [Hx|Hx%list_elem_of_singleton]%elem_of_app.
      * by apply tc_rtc, Hreach.
      * subst x. apply rtc_refl.
    + right. by exists T2.
    + intros x c [Hx|Hx%list_elem_of_singleton]%elem_of_app He.
      * by eapply Hcl.
      * subst x. by apply Hin.
Qed.

End TopoTotal.

(** X2. The traversal needs no acyclicity to end.  On every arena whose
    operands are live, cyclic or not, [build_topo] returns within
    [length s + 1] nested calls, because every call marks a new object or
    returns at once; [topo] then holds exactly the objects reachable from
    the root, each once, and the root is its last element, so that the
    root's closure is the first to fire. *)
Theorem traversal_total s root :
  closed s → (root < length s)%nat →
  ∃ V T', build_topo (S (length s)) s root (∅, []) = Some (V, T' ++ [root]) ∧
    topo_of s root = T' ++ [root] ∧
    NoDup (topo_of s root) ∧
    (∀ v, v ∈ topo_of s root ↔ reachable s root v).
Proof.
  intros Hcl Hroot.
  destruct (build_topo_total s Hcl (S (length s)) root ∅ [])
    as (st & Hst & T2 & HT & HV & Hnd & _ & Hreach & Hlast & Hclo);
    [done | pose proof (unvisited_none s); lia |].
  destruct st as [V T]. simpl in HT, HV, Hclo. subst T.
  destruct Hlast as [[]%not_elem_of_empty | [T' ->]].
  exists V, T'. unfold topo_of. rewrite Hst. simpl. split_and!; try done.
  intros v. split; [apply Hreach|].
  revert v. apply (rtc_ind_r (λ v, v ∈ T' ++ [root])).
  - set_solver.
  - intros y z _ Hyz IH. pose proof (Hclo y z IH Hyz) as Hz.
    apply HV in Hz. by destruct Hz as [[]%not_elem_of_empty|?].
Qed.

(** Two objects that are operands of each other. *)
Lemma traversal_total_witness :
  topo_of [mkValue 0 0 NoOp [1%nat] ""; mkValue 0 0 NoOp [0%nat] ""] 0
  = [1%nat] ++ [0%nat] ∧
  ¬ acyclic [mkValue 0 0 NoOp [1%nat] ""; mkValue 0 0 NoOp [0%nat] ""].
Proof.
  split.
  - destruct (traversal_total
                [mkValue 0 0 NoOp [1%nat] ""; mkValue 0 0 NoOp [0%nat] ""] 0%nat)
      as (V & T' & _ & HT & _).
    + intros v c Hvc. apply edge_lt in Hvc as Hv. simpl in Hv.
      unfold edge in Hvc. destruct v as [|[|v]]; simpl in *;
        [apply list_elem_of_singleton in Hvc as ->; lia
        |apply list_elem_of_singleton in Hvc as ->; lia | lia].
    + simpl. lia.
    + vm_compute. reflexivity.
  - intros Hac. apply (Hac 0%nat).
    apply (tc_l _ 0%nat 1%nat); [|apply tc_once];
      unfold edge, get_prev; simpl; set_solver.
Defined.

(** ** Further properties: the order of the operand sets *)














(** ** Further properties: the backward pass on a leaf *)

(** X4. The backward pass on an object without operands, a leaf, sets the
    gradient of that object to 1 and changes nothing else. *)
Theorem backward_leaf s root :
  get_prev s root = [] → get_backward s root = NoOp →
  backward root s = Ok (tt, set_grad root 1 s).
Proof.
  intros Hprev Hrule. rewrite backward_unfold.
  assert (topo_of s root = [root]) as ->.
  { unfold topo_of. cbn [build_topo fst snd].
    rewrite decide_False by set_solver. by rewrite Hprev. }
  simpl. unfold bind, call_backward.
  destruct (same_graph_set_grad root 1 s) as [_ Hsg].
  destruct (Hsg root) as (_ & _ & ->). by rewrite Hrule.
Qed.

Lemma backward_leaf_witness :
  backward 1 [mkValue 2 5 NoOp [] ""; mkValue 7 3 NoOp [] ""]
  = Ok (tt, [mkValue 2 5 NoOp [] ""; mkValue 7 1 NoOp [] ""]).
Proof.
  apply (backward_leaf [mkValue 2 5 NoOp [] ""; mkValue 7 3 NoOp [] ""] 1%nat);
    reflexivity.
Defined.

(** ** Further properties: neurons *)

Section NeuronValue.

Variable set_rev : list id → bool.

Lemma operand_value_app s new o :
  operand_ok s o → operand_value (s ++ new) o = operand_value s o.
Proof. destruct o as [v|z]; simpl; [apply get_data_app_l | done]. Qed.

Lemma operand_ok_app s new o : operand_ok s o → operand_ok (s ++ new) o.
Proof. destruct o as [v|z]; simpl; [rewrite length_app; lia | done]. Qed.

(** The forward values of [*] and [+], for either kind of right operand. *)
Lemma mul_value self other s :
  (self < length s)%nat → operand_ok s other →
  ∃ r new, __mul__ set_rev self other s = Ok (r, s ++ new) ∧
    (length s ≤ r < length (s ++ new))%nat ∧
    get_data (s ++ new) r = get_data s self * operand_value s other.
Proof.
  intros Hself Hother. destruct other as [o|z]; simpl in *.
  - rewrite mul_run. eexists _, [_]. split; [done|].
    rewrite length_app, get_data_last. simpl. split; [lia | done].
  - rewrite mul_Num_run by done. eexists _, [_; _]. split; [done|].
    rewrite length_app. simpl. split; [lia|].
    unfold get_data at 1. change (S (length s)) with (1 + length s)%nat.
    by rewrite (Nat.add_comm 1), lookup_app_offset.
Qed.

Lemma add_value self other s :
  (self < length s)%nat → operand_ok s other →
  ∃ r new, __add__ set_rev self other s = Ok (r, s ++ new) ∧
    (length s ≤ r < length (s ++ new))%nat ∧
    get_data (s ++ new) r = get_data s self + operand_value s other.
Proof.
  intros Hself Hother. destruct other as [o|z]; simpl in *.
  - rewrite add_run. eexists _, [_]. split; [done|].
    rewrite length_app, get_data_last. simpl. split; [lia | done].
  - rewrite add_Num_run by done. eexists _, [_; _]. split; [done|].
    rewrite length_app. simpl. split; [lia|].
    unfold get_data at 1. change (S (length s)) with (1 + length s)%nat.
    by rewrite (Nat.add_comm 1), lookup_app_offset.
Qed.

Lemma dot_app s new wx :
  Forall (λ p, (p.1 < length s)%nat ∧ operand_ok s p.2) wx →
  dot (s ++ new) wx = dot s wx.
Proof.
  intros Hwx. unfold dot. apply Zsum_ext. intros [wi xi] Hin.
  rewrite Forall_forall in Hwx. destruct (Hwx _ Hin) as [Hw Hx]. simpl in *.
  by rewrite get_data_app_l, operand_value_app.
Qed.

Lemma neuron_sum wx : ∀ acc s,
  well_formed s → (acc < length s)%nat →
  Forall (λ p, (p.1 < length s)%nat ∧ operand_ok s p.2) wx →
  ∃ r new,
    fold_loop (λ acc p, q <- __mul__ set_rev p.1 p.2 ;;
                        __add__ set_rev acc (Node q)) wx acc s
    = Ok (r, s ++ new) ∧
    well_formed (s ++ new) ∧ (r < length (s ++ new))%nat ∧
    Forall (λ n, grad n = 0) new ∧
    get_data (s ++ new) r = get_data s acc + dot s wx.
Proof.
  induction wx as [|[wi xi] wx IH]; intros acc s Hwf Hacc Hwx.
  - exists acc, []. simpl. rewrite app_nil_r. unfold dot. simpl.
    split_and!; try done. lia.
  - apply Forall_cons in Hwx as [[Hw Hx] Hwx]. simpl in Hw, Hx.
    destruct (mul_value wi xi s Hw Hx) as (q & new1 & Hq & Hqr & Hqv).
    destruct (mul_keeps_wf set_rev wi xi s q (s ++ new1) Hwf Hw Hx Hq)
      as [Hwf1 _].
    destruct (appends_mul set_rev wi xi s q (s ++ new1) Hq)
      as (new1' & Heq1 & Hg1 & _).
    apply app_inv_head in Heq1 as <-.
    assert (acc < length (s ++ new1))%nat as Hacc1
      by (rewrite length_app; lia).
    destruct (add_value acc (Node q) (s ++ new1) Hacc1) as (r1 & new2 & Hr1 & Hr1r & Hr1v);
      [simpl; lia|].
    destruct (add_keeps_wf set_rev acc (Node q) (s ++ new1) r1
                ((s ++ new1) ++ new2) Hwf1 Hacc1) as [Hwf2 _];
      [simpl; lia | done |].
    destruct (appends_add set_rev acc (Node q) (s ++ new1) r1
                ((s ++ new1) ++ new2) Hr1) as (new2' & Heq2 & Hg2 & _).
    apply app_inv_head in Heq2 as <-.
    destruct (IH r1 ((s ++ new1) ++ new2) Hwf2) as (r & new3 & Hr & Hwf3 & Hrr & Hg3 & Hrv);
      [lia | |].
    { eapply Forall_impl; [exact Hwx|]. intros [w' x'] [? ?]. simpl in *.
      split; [rewrite !length_app; lia | by do 2 apply operand_ok_app]. }
    exists r, (new1 ++ new2 ++ new3). simpl. unfold bind at 1 2.
    rewrite Hq, Hr1, Hr. rewrite !app_assoc. split_and!.
    + done.
    + exact Hwf3.
    + exact Hrr.
    + repeat (apply Forall_app; split); done.
    + rewrite Hrv, Hr1v. simpl.
      rewrite get_data_app_l by done. rewrite Hqv.
      rewrite <- app_assoc, dot_app by done.
      unfold dot. simpl. lia.
Qed.

End NeuronValue.

Lemma neuron_call_value set_rev n x s :
  well_formed s → (b n < length s)%nat →
  Forall (λ wi, (wi < length s)%nat) (w n) → Forall (operand_ok s) x →
  ∃ r new, Neuron_call set_rev n x s = Ok (r, s ++ new) ∧
    well_formed (s ++ new) ∧ (r < length (s ++ new))%nat ∧
    Forall (λ v, grad v = 0) new ∧
    get_data (s ++ new) r
    = (let act := get_data s (b n) + dot s (zip (w n) x) in
       if nonlin n then Z.max 0 act else act).
Proof.
  intros Hwf Hb Hw Hx.
  assert (Forall (λ p, (p.1 < length s)%nat ∧ operand_ok s p.2) (zip (w n) x))
    as Hwx.
  { revert Hw Hx. generalize (w n). intros ws Hw. revert x.
    induction Hw as [|wi ws Hwi _ IH]; intros x Hx; simpl; [done|].
    destruct Hx as [|xi x Hxi Hx]; [done|].
    apply Forall_cons. split; [done | by apply IH]. }
  destruct (neuron_sum set_rev (zip (w n) x) (b n) s Hwf Hb Hwx)
    as (act & new & Hact & Hwf1 & Hr & Hg & Hv).
  unfold Neuron_call. unfold bind at 1. rewrite Hact. simpl.
  destruct (nonlin n).
  - rewrite relu_run. eexists (length (s ++ new)), (new ++ [_]).
    rewrite app_assoc. split_and!; try done.
    + apply well_formed_snoc; [done|..]; simpl; intros c; set_solver by lia.
    + rewrite (length_app (s ++ new)). simpl. lia.
    + apply Forall_app. split; [done | by repeat constructor].
    + rewrite get_data_last. simpl. rewrite Hv. case_decide; lia.
  - exists act, new. by split_and!.
Qed.

(** X5. A neuron computes its weighted sum.  Applied to operands of a
    well-formed arena, [Neuron.__call__] returns a new object whose value is
    the bias plus the sum of [wi * xi] over the pairs that [zip] forms
    (surplus weights or inputs are dropped), cut off below at 0 when the
    neuron is non-linear; it leaves the old objects as they are, appends
    objects of gradient 0 only, and keeps the arena well formed. *)
Theorem neuron_value set_rev n x s :
  well_formed s → (b n < length s)%nat →
  Forall (λ wi, (wi < length s)%nat) (w n) → Forall (operand_ok s) x →
  ∃ r new, Neuron_call set_rev n x s = Ok (r, s ++ new) ∧
    well_formed (s ++ new) ∧ (r < length (s ++ new))%nat ∧
    Forall (λ v, grad v = 0) new ∧
    get_data (s ++ new) r
    = (let act := get_data s (b n) + dot s (zip (w n) x) in
       if nonlin n then Z.max 0 act else act).
Proof. apply neuron_call_value. Qed.

Lemma neuron_value_witness :
  ∃ r new, Neuron_call (λ _, false) (mkNeuron [0%nat; 1%nat] 2%nat true)
             [Num 3; Num 4; Num 100]
             [mkValue 2 0 NoOp [] ""; mkValue (-1) 0 NoOp [] "";
              mkValue 5 0 NoOp [] ""]
           = Ok (r, [mkValue 2 0 NoOp [] ""; mkValue (-1) 0 NoOp [] "";
                     mkValue 5 0 NoOp [] ""] ++ new) ∧
    get_data ([mkValue 2 0 NoOp [] ""; mkValue (-1) 0 NoOp [] "";
               mkValue 5 0 NoOp [] ""] ++ new) r = 7.
Proof.
  destruct (neuron_value (λ _, false) (mkNeuron [0%nat; 1%nat] 2%nat true)
              [Num 3; Num 4; Num 100]
              [mkValue 2 0 NoOp [] ""; mkValue (-1) 0 NoOp [] "";
               mkValue 5 0 NoOp [] ""])
    as (r & new & Hrun & _ & _ & _ & Hv).
  - change [?a; ?b'; ?c] with ([] ++ [a] ++ [b'] ++ [c]). rewrite !app_assoc.
    repeat apply well_formed_app_leaf. apply well_formed_nil.
  - simpl. lia.
  - repeat constructor; simpl; lia.
  - by repeat constructor.
  - exists r, new. split; [done|]. rewrite Hv. reflexivity.
Defined.

(** ** Further properties: [zero_grad] *)

Lemma get_grad_set_grad_zero v s : get_grad (set_grad v 0 s) v = 0.
Proof.
  unfold get_grad, set_grad. rewrite list_lookup_alter_eq.
  by destruct (s !! v).
Qed.

Lemma get_grad_set_grad_ne v g s x : x ≠ v → get_grad (set_grad v g s) x = get_grad s x.
Proof. intros Hx. unfold get_grad, set_grad. by rewrite list_lookup_alter_ne. Qed.

Lemma zero_all ps : ∀ s,
  ∃ s', for_each (λ p, modify (set_grad p 0)) ps s = Ok (tt, s') ∧
    same_graph s s' ∧
    (∀ p, p ∈ ps → get_grad s' p = 0) ∧
    (∀ x, x ∉ ps → get_grad s' x = get_grad s x).
Proof.
  induction ps as [|p ps IH]; intros s; simpl.
  - exists s. split_and!; [done | apply same_graph_refl | | done].
    intros p []%elem_of_nil.
  - destruct (IH (set_grad p 0 s)) as (s' & Hrun & Hsg & Hzero & Hkeep).
    exists s'. unfold bind at 1. unfold modify at 1. rewrite Hrun.
    split_and!; [done | | |].
    + eapply same_graph_trans; [apply same_graph_set_grad | done].
    + intros q Hq. destruct (decide (q ∈ ps)) as [Hin|Hout]; [by apply Hzero|].
      apply elem_of_cons in Hq as [->|?]; [|done].
      rewrite (Hkeep p Hout). apply get_grad_set_grad_zero.
    + intros x Hx. apply not_elem_of_cons in Hx as [Hne Hx].
      rewrite (Hkeep x Hx). by apply get_grad_set_grad_ne.
Qed.

(** X6. [zero_grad] resets the parameters and nothing else: it always
    returns, leaves every parameter of the module with gradient 0, and
    leaves every other gradient, interior nodes of a graph included, and all
    values, operands and closures as they were.  A backward pass that
    follows it therefore leaves on every parameter other than the root
    exactly the sum of the contributions of its consumers. *)
Theorem zero_grad_resets_parameters {A} `{Module A} (m : A) s :
  ∃ s0, zero_grad m s = Ok (tt, s0) ∧
    same_graph s s0 ∧
    (∀ p, p ∈ parameters m → get_grad s0 p = 0) ∧
    (∀ x, x ∉ parameters m → get_grad s0 x = get_grad s x) ∧
    (∀ root s', well_formed s → (root < length s)%nat →
       backward root s0 = Ok (tt, s') →
       ∀ p, p ∈ parameters m → p ≠ root →
         get_grad s' p
         = Zsum (λ v, weight s v p * get_grad s' v) (topo_of s root)).
Proof.
  destruct (zero_all (parameters m) s) as (s0 & Hrun & Hsg & Hzero & Hkeep).
  exists s0. split_and!; try done.
  intros root s' Hwf Hroot Hback p Hp Hne.
  pose proof (same_graph_well_formed _ _ Hsg Hwf) as Hwf0.
  assert (root < length s0)%nat as Hroot0 by (by destruct Hsg as [-> _]).
  pose proof (backward_inv _ _ _ _ Hback) as [Hok _].
  destruct (backward_spec root s0 Hwf0 Hroot0 Hok) as (t & Ht & _ & _ & Hg).
  assert (t = s') as -> by congruence.
  rewrite (Hg p Hne), (Hzero p Hp), (topo_of_same_graph s s0) by done.
  rewrite Z.add_0_l. apply Zsum_ext. intros v _.
  by rewrite (same_graph_weight s s0).
Qed.

Lemma zero_grad_resets_parameters_witness :
  ∃ s0, zero_grad (mkNeuron [] 0%nat true)
          [mkValue 5 4 NoOp [] ""; mkValue 5 7 (ReluRule 0) [0%nat] "ReLU"]
        = Ok (tt, s0) ∧
        get_grad s0 0 = 0 ∧ get_grad s0 1 = 7.
Proof.
  destruct (zero_grad_resets_parameters (mkNeuron [] 0%nat true)
              [mkValue 5 4 NoOp [] ""; mkValue 5 7 (ReluRule 0) [0%nat] "ReLU"])
    as (s0 & Hrun & _ & Hzero & Hkeep & _).
  exists s0. split_and!; [done | |].
  - apply Hzero. vm_compute. left.
  - rewrite Hkeep; [reflexivity|]. vm_compute.
    intros [Hx|Hx]%elem_of_cons; [lia | by apply elem_of_nil in Hx].
Defined.

(** ** Further properties: the network *)

Section NetworkCall.

Variable set_rev : list id → bool.

Lemma Layer_call_shape l xs s :
  ∃ outs s', length outs = length (neurons l) ∧
    Layer_call set_rev l xs s
    = Ok (match outs with [o] => One o | _ => Many outs end, s').
Proof.
  destruct (comprehension_total (λ n, Neuron_call set_rev n xs) (neurons l)
              (λ n t, Neuron_call_total set_rev n xs t) s)
    as (outs & s' & Hrun & Hlen).
  exists outs, s'. split; [done|]. unfold Layer_call, bind. rewrite Hrun.
  unfold ret. destruct outs as [|o [|o' outs]]; simpl; try done.
Qed.

Lemma run_layers_app ls1 ls2 x s :
  run_layers set_rev (ls1 ++ ls2) x s
  = match run_layers set_rev ls1 x s with
    | WellTyped (Ok (y, s')) => run_layers set_rev ls2 y s'
    | other => other
    end.
Proof.
  revert x s. induction ls1 as [|l ls1 IH]; intros x s; simpl; [done|].
  destruct (Layer_apply set_rev l x s) as [[[o s']|e|]|]; try done.
Qed.

Lemma run_layers_wide pre : ∀ l xs s,
  Forall (λ h, length (neurons h) ≠ 1%nat) pre →
  ∃ outs s', length outs = length (neurons l) ∧
    run_layers set_rev (pre ++ [l]) (Seq xs) s
    = WellTyped (Ok (match outs with
                     | [o] => Single o
                     | _ => Seq (Node <$> outs)
                     end, s')).
Proof.
  induction pre as [|h pre IH]; intros l xs s Hpre; simpl.
  - destruct (Layer_call_shape l xs s) as (outs & s' & Hlen & ->).
    exists outs, s'. split; [done|].
    by destruct outs as [|o [|o' outs]].
  - apply Forall_cons in Hpre as [Hh Hpre].
    destruct (Layer_call_shape h xs s) as (outs & s' & Hlen & ->).
    destruct outs as [|o [|o' outs]]; simpl in *; [|lia|]; by apply IH.
Qed.

End NetworkCall.

(** X7. What [MLP.__call__] does with the shapes of its layers.  Without
    layers it returns its input.  Calling the layers one after another
    composes.  When no layer before the last has exactly one neuron, the
    call returns: the single output of the last layer if that layer has one
    neuron, the list of its outputs otherwise.  When a layer with exactly one
    neuron is followed by a layer that has neurons, the call raises
    [TypeError], because the single [Value] it passes on is not iterable. *)
Theorem mlp_call_shapes set_rev :
  (∀ x s, MLP_call set_rev (mkMLP []) x s = WellTyped (Ok (x, s))) ∧
  (∀ ls1 ls2 x s,
     MLP_call set_rev (mkMLP (ls1 ++ ls2)) x s
     = match MLP_call set_rev (mkMLP ls1) x s with
       | WellTyped (Ok (y, s')) => MLP_call set_rev (mkMLP ls2) y s'
       | other => other
       end) ∧
  (∀ pre l xs s, Forall (λ h, length (neurons h) ≠ 1%nat) pre →
     ∃ outs s', length outs = length (neurons l) ∧
       MLP_call set_rev (mkMLP (pre ++ [l])) (Seq xs) s
       = WellTyped (Ok (match outs with
                        | [o] => Single o
                        | _ => Seq (Node <$> outs)
                        end, s'))) ∧
  (∀ pre l l' post xs s, Forall (λ h, length (neurons h) ≠ 1%nat) pre →
     length (neurons l) = 1%nat → neurons l' ≠ [] →
     MLP_call set_rev (mkMLP (pre ++ l :: l' :: post)) (Seq xs) s = TypeError).
Proof.
  unfold MLP_call. simpl. split_and!.
  - done.
  - apply run_layers_app.
  - apply run_layers_wide.
  - intros pre l l' post xs s Hpre Hl Hl'.
    change (pre ++ l :: l' :: post) with (pre ++ [l] ++ l' :: post).
    rewrite app_assoc, run_layers_app.
    destruct (run_layers_wide set_rev pre l xs s Hpre) as (outs & s' & Hlen & ->).
    rewrite Hl in Hlen. destruct outs as [|o [|o' outs]]; try done.
    simpl. by destruct (neurons l').
Qed.

Lemma mlp_call_shapes_witness :
  MLP_call (λ _, false)
    (mkMLP [mkLayer [mkNeuron [0%nat] 1%nat true];
            mkLayer [mkNeuron [0%nat] 1%nat false]])
    (Seq [Num 3]) [mkValue 2 0 NoOp [] ""; mkValue 0 0 NoOp [] ""]
  = TypeError.
Proof.
  apply (proj2 (proj2 (proj2 (mlp_call_shapes (λ _, false)))) []
           (mkLayer [mkNeuron [0%nat] 1%nat true])
           (mkLayer [mkNeuron [0%nat] 1%nat false]) []).
  - constructor.
  - reflexivity.
  - discriminate.
Defined.

(** X8. The layers that [MLP.__init__] asks for: one per entry of [nouts];
    layer [i] takes [sz[i]] inputs and gives [sz[i+1]] outputs, so that each
    layer takes what the previous one gives and the first takes [nin]; every
    layer is non-linear except the last. *)
Theorem mlp_layer_args_shape nin nouts :
  length (MLP_layer_args nin nouts) = length nouts ∧
  (∀ i n_in n_out nl, MLP_layer_args nin nouts !! i = Some (n_in, n_out, nl) →
     (nin :: nouts) !! i = Some n_in ∧ nouts !! i = Some n_out ∧
     (nl = false ↔ S i = length nouts)) ∧
  (∀ i a1 b1 f1 a2 b2 f2,
     MLP_layer_args nin nouts !! i = Some (a1, b1, f1) →
     MLP_layer_args nin nouts !! S i = Some (a2, b2, f2) →
     a2 = b1 ∧ f1 = true).
Proof.
  assert (∀ i n_in n_out nl,
    MLP_layer_args nin nouts !! i = Some (n_in, n_out, nl) →
    (nin :: nouts) !! i = Some n_in ∧ nouts !! i = Some n_out ∧
    (nl = false ↔ S i = length nouts)) as Hat.
  { intros i n_in n_out nl Hi. unfold MLP_layer_args in Hi.
    rewrite list_lookup_fmap in Hi.
    destruct (seq 0 (length nouts) !! i) as [j|] eqn:Hj; [|done].
    apply lookup_seq in Hj as [-> Hlt]. simpl in Hi.
    injection Hi as <- <- <-.
    destruct (lookup_lt_is_Some_2 nouts i Hlt) as [y Hy].
    split_and!.
    - apply list_lookup_lookup_total_lt. simpl. lia.
    - rewrite Nat.add_1_r. simpl.
      by rewrite (list_lookup_total_correct _ _ _ Hy).
    - rewrite bool_decide_eq_false. split; lia. }
  split_and!; [|done|].
  - unfold MLP_layer_args. by rewrite length_fmap, length_seq.
  - intros i a1 b1 f1 a2 b2 f2 H1 H2.
    destruct (Hat _ _ _ _ H1) as (_ & Hb1 & Hf1).
    destruct (Hat _ _ _ _ H2) as (Ha2 & Hb2 & _).
    simpl in Ha2. split; [congruence|].
    apply lookup_lt_Some in Hb2.
    destruct f1; [done|]. destruct Hf1 as [Hf1 _]. specialize (Hf1 eq_refl). lia.
Qed.

Lemma mlp_layer_args_shape_witness :
  MLP_layer_args 3 [4; 4; 1]%nat = [(3, 4, true); (4, 4, true); (4, 1, false)]%nat ∧
  ((3 :: [4; 4; 1]) !! 2%nat = Some 4 ∧ [4; 4; 1] !! 2%nat = Some 1 ∧
   (false = false ↔ 3 = length [4; 4; 1]))%nat.
Proof.
  split; [reflexivity|].
  apply (proj1 (proj2 (mlp_layer_args_shape 3 [4; 4; 1]%nat)) 2%nat 4%nat 1%nat false).
  reflexivity.
Defined.

(** ** Further properties: the forward pass of layers and networks *)

Section Forward.

Variable set_rev : list id → bool.

Lemma dot_values s ws xs :
  dot s (zip ws xs)
  = Zsum (λ p, get_data s p.1 * p.2) (zip ws (operand_value s <$> xs)).
Proof.
  revert xs. induction ws as [|wi ws IH]; intros [|xi xs]; simpl; try done.
  unfold dot in *. simpl. by rewrite IH.
Qed.

Lemma neuron_eval_app s new n xv :
  neuron_ok s n → neuron_eval (s ++ new) n xv = neuron_eval s n xv.
Proof.
  intros [Hb Hw]. unfold neuron_eval. rewrite get_data_app_l by done.
  assert (Zsum (λ p, get_data (s ++ new) p.1 * p.2) (zip (w n) xv)
          = Zsum (λ p, get_data s p.1 * p.2) (zip (w n) xv)) as ->; [|done].
  apply Zsum_ext. intros [wi xi] Hin. simpl.
  apply elem_of_zip_l in Hin. rewrite Forall_forall in Hw.
  by rewrite get_data_app_l by (by apply Hw).
Qed.

Lemma neuron_ok_app s new n : neuron_ok s n → neuron_ok (s ++ new) n.
Proof.
  intros [Hb Hw]. split; [rewrite length_app; lia|].
  eapply Forall_impl; [exact Hw|]. intros wi Hwi. simpl in *.
  rewrite length_app. lia.
Qed.

Lemma layer_eval_app s new l xv :
  layer_ok s l → layer_eval (s ++ new) l xv = layer_eval s l xv.
Proof.
  intros Hl. unfold layer_eval. apply Forall_fmap_ext.
  eapply Forall_impl; [exact Hl|]. intros n Hn. by apply neuron_eval_app.
Qed.

Lemma mlp_eval_app s new ls : ∀ xv,
  Forall (layer_ok s) ls → mlp_eval (s ++ new) ls xv = mlp_eval s ls xv.
Proof.
  induction ls as [|l ls IH]; intros xv Hls; simpl; [done|].
  apply Forall_cons in Hls as [Hl Hls].
  unfold mlp_eval in *. simpl. by rewrite layer_eval_app, IH.
Qed.

Lemma neurons_values ns : ∀ xs s,
  well_formed s → Forall (neuron_ok s) ns → Forall (operand_ok s) xs →
  ∃ outs new,
    comprehension (λ n, Neuron_call set_rev n xs) ns s = Ok (outs, s ++ new) ∧
    well_formed (s ++ new) ∧
    Forall (λ o, (o < length (s ++ new))%nat) outs ∧
    Forall (λ v, grad v = 0) new ∧
    get_data (s ++ new) <$> outs
    = (λ n, neuron_eval s n (operand_value s <$> xs)) <$> ns.
Proof.
  induction ns as [|n ns IH]; intros xs s Hwf Hns Hxs; simpl.
  - exists [], []. rewrite app_nil_r. by split_and!.
  - apply Forall_cons in Hns as [[Hb Hw] Hns].
    destruct (neuron_call_value set_rev n xs s Hwf Hb Hw Hxs)
      as (r & new1 & Hr & Hwf1 & Hrr & Hg1 & Hrv).
    destruct (IH xs (s ++ new1) Hwf1) as (outs & new2 & Houts & Hwf2 & Hor & Hg2 & Hov).
    { eapply Forall_impl; [exact Hns|]. intros m. apply neuron_ok_app. }
    { eapply Forall_impl; [exact Hxs|]. intros o. apply operand_ok_app. }
    exists (r :: outs), (new1 ++ new2). unfold bind. rewrite Hr, Houts.
    rewrite app_assoc. split_and!; try done.
    + apply Forall_cons. split; [rewrite length_app; lia | done].
    + by apply Forall_app.
    + rewrite !fmap_cons. f_equal.
      * rewrite get_data_app_l by done. rewrite Hrv.
        unfold neuron_eval. by rewrite dot_values.
      * rewrite Hov. apply Forall_fmap_ext.
        rewrite Forall_forall. intros m Hm. rewrite Forall_forall in Hns.
        rewrite neuron_eval_app by (by apply Hns). f_equal.
        apply Forall_fmap_ext. eapply Forall_impl; [exact Hxs|].
        intros o. apply operand_value_app.
Qed.

Lemma layer_values l xs s :
  well_formed s → layer_ok s l → Forall (operand_ok s) xs →
  ∃ outs new,
    Layer_call set_rev l xs s
    = Ok (match outs with [o] => One o | _ => Many outs end, s ++ new) ∧
    well_formed (s ++ new) ∧
    Forall (λ o, (o < length (s ++ new))%nat) outs ∧
    Forall (λ v, grad v = 0) new ∧
    get_data (s ++ new) <$> outs = layer_eval s l (operand_value s <$> xs).
Proof.
  intros Hwf Hl Hxs.
  destruct (neurons_values (neurons l) xs s Hwf Hl Hxs)
    as (outs & new & Hrun & Hwf1 & Hor & Hg & Hv).
  exists outs, new. split_and!; try done.
  unfold Layer_call, bind. rewrite Hrun. unfold ret.
  by destruct outs as [|o [|o' outs]].
Qed.

Lemma run_layers_values pre : ∀ l xs s,
  well_formed s → Forall (layer_ok s) (pre ++ [l]) →
  Forall (operand_ok s) xs →
  Forall (λ h, length (neurons h) ≠ 1%nat) pre →
  ∃ y new,
    run_layers set_rev (pre ++ [l]) (Seq xs) s = WellTyped (Ok (y, s ++ new)) ∧
    well_formed (s ++ new) ∧
    Forall (λ v, grad v = 0) new ∧
    activation_values (s ++ new) y
    = mlp_eval s (pre ++ [l]) (operand_value s <$> xs) ∧
    ((∃ o, y = Single o) ↔ length (neurons l) = 1%nat).
Proof.
  induction pre as [|h pre IH]; intros l xs s Hwf Hok Hxs Hpre; simpl.
  - simpl in Hok. apply Forall_cons in Hok as [Hok _].
    destruct (layer_values l xs s Hwf Hok Hxs)
      as (outs & new & -> & Hwf1 & Hor & Hg & Hv).
    assert (length outs = length (neurons l)) as Hlen.
    { rewrite <- (length_fmap (get_data (s ++ new))), Hv.
      unfold layer_eval. by rewrite length_fmap. }
    unfold mlp_eval. simpl. rewrite <- Hv, <- Hlen.
    destruct outs as [|o [|o' outs]]; simpl;
      eexists _, new; (split_and!; [done..| |]); simpl; try done;
      try (by rewrite <- list_fmap_compose);
      split; try done; try (by intros [? ?]); by eexists.
  - apply Forall_cons in Hok as [Hh Hok]. apply Forall_cons in Hpre as [Hh1 Hpre].
    destruct (layer_values h xs s Hwf Hh Hxs)
      as (outs & new1 & -> & Hwf1 & Hor & Hg1 & Hv).
    assert (length outs = length (neurons h)) as Hlen.
    { rewrite <- (length_fmap (get_data (s ++ new1))), Hv.
      unfold layer_eval. by rewrite length_fmap. }
    assert (of_layer_out (match outs with [o] => One o | _ => Many outs end)
            = Seq (Node <$> outs)) as ->.
    { destruct outs as [|o [|o' outs]]; simpl in *; try done; lia. }
    destruct (IH l (Node <$> outs) (s ++ new1) Hwf1)
      as (y & new2 & -> & Hwf2 & Hg2 & Hy & Hsingle).
    { eapply Forall_impl; [exact Hok|]. intros k Hk.
      eapply Forall_impl; [exact Hk|]. intros m. apply neuron_ok_app. }
    { apply Forall_fmap. eapply Forall_impl; [exact Hor|]. by intros o Ho. }
    { done. }
    exists y, (new1 ++ new2). rewrite app_assoc. split_and!; try done.
    + by apply Forall_app.
    + rewrite Hy, mlp_eval_app by done. unfold mlp_eval. simpl. f_equal.
      rewrite <- Hv, <- list_fmap_compose. done.
Qed.

End Forward.

(** X9. A layer applies every neuron to the same input.  On a well-formed
    arena that holds the weights and biases, [Layer.__call__] returns; the
    values of its outputs are, neuron by neuron, the neuron's bias plus its
    weighted sum of the inputs, cut off below at 0 for a non-linear neuron;
    old objects are kept, the new ones have gradient 0, and the arena stays
    well formed. *)
Theorem layer_forward_values set_rev l xs s :
  well_formed s → layer_ok s l → Forall (operand_ok s) xs →
  ∃ outs new,
    Layer_call set_rev l xs s
    = Ok (match outs with [o] => One o | _ => Many outs end, s ++ new) ∧
    well_formed (s ++ new) ∧
    Forall (λ o, (o < length (s ++ new))%nat) outs ∧
    Forall (λ v, grad v = 0) new ∧
    get_data (s ++ new) <$> outs = layer_eval s l (operand_value s <$> xs).
Proof. apply layer_values. Qed.

(** X10. The network computes the composition of its layers.  When no layer
    before the last has exactly one neuron, [MLP.__call__] on a list of
    inputs returns, and the values it returns are those of the arithmetic
    forward pass: each layer's numbers fed to the next.  The result is a
    single object exactly when the last layer has one neuron. *)
Theorem mlp_forward_values set_rev pre l xs s :
  well_formed s → Forall (layer_ok s) (pre ++ [l]) →
  Forall (operand_ok s) xs →
  Forall (λ h, length (neurons h) ≠ 1%nat) pre →
  ∃ y new,
    MLP_call set_rev (mkMLP (pre ++ [l])) (Seq xs) s
    = WellTyped (Ok (y, s ++ new)) ∧
    well_formed (s ++ new) ∧
    Forall (λ v, grad v = 0) new ∧
    activation_values (s ++ new) y
    = mlp_eval s (pre ++ [l]) (operand_value s <$> xs) ∧
    ((∃ o, y = Single o) ↔ length (neurons l) = 1%nat).
Proof. apply run_layers_values. Qed.

Lemma layer_forward_values_witness :
  ∃ outs new,
    Layer_call (λ _, false)
      (mkLayer [mkNeuron [0%nat] 2%nat true; mkNeuron [1%nat] 2%nat false])
      [Num 3]
      [mkValue 2 0 NoOp [] ""; mkValue (-1) 0 NoOp [] ""; mkValue 5 0 NoOp [] ""]
    = Ok (match outs with [o] => One o | _ => Many outs end,
          [mkValue 2 0 NoOp [] ""; mkValue (-1) 0 NoOp [] "";
           mkValue 5 0 NoOp [] ""] ++ new) ∧
    get_data ([mkValue 2 0 NoOp [] ""; mkValue (-1) 0 NoOp [] "";
               mkValue 5 0 NoOp [] ""] ++ new) <$> outs = [11; 2].
Proof.
  destruct (layer_forward_values (λ _, false)
              (mkLayer [mkNeuron [0%nat] 2%nat true; mkNeuron [1%nat] 2%nat false])
              [Num 3]
              [mkValue 2 0 NoOp [] ""; mkValue (-1) 0 NoOp [] "";
               mkValue 5 0 NoOp [] ""])
    as (outs & new & Hrun & _ & _ & _ & Hv).
  - change [?a; ?b'; ?c] with ([] ++ [a] ++ [b'] ++ [c]). rewrite !app_assoc.
    repeat apply well_formed_app_leaf. apply well_formed_nil.
  - repeat constructor; simpl; lia.
  - by repeat constructor.
  - exists outs, new. split; [done|]. rewrite Hv. reflexivity.
Defined.

Lemma mlp_forward_values_witness :
  ∃ y new,
    MLP_call (λ _, false)
      (mkMLP ([mkLayer [mkNeuron [0%nat] 2%nat true; mkNeuron [1%nat] 2%nat true]]
              ++ [mkLayer [mkNeuron [3%nat; 3%nat] 4%nat false]]))
      (Seq [Num 3])
      [mkValue 2 0 NoOp [] ""; mkValue (-1) 0 NoOp [] ""; mkValue 5 0 NoOp [] "";
       mkValue 1 0 NoOp [] ""; mkValue 0 0 NoOp [] ""]
    = WellTyped (Ok (y,
        [mkValue 2 0 NoOp [] ""; mkValue (-1) 0 NoOp [] ""; mkValue 5 0 NoOp [] "";
         mkValue 1 0 NoOp [] ""; mkValue 0 0 NoOp [] ""] ++ new)) ∧
    activation_values
      ([mkValue 2 0 NoOp [] ""; mkValue (-1) 0 NoOp [] ""; mkValue 5 0 NoOp [] "";
        mkValue 1 0 NoOp [] ""; mkValue 0 0 NoOp [] ""] ++ new) y = [13].
Proof.
  destruct (mlp_forward_values (λ _, false)
              [mkLayer [mkNeuron [0%nat] 2%nat true; mkNeuron [1%nat] 2%nat true]]
              (mkLayer [mkNeuron [3%nat; 3%nat] 4%nat false])
              [Num 3]
              [mkValue 2 0 NoOp [] ""; mkValue (-1) 0 NoOp [] "";
               mkValue 5 0 NoOp [] ""; mkValue 1 0 NoOp [] "";
               mkValue 0 0 NoOp [] ""])
    as (y & new & Hrun & _ & _ & Hv & _).
  - change [?a; ?b'; ?c; ?d; ?e]
      with ([] ++ [a] ++ [b'] ++ [c] ++ [d] ++ [e]). rewrite !app_assoc.
    repeat apply well_formed_app_leaf. apply well_formed_nil.
  - repeat constructor; simpl; lia.
  - by repeat constructor.
  - repeat constructor. simpl. lia.
  - exists y, new. split; [done|]. rewrite Hv. reflexivity.
Defined.

(** ** Further properties: the gradient of a fresh operation *)

(** The backward pass from an object that was just built: an operand that
    no other operand reaches receives the root's contribution only. *)
Lemma fresh_root_gradient s n x s' :
  well_formed s → well_formed (s ++ [n]) → (x < length s)%nat →
  (∀ c, c ∈ _prev n → (c < length s)%nat) →
  (∀ c, c ∈ _prev n → c ≠ x → ¬ reachable s c x) →
  backward (length s) (s ++ [n]) = Ok (tt, s') →
  get_grad s' x = get_grad s x + weight (s ++ [n]) (length s) x.
Proof.
  intros Hwf Hwf1 Hx Hprev Hfar Hrun.
  pose proof (backward_inv _ _ _ _ Hrun) as [Hok _].
  assert (length s < length (s ++ [n]))%nat as Hroot
    by (rewrite length_app; simpl; lia).
  destruct (backward_spec _ _ Hwf1 Hroot Hok) as (s1 & Hrun1 & _ & Hr & Hg).
  assert (s1 = s') as -> by congruence.
  rewrite Hg by lia. rewrite Zsum_root_only; [| done | done |].
  - rewrite Hr, get_grad_app_l by done. lia.
  - intros v Hv Hvx.
    pose proof Hwf1 as (Hcl1 & Hac1 & _).
    destruct (topo_of_spec _ Hac1 Hcl1 _ Hroot) as (_ & _ & _ & _ & _ & Hmem & _).
    apply Hmem in Hv.
    destruct (decide (v = length s)) as [|Hne]; [done|]. exfalso.
    apply rtc_inv in Hv as [Heq|(c & Hc & Hcv)]; [by symmetry in Heq|].
    apply edge_snoc in Hc as [Hc%edge_lt|[_ Hc]]; [lia|].
    pose proof (Hprev c Hc) as Hclt.
    assert (reachable s c v ∧ (v < length s)%nat) as [Hcv' Hvlt].
    { apply rtc_tc in Hcv as [<-|Hcv]; [split; [apply rtc_refl | done]|].
      apply tc_snoc_old in Hcv as [Hcv ?]; [|apply Hwf|done].
      split; [by apply tc_rtc | done]. }
    apply edge_snoc in Hvx as [Hvx|[? _]]; [|lia].
    destruct (decide (c = x)) as [->|Hcx].
    + destruct Hwf as (_ & Hac & _). apply (Hac x).
      eapply tc_rtc_l; [exact Hcv'|]. by apply tc_once.
    + apply (Hfar c Hc Hcx). eapply rtc_r; done.
Qed.

(** X11. The gradient that a product or a sum gives to its operands, in any
    well-formed arena and with operands that may be one and the same object:
    after [out = a * b; out.backward()], an operand [x] that the other
    operand does not reach has received [b.data] if it is [a], plus [a.data]
    if it is [b]; so [a * a] adds [2 * a.data] to [a.grad].  For a sum the
    shares are 1 and 1. *)
Theorem operand_gradient set_rev s a b x :
  well_formed s → (a < length s)%nat → (b < length s)%nat →
  x ∈ [a; b] →
  (∀ c, c ∈ [a; b] → c ≠ x → ¬ reachable s c x) →
  (∀ s', (r <- __mul__ set_rev a (Node b) ;; backward r) s = Ok (tt, s') →
     get_grad s' x
     = get_grad s x + ind x a * get_data s b + ind x b * get_data s a) ∧
  (∀ s', (r <- __add__ set_rev a (Node b) ;; backward r) s = Ok (tt, s') →
     get_grad s' x = get_grad s x + ind x a + ind x b).
Proof.
  intros Hwf Ha Hb Hx Hfar.
  assert (x < length s)%nat as Hxlt.
  { apply elem_of_cons in Hx as [->|Hx]; [done|].
    apply list_elem_of_singleton in Hx as ->. done. }
  split; intros s' Hrun; unfold bind in Hrun.
  - rewrite mul_run in Hrun.
    pose proof (mul_keeps_wf set_rev a (Node b) s _ _ Hwf Ha Hb
                  (mul_run set_rev a b s)) as [Hwf1 _].
    rewrite (fresh_root_gradient s _ x s' Hwf Hwf1 Hxlt); [ | | | exact Hrun].
    + unfold weight, get_backward. rewrite lookup_snoc_new. simpl.
      rewrite !get_data_app_l by done. lia.
    + simpl. intros c Hc%elem_of_set_of.
      apply elem_of_cons in Hc as [->|Hc]; [done|].
      apply list_elem_of_singleton in Hc as ->. done.
    + simpl. intros c Hc%elem_of_set_of. by apply Hfar.
  - rewrite add_run in Hrun.
    pose proof (add_keeps_wf set_rev a (Node b) s _ _ Hwf Ha Hb
                  (add_run set_rev a b s)) as [Hwf1 _].
    rewrite (fresh_root_gradient s _ x s' Hwf Hwf1 Hxlt); [ | | | exact Hrun].
    + unfold weight, get_backward. rewrite lookup_snoc_new. simpl. lia.
    + simpl. intros c Hc%elem_of_set_of.
      apply elem_of_cons in Hc as [->|Hc]; [done|].
      apply list_elem_of_singleton in Hc as ->. done.
    + simpl. intros c Hc%elem_of_set_of. by apply Hfar.
Qed.

Lemma operand_gradient_witness :
  ∃ s', (r <- __mul__ (λ _, false) 0%nat (Node 0%nat) ;; backward r)
          [mkValue 3 0 NoOp [] ""] = Ok (tt, s') ∧
        get_grad s' 0 = 6.
Proof.
  destruct (operand_gradient (λ _, false) [mkValue 3 0 NoOp [] ""]
              0%nat 0%nat 0%nat) as [Hmul _].
  - apply (well_formed_app_leaf [] 3 ""), well_formed_nil.
  - simpl. lia.
  - simpl. lia.
  - apply elem_of_cons. by left.
  - intros c Hc Hne. exfalso. apply Hne.
    apply elem_of_cons in Hc as [->|Hc]; [done|].
    by apply list_elem_of_singleton in Hc.
  - eexists. split; [vm_run|].
    rewrite (Hmul _ ltac:(vm_compute; reflexivity)). reflexivity.
Defined.

(** ** Further properties: the order of the sets of operands *)

Section OrderIndependence.

Variables rev1 rev2 : list id → bool.






















End OrderIndependence.



(** ** Further properties: the gradient of a neuron *)

(** An object with one consumer among the objects the pass reaches receives
    that consumer's contribution and nothing else. *)
Lemma unique_consumer s root s' x c :
  well_formed s → (root < length s)%nat → backward root s = Ok (tt, s') →
  x ≠ root → c ∈ topo_of s root →
  (∀ v, v ∈ topo_of s root → edge s v x → v = c) →
  get_grad s' x = get_grad s x + weight s c x * get_grad s' c.
Proof.
  intros Hwf Hroot Hrun Hx Hc Honly.
  pose proof (backward_inv _ _ _ _ Hrun) as [Hok _].
  destruct (backward_spec _ _ Hwf Hroot Hok) as (s1 & Hrun1 & _ & _ & Hg).
  assert (s1 = s') as -> by congruence.
  pose proof Hwf as (Hcl & Hac & _).
  destruct (topo_of_spec s Hac Hcl root Hroot) as (_ & _ & _ & _ & Hnd & _ & _).
  rewrite Hg by done. f_equal.
  rewrite (Zsum_single _ _ c); [done | done | done |].
  intros v Hv Hne. rewrite weight_no_edge; [lia | done |].
  intros Hvx. by apply Hne, Honly.
Qed.

(** Nothing that the root reaches is an operand of the root's ancestors. *)
Lemma consumed_not_root s root v x :
  acyclic s → reachable s root v → edge s v x → x ≠ root.
Proof.
  intros Hac Hv Hvx ->. apply (Hac root).
  eapply tc_rtc_l; [exact Hv|]. by apply tc_once.
Qed.

Lemma reachable_lt s u y :
  closed s → (u < length s)%nat → reachable s u y → (y < length s)%nat.
Proof.
  intros Hcl Hu Hy. revert y Hy. apply rtc_ind_r; [done|].
  intros y z _ Hyz _. by eapply Hcl.
Qed.

Lemma fst_zip_sublist {A B} (l : list A) (k : list B) :
  (zip l k).*1 `sublist_of` l.
Proof.
  revert k. induction l as [|x l IH]; intros [|y k]; simpl.
  - constructor.
  - constructor.
  - apply sublist_nil_l.
  - apply sublist_skip, IH.
Qed.

Lemma chain_head T lo acc wi xi wx r hi :
  well_formed T → chain T lo acc ((wi, xi) :: wx) r hi →
  ∃ o P,
    (xi = Node o ∧ P = lo ∨ o = lo ∧ P = S lo) ∧
    get_data T o = operand_value T xi ∧
    get_backward T P = MulRule wi o ∧ get_grad T P = 0 ∧
    get_backward T (S P) = AddRule acc P ∧ get_grad T (S P) = 0 ∧
    chain T (S (S P)) (S P) wx r hi ∧
    (∀ v c, (lo ≤ v < S (S P))%nat → edge T v c →
       (v = P ∧ (c = wi ∨ c = o)) ∨ (v = S P ∧ (c = acc ∨ c = P))).
Proof.
  intros (_ & _ & Htg) Hch. simpl in Hch.
  destruct Hch as (o & P & Hx & HbP & HgP & HbS & HgS & Hch).
  exists o, P.
  assert (∀ c, edge T P c → c = wi ∨ c = o) as HeP.
  { intros c Hc%Htg. rewrite HbP in Hc. simpl in Hc.
    apply elem_of_cons in Hc as [->|Hc]; [by left|].
    apply list_elem_of_singleton in Hc as ->. by right. }
  assert (∀ c, edge T (S P) c → c = acc ∨ c = P) as HeS.
  { intros c Hc%Htg. rewrite HbS in Hc. simpl in Hc.
    apply elem_of_cons in Hc as [->|Hc]; [by left|].
    apply list_elem_of_singleton in Hc as ->. by right. }
  destruct xi as [u|z].
  - destruct Hx as [-> ->]. split_and!; try done; [by left|].
    intros v c Hv Hvc.
    destruct (decide (v = lo)) as [->|Hne]; [left; split; [done | by apply HeP]|].
    assert (v = S lo) as -> by lia. right. split; [done | by apply HeS].
  - destruct Hx as (-> & -> & HbL & HdL). split_and!; try done; [by right|].
    intros v c Hv Hvc.
    destruct (decide (v = lo)) as [->|Hne].
    { apply Htg in Hvc. rewrite HbL in Hvc. by apply elem_of_nil in Hvc. }
    destruct (decide (v = S lo)) as [->|Hne'];
      [left; split; [done | by apply HeP]|].
    assert (v = S (S lo)) as -> by lia. right. split; [done | by apply HeS].
Qed.

(** Where the objects of a chain point to. *)
Lemma chain_edges T wx : well_formed T → ∀ lo acc r hi,
  chain T lo acc wx r hi →
  ((r = acc ∧ hi = lo ∧ wx = []) ∨ (lo < r ∧ S r = hi)%nat) ∧
  ∀ v c, (lo ≤ v < hi)%nat → edge T v c →
    (lo ≤ c < v)%nat ∨ c = acc ∨ c ∈ wx.*1 ∨ Node c ∈ wx.*2.
Proof.
  intros Hwf. induction wx as [|[wi xi] wx IH]; intros lo acc r hi Hch.
  - destruct Hch as [-> ->]. split; [by left|]. intros v c Hv. lia.
  - destruct (chain_head _ _ _ _ _ _ _ _ Hwf Hch)
      as (o & P & Ho & _ & _ & _ & _ & _ & Hch' & Hhead).
    destruct (IH _ _ _ _ Hch') as [Hr Hed]. split.
    { right. destruct Hr as [(-> & -> & _)|Hr]; destruct Ho as [[_ ->]|[_ ->]]; lia. }
    intros v c Hv Hvc. rewrite !fmap_cons. simpl.
    destruct (decide (v < S (S P))%nat) as [Hlt|Hge].
    + destruct (Hhead v c ltac:(lia) Hvc) as [[-> [-> | ->]] | [-> [-> | ->]]].
      * right. right. left. by left.
      * destruct Ho as [[-> ->]|[-> ->]].
        -- right. right. right. by left.
        -- left. lia.
      * right. by left.
      * left. destruct Ho as [[_ ->]|[_ ->]]; lia.
    + destruct (Hed v c ltac:(lia) Hvc) as [Hc|[->|[Hc|Hc]]].
      * left. destruct Ho as [[_ ->]|[_ ->]]; lia.
      * left. destruct Ho as [[_ ->]|[_ ->]]; lia.
      * right. right. left. by right.
      * right. right. right. by right.
Qed.

Lemma chain_eq T T' lo lo' acc acc' wx r hi hi' :
  chain T lo acc wx r hi → T = T' → lo = lo' → acc = acc' → hi = hi' →
  chain T' lo' acc' wx r hi'.
Proof. by intros H -> -> -> ->. Qed.

Section NeuronGradient.

Variable set_rev : list id → bool.

Lemma get_backward_at s (l : list Value) i n :
  l !! i = Some n → ∀ v, v = (length s + i)%nat →
  get_backward (s ++ l) v = _backward n.
Proof. intros H v ->. by apply get_backward_offset. Qed.

Lemma get_grad_at s (l : list Value) i n :
  l !! i = Some n → ∀ v, v = (length s + i)%nat →
  get_grad (s ++ l) v = grad n.
Proof. intros H v ->. by apply get_grad_offset. Qed.

Lemma get_data_at s (l : list Value) i n :
  l !! i = Some n → ∀ v, v = (length s + i)%nat →
  get_data (s ++ l) v = data n.
Proof. intros H v ->. by apply get_data_offset. Qed.

(** The loop of [Neuron.__call__] lays out a chain. *)
Lemma fold_chain wx : ∀ acc s,
  (acc < length s)%nat →
  Forall (λ p, (p.1 < length s)%nat ∧ operand_ok s p.2) wx →
  ∃ r new,
    fold_loop (λ acc p, q <- __mul__ set_rev p.1 p.2 ;;
                        __add__ set_rev acc (Node q)) wx acc s
    = Ok (r, s ++ new) ∧
    ∀ more, chain (s ++ new ++ more) (length s) acc wx r
              (length s + length new).
Proof.
  induction wx as [|[wi xi] wx IH]; intros acc s Hacc Hwx.
  - exists acc, []. split; [by rewrite app_nil_r|].
    intros more. simpl. split; [done | lia].
  - apply Forall_cons in Hwx as [[Hw Hx] Hwx]. simpl in Hw, Hx.
    destruct xi as [u|z]; simpl in Hx.
    + pose proof (mul_run set_rev wi u s) as Hmul.
      set (nP := mkValue _ 0 (MulRule wi u) _ "*") in Hmul.
      pose proof (add_run set_rev acc (length s) (s ++ [nP])) as Hadd.
      set (nS := mkValue _ 0 (AddRule acc (length s)) _ "+") in Hadd.
      destruct (IH (length (s ++ [nP])) ((s ++ [nP]) ++ [nS]))
        as (r & new & Hr & Hch).
      { rewrite !length_app. simpl. lia. }
      { eapply Forall_impl; [exact Hwx|]. intros [w' x'] [? ?]. simpl in *.
        split; [rewrite !length_app; simpl; lia | by do 2 apply operand_ok_app]. }
      exists r, ([nP; nS] ++ new). split.
      * simpl. unfold bind at 1 2. rewrite Hmul, Hadd, Hr.
        by rewrite <- !app_assoc.
      * intros more. simpl.
        exists u, (length s). split_and!; try done.
        -- by apply (get_backward_at s _ 0 nP); [|lia].
        -- by apply (get_grad_at s _ 0 nP); [|lia].
        -- by apply (get_backward_at s _ 1 nS); [|lia].
        -- by apply (get_grad_at s _ 1 nS); [|lia].
        -- eapply chain_eq; [apply (Hch more)|..].
           ++ by rewrite <- !app_assoc.
           ++ rewrite !length_app. simpl. lia.
           ++ rewrite !length_app. simpl. lia.
           ++ rewrite !length_app. simpl. lia.
    + pose proof (mul_Num_run set_rev wi z s Hw) as Hmul.
      set (nL := mkValue z 0 NoOp [] "") in Hmul.
      set (nP := mkValue _ 0 (MulRule wi (length s)) _ "*") in Hmul.
      pose proof (add_run set_rev acc (S (length s)) (s ++ [nL; nP])) as Hadd.
      set (nS := mkValue _ 0 (AddRule acc (S (length s))) _ "+") in Hadd.
      destruct (IH (length (s ++ [nL; nP])) ((s ++ [nL; nP]) ++ [nS]))
        as (r & new & Hr & Hch).
      { rewrite !length_app. simpl. lia. }
      { eapply Forall_impl; [exact Hwx|]. intros [w' x'] [? ?]. simpl in *.
        split; [rewrite !length_app; simpl; lia | by do 2 apply operand_ok_app]. }
      exists r, ([nL; nP; nS] ++ new). split.
      * simpl. unfold bind at 1 2. rewrite Hmul, Hadd, Hr.
        by rewrite <- !app_assoc.
      * intros more. simpl.
        exists (length s), (S (length s)). split_and!; try done.
        -- by apply (get_backward_at s _ 0 nL); [|lia].
        -- by apply (get_data_at s _ 0 nL); [|lia].
        -- by apply (get_backward_at s _ 1 nP); [|lia].
        -- by apply (get_grad_at s _ 1 nP); [|lia].
        -- by apply (get_backward_at s _ 2 nS); [|lia].
        -- by apply (get_grad_at s _ 2 nS); [|lia].
        -- eapply chain_eq; [apply (Hch more)|..].
           ++ by rewrite <- !app_assoc.
           ++ rewrite !length_app. simpl. lia.
           ++ rewrite !length_app. simpl. lia.
           ++ rewrite !length_app. simpl. lia.
Qed.

End NeuronGradient.

(** The gradients along a chain: the running sum it starts from receives
    what the last sum holds, and every weight receives its input times
    that, provided that nothing outside the chain consumes its objects. *)
Lemma chain_grad T T' R :
  well_formed T → (R < length T)%nat → backward R T = Ok (tt, T') →
  ∀ wx lo acc r hi,
    chain T lo acc wx r hi →
    reachable T R r →
    (acc < lo)%nat → Forall (λ p, (p < lo)%nat) wx.*1 → NoDup (acc :: wx.*1) →
    (∀ v, Node v ∈ wx.*2 → (v < lo)%nat ∧ v ∉ acc :: wx.*1) →
    (∀ v c, v ∈ topo_of T R → edge T v c → (v < lo ∨ hi ≤ v)%nat → c ≠ r →
            (c ∉ acc :: wx.*1) ∧ ¬ (lo ≤ c < hi)%nat) →
    reachable T r acc ∧
    (wx ≠ [] → get_grad T' acc = get_grad T acc + get_grad T' r) ∧
    (∀ wi xi, (wi, xi) ∈ wx →
       get_grad T' wi = get_grad T wi + operand_value T xi * get_grad T' r).
Proof.
  intros Hwf HR Hback.
  pose proof Hwf as (Hcl & Hac & Htg).
  destruct (topo_of_spec T Hac Hcl R HR) as (_ & _ & _ & _ & _ & Hmem & _).
  induction wx as [|[wi xi] wx IH]; intros lo acc r hi Hch Hr Hacc Hw Hnd Hin Hout.
  { destruct Hch as [-> ->].
    split_and!; [apply rtc_refl | done | intros ? ? []%elem_of_nil]. }
  destruct (chain_head _ _ _ _ _ _ _ _ Hwf Hch)
    as (o & P & Ho & Hdo & HbP & HgP & HbS & HgS & Hch' & Hhead).
  rewrite !fmap_cons in Hw, Hnd, Hin, Hout. simpl in Hw, Hnd, Hin, Hout.
  apply Forall_cons in Hw as [Hwi Hw].
  apply NoDup_cons in Hnd as [Hacc_out Hnd].
  apply NoDup_cons in Hnd as [Hwi_out Hnd].
  apply not_elem_of_cons in Hacc_out as [Hacc_wi Hacc_out].
  destruct (chain_edges T wx Hwf _ _ _ _ Hch') as [Hrr Hed].
  assert (lo ≤ P ≤ S lo)%nat as HP by (destruct Ho as [[_ ->]|[_ ->]]; lia).
  assert (S P ≤ r < hi)%nat as Hrange
    by (destruct Hrr as [(-> & -> & _)|Hrr]; lia).
  assert (o ≠ wi ∧ o ≠ acc ∧ (o < P)%nat ∧ o ∉ wx.*1)
    as (Ho_wi & Ho_acc & Ho_P & Ho_out).
  { destruct Ho as [[-> ->]|[-> ->]].
    - destruct (Hin o ltac:(by left)) as [Holt Hon].
      rewrite !not_elem_of_cons in Hon. destruct Hon as (? & ? & ?).
      split_and!; [done | done | lia | done].
    - split_and!; [lia | lia | lia |].
      intros HS. rewrite Forall_forall in Hw. apply Hw in HS. lia. }
  assert (Forall (λ p, (p < S (S P))%nat) wx.*1) as Hw'.
  { eapply Forall_impl; [exact Hw|]. intros p Hp. simpl in Hp. lia. }
  assert (S P ∉ wx.*1) as HS_out.
  { intros HS. rewrite Forall_forall in Hw. apply Hw in HS. lia. }
  assert (P ∉ wx.*1) as HP_out.
  { intros HS. rewrite Forall_forall in Hw. apply Hw in HS. lia. }
  destruct (IH (S (S P)) (S P) r hi Hch' Hr) as (HrS & HgS' & Hgw).
  { lia. }
  { done. }
  { by apply NoDup_cons. }
  { intros v Hv. destruct (Hin v ltac:(by right)) as [Hvlt Hvn].
    rewrite !not_elem_of_cons in Hvn. destruct Hvn as (? & ? & ?).
    split; [lia|]. rewrite not_elem_of_cons. split; [lia | done]. }
  { intros v c Hv Hvc Hio Hcr.
    destruct (decide (v < lo ∨ hi ≤ v)%nat) as [Hio'|Hio'].
    - destruct (Hout v c Hv Hvc Hio' Hcr) as [Hc1 Hc2].
      rewrite !not_elem_of_cons in Hc1. destruct Hc1 as (? & ? & ?).
      split; [|lia]. rewrite not_elem_of_cons. split; [lia | done].
    - destruct (Hhead v c ltac:(lia) Hvc) as [[-> [-> | ->]] | [-> [-> | ->]]].
      + split; [|lia]. rewrite not_elem_of_cons. split; [lia | done].
      + split; [|lia]. rewrite not_elem_of_cons. split; [lia | done].
      + split; [|lia]. rewrite not_elem_of_cons. split; [lia | done].
      + split; [|lia]. rewrite not_elem_of_cons. split; [lia | done]. }
  (* the consumers of the running sum, the weight and the product *)
  assert (∀ v c, v ∈ topo_of T R → edge T v c → (c = acc ∨ c = wi ∨ c = P) →
            (v = P ∧ (c = wi ∨ c = o)) ∨ (v = S P ∧ (c = acc ∨ c = P)))
    as Hcons.
  { intros v c Hv Hvc Hc.
    assert (c < S P)%nat as Hclt by (destruct Hc as [-> | [-> | ->]]; lia).
    destruct (decide (v < lo ∨ hi ≤ v)%nat) as [Hio|Hio].
    { destruct (Hout v c Hv Hvc Hio ltac:(lia)) as [Hc1 Hc2].
      rewrite !not_elem_of_cons in Hc1. destruct Hc1 as (? & ? & ?).
      destruct Hc as [-> | [-> | ->]]; [done | done | lia]. }
    destruct (decide (v < S (S P))%nat) as [Hlt|Hge].
    { apply Hhead; [lia | done]. }
    exfalso.
    destruct (Hed v c ltac:(lia) Hvc) as [Hc'|[-> | [Hc'|Hc']]]; [lia | lia | |].
    - destruct Hc as [-> | [-> | ->]]; done.
    - destruct (Hin c ltac:(by right)) as [Hc1 Hc2].
      rewrite !not_elem_of_cons in Hc2. destruct Hc2 as (? & ? & _).
      destruct Hc as [-> | [-> | ->]]; [done | done | lia]. }
  assert (get_grad T' (S P) = get_grad T' r) as HSg.
  { destruct Hrr as [(-> & _ & _)|Hrr]; [done|].
    rewrite HgS', HgS; [lia|]. intros ->. simpl in Hch'. lia. }
  assert (edge T (S P) acc ∧ edge T (S P) P) as [HeSa HeSP].
  { split; apply Htg; rewrite HbS; simpl; [by left | right; by left]. }
  assert (edge T P wi) as HePw.
  { apply Htg. rewrite HbP. simpl. by left. }
  assert (reachable T R (S P)) as HRS
    by (unfold reachable in *; by etrans).
  assert (reachable T R P) as HRP by (by eapply rtc_r).
  assert (get_grad T' P = get_grad T' r) as HPg.
  { rewrite (unique_consumer T R T' P (S P) Hwf HR Hback).
    - unfold weight. rewrite HbS, HgP, HSg, ind_eq, ind_ne by lia. lia.
    - apply (consumed_not_root T R (S P) P Hac HRS HeSP).
    - by apply Hmem.
    - intros v Hv Hvc.
      destruct (Hcons v P Hv Hvc ltac:(tauto)) as [[-> [Hc|Hc]]|[-> _]];
        [lia | lia | done]. }
  split_and!.
  - by eapply rtc_r.
  - intros _. rewrite (unique_consumer T R T' acc (S P) Hwf HR Hback).
    + unfold weight. rewrite HbS, HSg, ind_eq, ind_ne by lia. lia.
    + apply (consumed_not_root T R (S P) acc Hac HRS HeSa).
    + by apply Hmem.
    + intros v Hv Hvc.
      destruct (Hcons v acc Hv Hvc ltac:(tauto)) as [[-> [Hc|Hc]]|[-> _]];
        [done | done | done].
  - intros wi' xi' [Heq|Hin']%elem_of_cons.
    + injection Heq as -> ->.
      rewrite (unique_consumer T R T' wi P Hwf HR Hback).
      * unfold weight. rewrite HbP, HPg, ind_eq, ind_ne, Hdo by done. lia.
      * apply (consumed_not_root T R P wi Hac HRP HePw).
      * by apply Hmem.
      * intros v Hv Hvc.
        destruct (Hcons v wi Hv Hvc ltac:(tauto)) as [[-> _]|[-> [Hc|Hc]]];
          [done | done | lia].
    + by apply Hgw.
Qed.

(** The old objects that the pass reaches are the bias, the weights and what
    the inputs are made of: none of them consumes the bias or a weight. *)
Lemma neuron_outside s T R wx acc act hi :
  well_formed s → well_formed T → (R < length T)%nat →
  (∀ v, (v < length s)%nat → get_prev T v = get_prev s v) →
  chain T (length s) acc wx act hi →
  (∀ v c, (hi ≤ v)%nat → edge T v c → c = act) →
  (length s ≤ R)%nat ∨ R = acc →
  Forall (λ p, (p < length s)%nat ∧ get_prev s p = []) (acc :: wx.*1) →
  (∀ v, Node v ∈ wx.*2 →
     (v < length s)%nat ∧ ∀ p, p ∈ acc :: wx.*1 → ¬ reachable s v p) →
  ∀ v c, v ∈ topo_of T R → edge T v c → (v < length s)%nat →
    (c ∉ acc :: wx.*1) ∧ (c < length s)%nat.
Proof.
  intros Hwfs Hwf HRlt Hold Hch Hmore HR Hleaf Hfar v c Hv Hvc Hlt.
  pose proof Hwfs as (Hcls & _ & _).
  assert (edge s v c) as Hvc' by (unfold edge in *; by rewrite <- Hold).
  split; [|by apply Hcls in Hvc'].
  intros Hcp.
  set (Q := λ y : id, (length s ≤ y)%nat ∨ y ∈ acc :: wx.*1 ∨
                      ∃ u, Node u ∈ wx.*2 ∧ reachable s u y).
  destruct (chain_edges T wx Hwf _ _ _ _ Hch) as [Hrr Hed].
  assert (Q act) as HQact.
  { destruct Hrr as [(-> & _ & _)|Hrr]; [right; left; by left | left; lia]. }
  assert (∀ y, reachable T R y → Q y) as HQ.
  { apply rtc_ind_r.
    - destruct HR as [HR| ->]; [by left | right; left; by left].
    - intros y z _ Hyz [Hy|[Hy|(u & Hu & Huy)]].
      + destruct (decide (y < hi)%nat) as [Hyhi|Hyhi].
        * destruct (Hed y z ltac:(lia) Hyz) as [Hz|[-> | [Hz|Hz]]].
          -- left. lia.
          -- right. left. by left.
          -- right. left. by right.
          -- right. right. exists z. split; [done | apply rtc_refl].
        * rewrite (Hmore y z) by (lia || done). done.
      + rewrite Forall_forall in Hleaf. destruct (Hleaf y Hy) as [Hylt Hyp].
        unfold edge in Hyz. rewrite Hold, Hyp in Hyz by done.
        by apply elem_of_nil in Hyz.
      + destruct (Hfar u Hu) as [Hult _].
        pose proof (reachable_lt s u y Hcls Hult Huy) as Hylt.
        right. right. exists u. split; [done|]. eapply rtc_r; [exact Huy|].
        unfold edge in *. by rewrite <- Hold. }
  pose proof Hwf as (Hcl & Hac & _).
  destruct (topo_of_spec T Hac Hcl R HRlt) as (_ & _ & _ & _ & _ & Hmem & _).
  destruct (HQ v (proj1 (Hmem v) Hv)) as [Hy|[Hy|(u & Hu & Huy)]]; [lia | |].
  - rewrite Forall_forall in Hleaf. destruct (Hleaf v Hy) as [_ Hyp].
    unfold edge in Hvc'. rewrite Hyp in Hvc'. by apply elem_of_nil in Hvc'.
  - destruct (Hfar u Hu) as [_ Hnot]. apply (Hnot c Hcp).
    by eapply rtc_r.
Qed.

(** The gradients that the chain of a neuron passes on, in the arena [T] of
    the whole call: [hi] is where the chain ends, and whatever follows it
    consumes the last sum only. *)
Lemma neuron_core s T T' R wx bn act hi :
  well_formed s → well_formed T → (R < length T)%nat →
  backward R T = Ok (tt, T') →
  (∀ v, (v < length s)%nat → get_prev T v = get_prev s v) →
  chain T (length s) bn wx act hi →
  (∀ v c, (hi ≤ v)%nat → edge T v c → c = act) →
  reachable T R act →
  (length s ≤ R)%nat ∨ R = bn →
  NoDup (bn :: wx.*1) →
  Forall (λ p, (p < length s)%nat ∧ get_prev s p = []) (bn :: wx.*1) →
  (∀ v, Node v ∈ wx.*2 →
     (v < length s)%nat ∧ ∀ p, p ∈ bn :: wx.*1 → ¬ reachable s v p) →
  (wx ≠ [] → get_grad T' bn = get_grad T bn + get_grad T' act) ∧
  (∀ wi xi, (wi, xi) ∈ wx →
     get_grad T' wi = get_grad T wi + operand_value T xi * get_grad T' act) ∧
  (∀ v, v ∈ topo_of T R → edge T v act → (hi ≤ v)%nat).
Proof.
  intros Hwfs Hwf HR Hback Hold Hch Hmore Hreach HRQ Hnd Hleaf Hfar.
  pose proof (neuron_outside s T R wx bn act hi Hwfs Hwf HR Hold Hch Hmore
                HRQ Hleaf Hfar) as Hout.
  destruct (chain_edges T wx Hwf _ _ _ _ Hch) as [Hrr Hed].
  pose proof Hleaf as Hleaf'. apply Forall_cons in Hleaf' as [[Hbn _] Hw].
  assert (∀ v, Node v ∈ wx.*2 → (v < length s)%nat ∧ v ∉ bn :: wx.*1) as Hin.
  { intros v Hv. destruct (Hfar v Hv) as [Hvlt Hnot]. split; [done|].
    intros Hp. apply (Hnot v Hp), rtc_refl. }
  destruct (chain_grad T T' R Hwf HR Hback wx (length s) bn act hi Hch Hreach)
    as (_ & Hgb & Hgw); try done.
  { eapply Forall_impl; [exact Hw|]. by intros p [? _]. }
  { intros v c Hv Hvc [Hlt|Hge] Hc.
    - destruct (Hout v c Hv Hvc Hlt) as [? ?]. split; [done | lia].
    - by apply Hmore in Hvc. }
  split_and!; [done | done |].
  intros v Hv Hvact.
  destruct (decide (hi ≤ v)%nat) as [|Hlt]; [done|]. exfalso.
  apply NoDup_cons in Hnd as [Hbw _].
  destruct (decide (v < length s)%nat) as [Hvs|Hvs].
  - destruct (Hout v act Hv Hvact Hvs) as [Hp Hlts].
    destruct Hrr as [(-> & _ & _)|Hrr]; [|lia]. apply Hp. by left.
  - destruct (Hed v act ltac:(lia) Hvact) as [Hc|[Hc|[Hc|Hc]]].
    + destruct Hrr as [(_ & -> & _)|Hrr]; lia.
    + destruct Hrr as [(_ & -> & _)|Hrr]; lia.
    + rewrite Forall_forall in Hw. destruct (Hw act Hc) as [Hact _].
      destruct Hrr as [(-> & _ & _)|Hrr]; [done | lia].
    + destruct (Hin act Hc) as [Hact Hn].
      destruct Hrr as [(-> & _ & _)|Hrr]; [|lia]. apply Hn. by left.
Qed.

Lemma backward_root s root s' :
  well_formed s → (root < length s)%nat → backward root s = Ok (tt, s') →
  get_grad s' root = 1 ∧ same_graph s s'.
Proof.
  intros Hwf Hroot Hrun.
  pose proof (backward_inv _ _ _ _ Hrun) as [Hok Hsg].
  destruct (backward_spec _ _ Hwf Hroot Hok) as (s1 & Hrun1 & _ & Hr & _).
  assert (s1 = s') as -> by congruence. done.
Qed.

Lemma get_grad_new s new v :
  Forall (λ n, grad n = 0) new → (length s ≤ v)%nat →
  get_grad (s ++ new) v = 0.
Proof.
  intros Hnew Hv. unfold get_grad. rewrite lookup_app_r by done.
  destruct (new !! (v - length s)%nat) as [n|] eqn:Hn; [|done].
  rewrite Forall_forall in Hnew. apply Hnew. by eapply list_elem_of_lookup_2.
Qed.

(** X13. The gradient of a neuron with respect to its parameters.  For a
    neuron whose bias and weights are distinct leaves that its inputs are not
    made of, [out = n(x); out.backward()] adds to the gradient of each weight
    the input it is paired with, and 1 to the gradient of the bias, both
    times the slope: 1 for a linear neuron, and for a ReLU neuron 1 if the
    output is positive and 0 otherwise. *)
Theorem neuron_gradient set_rev n xs s r t' :
  well_formed s →
  NoDup (b n :: w n) →
  Forall (λ p, (p < length s)%nat ∧ get_prev s p = []) (b n :: w n) →
  Forall (operand_ok s) xs →
  (∀ v p, Node v ∈ xs → p ∈ b n :: w n → ¬ reachable s v p) →
  (nonlin n = false → zip (w n) xs ≠ []) →
  (out <- Neuron_call set_rev n xs ;; backward out ;;; ret out) s
  = Ok (r, t') →
  get_grad t' (b n) = get_grad s (b n) + slope (nonlin n) (get_data t' r) ∧
  ∀ wi xi, (wi, xi) ∈ zip (w n) xs →
    get_grad t' wi
    = get_grad s wi + operand_value s xi * slope (nonlin n) (get_data t' r).
Proof.
  intros Hwf Hnd Hleaf Hxs Hfar Hne Hrun.
  set (wx := zip (w n) xs) in *.
  pose proof (fst_zip_sublist (w n) xs) as Hsub. fold wx in Hsub.
  pose proof Hleaf as Hleaf0. apply Forall_cons in Hleaf0 as [[Hb _] HleafW].
  assert (∀ p, p ∈ b n :: wx.*1 → p ∈ b n :: w n) as Hparams.
  { intros p [->|Hp]%elem_of_cons; [by left|]. right.
    by eapply elem_of_sublist. }
  assert (Forall (λ p, (p < length s)%nat ∧ get_prev s p = []) (b n :: wx.*1))
    as Hleaf'.
  { rewrite Forall_forall in Hleaf. apply Forall_forall.
    intros p Hp. by apply Hleaf, Hparams. }
  assert (NoDup (b n :: wx.*1)) as Hnd'.
  { apply NoDup_cons in Hnd as [Hbw Hndw]. apply NoDup_cons. split.
    - intros Hp. apply Hbw. by eapply elem_of_sublist.
    - by eapply sublist_NoDup. }
  assert (∀ wi xi, (wi, xi) ∈ wx → wi ∈ w n ∧ xi ∈ xs) as Hpair.
  { intros wi xi Hp. split; [by eapply elem_of_zip_l | by eapply elem_of_zip_r]. }
  assert (∀ v, Node v ∈ wx.*2 →
            (v < length s)%nat ∧ ∀ p, p ∈ b n :: wx.*1 → ¬ reachable s v p)
    as Hfar'.
  { intros v ([wi xi] & Hv & Hp)%list_elem_of_fmap. simpl in Hv. subst xi.
    destruct (Hpair _ _ Hp) as [_ Hvx]. split.
    - rewrite Forall_forall in Hxs. by apply (Hxs _ Hvx).
    - intros p Hpp. by apply Hfar, Hparams. }
  assert (Forall (λ p, (p.1 < length s)%nat ∧ operand_ok s p.2) wx) as Hwx.
  { apply Forall_forall. intros [wi xi] Hp. destruct (Hpair _ _ Hp) as [Hwi Hxi].
    simpl. rewrite Forall_forall in HleafW. rewrite Forall_forall in Hxs.
    split; [by apply HleafW | by apply Hxs]. }
  assert (Forall (λ wi, (wi < length s)%nat) (w n)) as Hwlt.
  { eapply Forall_impl; [exact HleafW|]. by intros p [? _]. }
  destruct (fold_chain set_rev wx (b n) s Hb Hwx) as (act & new & Hfold & Hch).
  destruct (neuron_call_value set_rev n xs s Hwf Hb Hwlt Hxs)
    as (R & new0 & Hcall & HwfT & HR & Hg0 & _).
  unfold bind in Hrun. rewrite Hcall in Hrun.
  destruct (backward R (s ++ new0)) as [[[] T']| |] eqn:Hback; try done.
  unfold ret in Hrun. injection Hrun as <- <-.
  destruct (backward_root _ _ _ HwfT HR Hback) as [HgR Hsg].
  assert (∀ v, (v < length s)%nat → get_prev (s ++ new0) v = get_prev s v)
    as Hold by (intros v Hv; by apply get_prev_app_l).
  assert (∀ wi xi, (wi, xi) ∈ wx →
            get_grad (s ++ new0) wi = get_grad s wi ∧
            operand_value (s ++ new0) xi = operand_value s xi) as Hframe.
  { intros wi xi Hp. destruct (Hpair _ _ Hp) as [Hwi Hxi].
    rewrite Forall_forall in Hwlt. rewrite Forall_forall in Hxs.
    split; [by apply get_grad_app_l, Hwlt | by apply operand_value_app, Hxs]. }
  unfold Neuron_call in Hcall. unfold bind at 1 in Hcall.
  fold wx in Hcall. rewrite Hfold in Hcall.
  pose proof HwfT as (_ & _ & Htg).
  destruct (nonlin n) eqn:Hnl.
  - (* a ReLU on top of the sum *)
    rewrite relu_run in Hcall. injection Hcall as HRe HTe.
    assert (length new0 = S (length new)) as Hlen.
    { apply (f_equal length) in HTe. rewrite !length_app in HTe. simpl in HTe.
      lia. }
    rewrite length_app in HRe.
    assert (get_backward (s ++ new0) R = ReluRule act) as HbR.
    { rewrite <- HTe, <- HRe. unfold get_backward.
      rewrite <- length_app. by rewrite lookup_snoc_new. }
    assert (get_data (s ++ new0) R
            = if decide (get_data (s ++ new) act < 0) then 0
              else get_data (s ++ new) act) as HdR.
    { rewrite <- HTe, <- HRe. rewrite <- length_app. by rewrite get_data_last. }
    assert (edge (s ++ new0) R act) as HeR.
    { apply Htg. rewrite HbR. simpl. by left. }
    assert (∀ v c, (length s + length new ≤ v)%nat → edge (s ++ new0) v c →
              c = act) as Hmore.
    { intros v c Hv Hvc. pose proof (edge_lt _ _ _ Hvc) as Hvlt.
      rewrite length_app in Hvlt. assert (v = R) as -> by lia.
      apply Htg in Hvc. rewrite HbR in Hvc. simpl in Hvc.
      by apply list_elem_of_singleton in Hvc. }
    assert (chain (s ++ new0) (length s) (b n) wx act (length s + length new))
      as Hch'.
    { rewrite <- HTe, <- app_assoc. apply Hch. }
    destruct (chain_edges _ wx HwfT _ _ _ _ Hch') as [Hrr0 _].
    destruct (neuron_core s (s ++ new0) T' R wx (b n) act
                (length s + length new) Hwf HwfT HR Hback Hold Hch')
      as (Hgb & Hgw & Hact); try done.
    { by apply rtc_once. }
    { left. lia. }
    assert (act ≠ R) as HactR.
    { destruct Hrr0 as [(-> & _ & _)|Hrr0]; lia. }
    assert (get_grad T' act
            = get_grad (s ++ new0) act
              + slope true (get_data T' R)) as Hgact.
    { rewrite (unique_consumer (s ++ new0) R T' act R HwfT HR Hback HactR).
      - unfold weight, slope. rewrite HbR, HgR, ind_eq.
        destruct Hsg as [_ Hsg]. destruct (Hsg R) as (-> & _ & _).
        unfold bool_mul. case_bool_decide; destruct (decide (0 < _)); lia.
      - pose proof HwfT as (Hcl & Hac & _).
        destruct (topo_of_spec _ Hac Hcl R HR) as (_ & _ & _ & _ & _ & Hmem & _).
        apply Hmem, rtc_refl.
      - intros v Hv Hvact. pose proof (Hact v Hv Hvact) as Hge.
        pose proof (edge_lt _ _ _ Hvact) as Hvlt. rewrite length_app in Hvlt.
        lia. }
    destruct Hrr0 as [(Hab & _ & Hnil)|Hrr0].
    + (* no pair: the ReLU consumes the bias itself *)
      subst act. rewrite Hnil. split.
      * rewrite Hgact. by rewrite get_grad_app_l.
      * intros wi xi []%elem_of_nil.
    + assert (get_grad (s ++ new0) act = 0) as Hz
        by (apply get_grad_new; [done | lia]).
      rewrite Hz in Hgact. split.
      * rewrite Hgb.
        -- rewrite Hgact, get_grad_app_l by done. lia.
        -- intros Hnil. rewrite Hnil in Hch'. destruct Hch' as [-> _]. lia.
      * intros wi xi Hp. destruct (Hframe wi xi Hp) as [Hf1 Hf2].
        rewrite (Hgw wi xi Hp), Hgact, Hf1, Hf2. lia.
  - (* a linear neuron: the sum is the root *)
    unfold ret in Hcall. injection Hcall as -> HTe.
    apply app_inv_head in HTe as <-.
    assert (chain (s ++ new) (length s) (b n) wx R (length s + length new))
      as Hch'.
    { eapply chain_eq; [apply (Hch [])|..]; try done. by rewrite app_nil_r. }
    destruct (chain_edges _ wx HwfT _ _ _ _ Hch') as [Hrr0 _].
    destruct (neuron_core s (s ++ new) T' R wx (b n) R
                (length s + length new) Hwf HwfT HR Hback Hold Hch')
      as (Hgb & Hgw & _); try done.
    { intros v c Hv Hvc. apply edge_lt in Hvc. rewrite length_app in Hvc. lia. }
    { apply rtc_refl. }
    { destruct Hrr0 as [(-> & _ & _)|Hrr0]; [by right | left; lia]. }
    unfold slope. split.
    + rewrite Hgb by (by apply Hne). by rewrite HgR, get_grad_app_l.
    + intros wi xi Hp. destruct (Hframe wi xi Hp) as [Hf1 Hf2].
      rewrite (Hgw wi xi Hp), HgR, Hf1, Hf2. lia.
Qed.

Lemma neuron_gradient_witness :
  ∃ r t',
    (out <- Neuron_call (λ _, false) (mkNeuron [0%nat; 1%nat] 2%nat true)
              [Num 3; Num 4] ;;
     backward out ;;; ret out)
      [mkValue 2 0 NoOp [] ""; mkValue (-1) 0 NoOp [] ""; mkValue 5 0 NoOp [] ""]
    = Ok (r, t') ∧
    get_grad t' 2 = 1 ∧ get_grad t' 0 = 3 ∧ get_grad t' 1 = 4.
Proof.
  eexists _, _. split; [vm_run|].
  edestruct (neuron_gradient (λ _, false) (mkNeuron [0%nat; 1%nat] 2%nat true)
              [Num 3; Num 4]
              [mkValue 2 0 NoOp [] ""; mkValue (-1) 0 NoOp [] "";
               mkValue 5 0 NoOp [] ""]) as [Hb Hw];
    [..| vm_compute; reflexivity |].
  - change [?a; ?b'; ?c] with ([] ++ [a] ++ [b'] ++ [c]). rewrite !app_assoc.
    repeat apply well_formed_app_leaf. apply well_formed_nil.
  - simpl. repeat (apply NoDup_cons; split; [set_solver|]). apply NoDup_nil_2.
  - repeat constructor; simpl; lia.
  - by repeat constructor.
  - intros v p Hv. exfalso.
    apply elem_of_cons in Hv as [Hv|Hv]; [done|].
    apply elem_of_cons in Hv as [Hv|Hv]; [done|].
    by apply elem_of_nil in Hv.
  - done.
  - split_and!.
    + etrans; [exact Hb | reflexivity].
    + etrans; [apply (Hw 0%nat (Num 3)); simpl; by left | reflexivity].
    + etrans; [apply (Hw 1%nat (Num 4)); simpl; right; by left | reflexivity].
Defined.

(** * The engine over exact numbers *)

(** ** Numbers *)

Lemma val_add a b : Frac.val (Frac.add a b) = (Frac.val a + Frac.val b)%Qc.
Proof. destruct a, b; simpl; try done. apply Z2Qc_inj_add. Qed.

Lemma val_mul a b : Frac.val (Frac.mul a b) = (Frac.val a * Frac.val b)%Qc.
Proof. destruct a, b; simpl; try done. apply Z2Qc_inj_mul. Qed.

Lemma val_neg a : Frac.val (Frac.neg a) = (- Frac.val a)%Qc.
Proof. destruct a; simpl; try done. apply Z2Qc_inj_opp. Qed.

Lemma val_bool_mul flag g :
  Frac.val (Frac.bool_mul flag g)
  = ((if flag then 1 else 0) * Frac.val g)%Qc.
Proof.
  unfold Frac.bool_mul. rewrite val_mul. by destruct flag.
Qed.

Lemma Z2Qc_pow x (n : nat) :
  Qc_of_Z (x ^ Z.of_nat n) = (Qc_of_Z x ^ n)%Qc.
Proof.
  induction n as [|n IH]; [apply Z2Qc_inj_1|].
  rewrite Nat2Z.inj_succ, Z.pow_succ_r by lia.
  rewrite Z2Qc_inj_mul, IH. done.
Qed.

Lemma val_pow b e p :
  Frac.pow b e = Ok p → Frac.val p = qpow (Frac.val b) e.
Proof.
  unfold Frac.pow, qpow. destruct b as [x|q]; simpl.
  - unfold py_pow. case_decide as He; [|by case_decide].
    intros [= <-]. simpl. rewrite <- Z2Qc_pow. by rewrite Z2Nat.id.
  - case_decide; [by intros [= <-]|]. case_decide; [done|]. by intros [= <-].
Qed.

Lemma qind_eq x : qind x x = 1%Qc.
Proof. unfold qind. by rewrite decide_True. Qed.

Lemma qind_ne x a : x ≠ a → qind x a = 0%Qc.
Proof. intros. unfold qind. by rewrite decide_False. Qed.

(** ** The graph of an arena *)

Lemma length_shape s : length (shape s) = length s.
Proof. apply length_fmap. Qed.

Lemma get_prev_shape s v : get_prev (shape s) v = Frac.get_prev s v.
Proof.
  unfold get_prev, Frac.get_prev, shape. rewrite list_lookup_fmap.
  by destruct (s !! v).
Qed.

Lemma get_backward_shape s v :
  get_backward (shape s) v = Frac.get_backward s v.
Proof.
  unfold get_backward, Frac.get_backward, shape. rewrite list_lookup_fmap.
  by destruct (s !! v).
Qed.

Lemma shape_app s l : shape (s ++ l) = shape s ++ shape l.
Proof. apply fmap_app. Qed.

Lemma frac_build_topo_shape fuel s : ∀ v st,
  Frac.build_topo fuel s v st = build_topo fuel (shape s) v st.
Proof.
  induction fuel as [|fuel IH]; intros v st; simpl; [done|].
  rewrite get_prev_shape. case_decide; [done|].
  assert (∀ l st0, visit_children (Frac.build_topo fuel s) l st0
                   = visit_children (build_topo fuel (shape s)) l st0)
    as ->; [|done].
  induction l as [|c l IHl]; intros st0; simpl; [done|].
  rewrite IH. by destruct (build_topo fuel (shape s) c st0).
Qed.

Lemma frac_topo_of_shape s root :
  Frac.topo_of s root = topo_of (shape s) root.
Proof.
  unfold Frac.topo_of, topo_of. by rewrite frac_build_topo_shape, length_shape.
Qed.

(** ** Reading fields after an update *)

Lemma frac_length_set_grad v g s : length (Frac.set_grad v g s) = length s.
Proof. apply length_alter. Qed.

Lemma shape_set_grad v g s : shape (Frac.set_grad v g s) = shape s.
Proof.
  apply list_eq. intros i. unfold shape, Frac.set_grad.
  rewrite !list_lookup_fmap. destruct (decide (i = v)) as [->|Hi].
  - rewrite list_lookup_alter_eq. by destruct (s !! v).
  - by rewrite list_lookup_alter_ne.
Qed.

Lemma frac_get_data_set_grad v g s x :
  Frac.get_data (Frac.set_grad v g s) x = Frac.get_data s x.
Proof.
  unfold Frac.get_data, Frac.set_grad. destruct (decide (x = v)) as [->|Hx].
  - rewrite list_lookup_alter_eq. by destruct (s !! v).
  - by rewrite list_lookup_alter_ne.
Qed.

Lemma frac_get_grad_set_grad v g s x :
  (v < length s)%nat →
  Frac.get_grad (Frac.set_grad v g s) x
  = if decide (x = v) then g else Frac.get_grad s x.
Proof.
  intros Hv. unfold Frac.get_grad, Frac.set_grad. case_decide as Hx.
  - subst x. rewrite list_lookup_alter_eq.
    destruct (lookup_lt_is_Some_2 s v Hv) as [n Hn]. by rewrite Hn.
  - by rewrite list_lookup_alter_ne.
Qed.

Lemma fsame_refl s : fsame s s.
Proof. by split. Qed.

Lemma fsame_trans s1 s2 s3 : fsame s1 s2 → fsame s2 s3 → fsame s1 s3.
Proof.
  intros [H1 D1] [H2 D2]. split; [congruence|]. intros x. by rewrite D2, D1.
Qed.

Lemma fsame_set_grad v g s : fsame s (Frac.set_grad v g s).
Proof.
  split; [apply shape_set_grad|]. intros x. apply frac_get_data_set_grad.
Qed.

Lemma fsame_add_grad v d s : fsame s (Frac.add_grad v d s).
Proof. apply fsame_set_grad. Qed.

Lemma fsame_backward s s' v :
  fsame s s' → Frac.get_backward s' v = Frac.get_backward s v.
Proof. intros [H _]. by rewrite <- !get_backward_shape, H. Qed.

Lemma fsame_weight s s' v x : fsame s s' → fweight s' v x = fweight s v x.
Proof.
  intros Hs. unfold fweight, vdata. rewrite (fsame_backward s s') by done.
  destruct Hs as [_ D]. destruct (Frac.get_backward s v); by rewrite ?D.
Qed.

Lemma fsame_rule_ok s s' v : fsame s s' → frule_ok s' v ↔ frule_ok s v.
Proof.
  intros Hs. unfold frule_ok. rewrite (fsame_backward s s') by done.
  destruct Hs as [_ D]. destruct (Frac.get_backward s v); by rewrite ?D.
Qed.

Lemma vgrad_add_grad v d s x :
  (v < length s)%nat →
  vgrad (Frac.add_grad v d s) x = (vgrad s x + qind x v * Frac.val d)%Qc.
Proof.
  intros Hv. unfold vgrad, Frac.add_grad.
  rewrite frac_get_grad_set_grad by done. unfold qind.
  case_decide; [subst; rewrite val_add|]; ring.
Qed.

Lemma frac_length_add_grad v d s : length (Frac.add_grad v d s) = length s.
Proof. apply frac_length_set_grad. Qed.

(** ** One closure *)

Lemma frac_wf_targets s v x :
  well_formed (shape s) → x ∈ rule_targets (Frac.get_backward s v) →
  (x < length s)%nat ∧ v ≠ x.
Proof.
  intros Hwf Hx. rewrite <- get_backward_shape in Hx.
  rewrite <- (length_shape s). by apply wf_targets.
Qed.

Lemma fweight_no_edge s v x :
  well_formed (shape s) → ¬ edge (shape s) v x → fweight s v x = 0%Qc.
Proof.
  intros (_ & _ & Htg) Hvx. unfold fweight.
  assert (x ∉ rule_targets (Frac.get_backward s v)) as Hx
    by (by rewrite <- get_backward_shape, Htg).
  destruct (Frac.get_backward s v) as [|a c|a c|a k|a]; simpl in Hx; try done.
  - rewrite !qind_ne by set_solver. ring.
  - rewrite !qind_ne by set_solver. ring.
  - rewrite qind_ne by set_solver. ring.
  - rewrite qind_ne by set_solver. ring.
Qed.

Lemma frac_call_backward_ok s v :
  frule_ok s v → ∃ s', Frac.call_backward v s = Ok (tt, s') ∧ fsame s s'.
Proof.
  unfold frule_ok, Frac.call_backward. intros Hok.
  destruct (Frac.get_backward s v) as [|a c|a c|a k|a];
    cbv [Frac.run_rule Frac.bind Frac.read_grad Frac.read_data Frac.modify
         Frac.ret Frac.lift].
  - eexists. split; [done | apply fsame_refl].
  - eexists. split; [done|]. eapply fsame_trans; apply fsame_add_grad.
  - eexists. split; [done|]. eapply fsame_trans; apply fsame_add_grad.
  - destruct Hok as [p ->]. eexists. split; [done | apply fsame_add_grad].
  - eexists. split; [done | apply fsame_add_grad].
Qed.

Lemma frac_call_backward_inv s v u s' :
  Frac.call_backward v s = Ok (u, s') → frule_ok s v ∧ fsame s s'.
Proof.
  unfold frule_ok, Frac.call_backward.
  destruct (Frac.get_backward s v) as [|a c|a c|a k|a];
    cbv [Frac.run_rule Frac.bind Frac.read_grad Frac.read_data Frac.modify
         Frac.ret Frac.lift].
  - intros [= <- <-]. split; [done | apply fsame_refl].
  - intros [= <- <-]. split; [done|].
    eapply fsame_trans; apply fsame_add_grad.
  - intros [= <- <-]. split; [done|].
    eapply fsame_trans; apply fsame_add_grad.
  - destruct (Frac.pow (Frac.get_data s a) (k - 1)) as [p| |]; try done.
    intros [= <- <-]. split; [by exists p | apply fsame_add_grad].
  - intros [= <- <-]. split; [done | apply fsame_add_grad].
Qed.

Lemma frac_call_backward_grad s v s' :
  well_formed (shape s) → Frac.call_backward v s = Ok (tt, s') →
  ∀ x, vgrad s' x = (vgrad s x + fweight s v x * vgrad s v)%Qc.
Proof.
  intros Hwf Hrun x. pose proof (frac_wf_targets s v) as Htg.
  unfold Frac.call_backward, fweight in *.
  destruct (Frac.get_backward s v) as [|a c|a c|a k|a];
    cbv [Frac.run_rule Frac.bind Frac.read_grad Frac.read_data Frac.modify
         Frac.ret Frac.lift] in Hrun;
    simpl in Htg.
  - injection Hrun as <-. ring.
  - injection Hrun as <-.
    destruct (Htg a) as [? ?]; [done | set_solver|].
    destruct (Htg c) as [? ?]; [done | set_solver|].
    rewrite !vgrad_add_grad by (by rewrite ?frac_length_add_grad).
    fold (vgrad s v). fold (vgrad (Frac.add_grad a (Frac.get_grad s v) s) v).
    rewrite vgrad_add_grad by done.
    rewrite (qind_ne v a) by done. ring.
  - injection Hrun as <-.
    destruct (Htg a) as [? ?]; [done | set_solver|].
    destruct (Htg c) as [? ?]; [done | set_solver|].
    rewrite !vgrad_add_grad by (by rewrite ?frac_length_add_grad).
    rewrite !val_mul.
    destruct (fsame_add_grad a (Frac.mul (Frac.get_data s c) (Frac.get_grad s v)) s)
      as [_ Hsg].
    rewrite (Hsg a).
    fold (vgrad s v).
    fold (vgrad (Frac.add_grad a
                   (Frac.mul (Frac.get_data s c) (Frac.get_grad s v)) s) v).
    rewrite vgrad_add_grad by done.
    rewrite (qind_ne v a) by done. unfold vdata. ring.
  - destruct (Frac.pow (Frac.get_data s a) (k - 1)) as [p| |] eqn:Hp; try done.
    injection Hrun as <-.
    destruct (Htg a) as [? ?]; [done | set_solver|].
    rewrite vgrad_add_grad by done.
    change (match p with
            | Frac.Int y => Frac.Int (k * y)
            | Frac.Fraction _ => Frac.Fraction (Qc_of_Z k * Frac.val p)
            end) with (Frac.mul (Frac.Int k) p).
    rewrite !val_mul, (val_pow _ _ _ Hp).
    change (Frac.val (Frac.Int k)) with (Qc_of_Z k).
    unfold vdata, vgrad. ring.
  - injection Hrun as <-.
    destruct (Htg a) as [? ?]; [done | set_solver|].
    rewrite vgrad_add_grad by done. rewrite val_bool_mul.
    unfold vdata, vgrad. case_bool_decide; case_decide; try done; ring.
Qed.

(** ** Sums over the traversal order *)

Lemma Qsum_zero {A} (f : A → Qc) l :
  (∀ x, x ∈ l → f x = 0%Qc) → Qsum f l = 0%Qc.
Proof.
  induction l as [|y l IH]; intros Hf; simpl; [done|].
  rewrite Hf, IH; [ring | | left]. intros x Hx. apply Hf. by right.
Qed.

Lemma Qsum_ext {A} (f g : A → Qc) l :
  (∀ x, x ∈ l → f x = g x) → Qsum f l = Qsum g l.
Proof.
  induction l as [|y l IH]; intros Hf; simpl; [done|].
  rewrite Hf, IH; [done | | left]. intros x Hx. apply Hf. by right.
Qed.

Lemma Qsum_app {A} (f : A → Qc) l l' :
  Qsum f (l ++ l') = (Qsum f l + Qsum f l')%Qc.
Proof. induction l as [|y l IH]; simpl; [ring|]. rewrite IH. ring. Qed.

Lemma Qsum_Permutation {A} (f : A → Qc) l l' :
  l ≡ₚ l' → Qsum f l = Qsum f l'.
Proof.
  induction 1 as [|x l l' _ IH|x y l|l1 l2 l3 _ IH1 _ IH2]; simpl.
  - done.
  - by rewrite IH.
  - ring.
  - by rewrite IH1.
Qed.

Lemma Qsum_reverse {A} (f : A → Qc) l : Qsum f (reverse l) = Qsum f l.
Proof. apply Qsum_Permutation, reverse_Permutation. Qed.

(** ** The loop over [reversed(topo)] *)

Lemma frac_for_each_ok L : ∀ s,
  Forall (frule_ok s) L →
  ∃ s', Frac.for_each Frac.call_backward L s = Ok (tt, s') ∧ fsame s s'.
Proof.
  induction L as [|v Q IH]; intros s HL; simpl.
  - eexists. split; [done | apply fsame_refl].
  - apply Forall_cons in HL as [Hv HQ].
    destruct (frac_call_backward_ok s v Hv) as (s1 & Hs1 & Hsg1).
    destruct (IH s1) as (s' & Hs' & Hsg').
    { eapply Forall_impl; [exact HQ|]. intros u Hu.
      by apply (fsame_rule_ok s s1). }
    exists s'. unfold Frac.bind. rewrite Hs1. split; [done|].
    by eapply fsame_trans.
Qed.

Lemma frac_for_each_grad L : ∀ s s',
  well_formed (shape s) → sweep_order (shape s) L →
  Frac.for_each Frac.call_backward L s = Ok (tt, s') →
  ∀ x, vgrad s' x
       = (vgrad s x + Qsum (λ v, fweight s v x * vgrad s' v) L)%Qc.
Proof.
  induction L as [|v Q IH]; intros s s' Hwf Hsw Hrun x; simpl in Hrun.
  - injection Hrun as <-. simpl. ring.
  - unfold Frac.bind in Hrun.
    destruct (Frac.call_backward v s) as [[[] s1]| |] eqn:Hs1; try done.
    destruct Hsw as [Hv HQ].
    pose proof (frac_call_backward_inv _ _ _ _ Hs1) as [_ Hsg1].
    pose proof Hsg1 as [Hshape _].
    assert (well_formed (shape s1)) as Hwf1 by (by rewrite Hshape).
    assert (sweep_order (shape s1) Q) as HQ1 by (by rewrite Hshape).
    pose proof (IH s1 s' Hwf1 HQ1 Hrun) as Hfin.
    pose proof (frac_call_backward_grad s v s1 Hwf Hs1) as Hstep.
    assert (vgrad s' v = vgrad s v) as Hfix.
    { rewrite (Hfin v), Qsum_zero.
      - rewrite (Hstep v), (fweight_no_edge s v v); [ring | done |].
        apply Hv. by left.
      - intros u Hu. rewrite (fsame_weight s s1) by done.
        rewrite (fweight_no_edge s u v); [ring | done |]. apply Hv. by right. }
    rewrite (Hfin x), (Hstep x). simpl. rewrite Hfix.
    rewrite (Qsum_ext _ (λ u, (fweight s u x * vgrad s' u)%Qc)); [ring|].
    intros u _. by rewrite (fsame_weight s s1).
Qed.

(** ** The backward pass *)

Lemma frac_backward_unfold root s :
  Frac.backward root s
  = Frac.for_each Frac.call_backward (reverse (topo_of (shape s) root))
      (Frac.set_grad root (Frac.Int 1) s).
Proof.
  unfold Frac.backward, Frac.bind, Frac.modify. by rewrite frac_topo_of_shape.
Qed.

(** The backward pass solves the chain-rule equations over the rationals. *)
Lemma frac_backward_spec root s :
  well_formed (shape s) → (root < length s)%nat →
  Forall (frule_ok s) (topo_of (shape s) root) →
  ∃ s', Frac.backward root s = Ok (tt, s') ∧ fsame s s' ∧
    vgrad s' root = 1%Qc ∧
    ∀ x, x ≠ root →
      vgrad s' x
      = (vgrad s x
         + Qsum (λ v, fweight s v x * vgrad s' v) (topo_of (shape s) root))%Qc.
Proof.
  intros Hwf Hroot Hok.
  pose proof (fsame_set_grad root (Frac.Int 1) s) as Hsg0.
  pose proof Hsg0 as [Hshape0 _].
  pose proof Hwf as (Hcl & Hac & Htg).
  assert (root < length (shape s))%nat as Hroot' by (by rewrite length_shape).
  destruct (topo_of_spec (shape s) Hac Hcl root Hroot')
    as (V & T' & _ & HT & Hnd & _ & Hbef).
  pose proof (topo_sweep_order (shape s) _ Hnd Hbef) as Hsw.
  destruct (frac_for_each_ok (reverse (topo_of (shape s) root))
              (Frac.set_grad root (Frac.Int 1) s))
    as (s' & Hrun & Hsg).
  { apply Forall_forall. intros v Hv. rewrite elem_of_reverse in Hv.
    apply (fsame_rule_ok s); [done|].
    rewrite Forall_forall in Hok. by apply Hok. }
  exists s'. rewrite frac_backward_unfold. split; [done|].
  split; [by eapply fsame_trans|].
  assert (well_formed (shape (Frac.set_grad root (Frac.Int 1) s))) as Hwf0
    by (by rewrite Hshape0).
  assert (sweep_order (shape (Frac.set_grad root (Frac.Int 1) s))
            (reverse (topo_of (shape s) root))) as Hsw0
    by (by rewrite Hshape0).
  pose proof (frac_for_each_grad _ _ _ Hwf0 Hsw0 Hrun) as Hgrad.
  assert (∀ x, Qsum (λ v, (fweight (Frac.set_grad root (Frac.Int 1) s) v x
                           * vgrad s' v)%Qc)
                 (reverse (topo_of (shape s) root))
               = Qsum (λ v, (fweight s v x * vgrad s' v)%Qc)
                   (topo_of (shape s) root)) as Hsum.
  { intros x. rewrite Qsum_reverse. apply Qsum_ext. intros v _.
    by rewrite (fsame_weight s). }
  split.
  - rewrite Hgrad, Hsum. unfold vgrad at 1.
    rewrite frac_get_grad_set_grad, decide_True by done.
    rewrite Qsum_zero; [simpl; rewrite Z2Qc_inj_1; ring|]. intros v Hv.
    rewrite fweight_no_edge; [ring | done |].
    rewrite HT, reverse_snoc in Hsw. destruct Hsw as [Hno _].
    apply Hno. rewrite HT in Hv. apply elem_of_cons.
    apply elem_of_app in Hv as [Hv|Hv%list_elem_of_singleton];
      [right; by apply elem_of_reverse | by left].
  - intros x Hx. rewrite Hgrad, Hsum. unfold vgrad at 1.
    by rewrite frac_get_grad_set_grad, decide_False by done.
Qed.

(** ** Arenas extended by an operator *)

Lemma frac_lookup_offset (s l : Frac.store) i :
  (s ++ l) !! (length s + i)%nat = l !! i.
Proof. rewrite lookup_app_r by lia. f_equal. lia. Qed.

Lemma frac_get_data_app_l s l v :
  (v < length s)%nat → Frac.get_data (s ++ l) v = Frac.get_data s v.
Proof. intros. unfold Frac.get_data. by rewrite lookup_app_l. Qed.

Lemma frac_get_grad_app_l s l v :
  (v < length s)%nat → Frac.get_grad (s ++ l) v = Frac.get_grad s v.
Proof. intros. unfold Frac.get_grad. by rewrite lookup_app_l. Qed.

Lemma frac_get_backward_app_l s l v :
  (v < length s)%nat → Frac.get_backward (s ++ l) v = Frac.get_backward s v.
Proof. intros. unfold Frac.get_backward. by rewrite lookup_app_l. Qed.

Lemma frac_get_data_offset s l i n :
  l !! i = Some n → Frac.get_data (s ++ l) (length s + i) = Frac.data n.
Proof. intros H. unfold Frac.get_data. by rewrite frac_lookup_offset, H. Qed.

Lemma frac_get_grad_offset s l i n :
  l !! i = Some n → Frac.get_grad (s ++ l) (length s + i) = Frac.grad n.
Proof. intros H. unfold Frac.get_grad. by rewrite frac_lookup_offset, H. Qed.

Lemma frac_get_backward_offset s l i n :
  l !! i = Some n →
  Frac.get_backward (s ++ l) (length s + i) = Frac._backward n.
Proof.
  intros H. unfold Frac.get_backward. by rewrite frac_lookup_offset, H.
Qed.

Lemma vdata_app_l s l v : (v < length s)%nat → vdata (s ++ l) v = vdata s v.
Proof. intros. unfold vdata. by rewrite frac_get_data_app_l. Qed.

Lemma vgrad_app_l s l v : (v < length s)%nat → vgrad (s ++ l) v = vgrad s v.
Proof. intros. unfold vgrad. by rewrite frac_get_grad_app_l. Qed.

Lemma fweight_app_l s l v x :
  well_formed (shape s) → (v < length s)%nat →
  fweight (s ++ l) v x = fweight s v x.
Proof.
  intros Hwf Hv. pose proof (frac_wf_targets s v) as Htg.
  unfold fweight. rewrite frac_get_backward_app_l by done.
  destruct (Frac.get_backward s v) as [|a c|a c|a k|a]; simpl in Htg;
    try done.
  - destruct (Htg a) as [? _]; [done | set_solver|].
    destruct (Htg c) as [? _]; [done | set_solver|].
    by rewrite !vdata_app_l.
  - destruct (Htg a) as [? _]; [done | set_solver|]. by rewrite !vdata_app_l.
  - by rewrite !vdata_app_l.
Qed.

Lemma frule_ok_app_l s l v :
  well_formed (shape s) → (v < length s)%nat →
  frule_ok (s ++ l) v ↔ frule_ok s v.
Proof.
  intros Hwf Hv. pose proof (frac_wf_targets s v) as Htg.
  unfold frule_ok. rewrite frac_get_backward_app_l by done.
  destruct (Frac.get_backward s v) as [|a c|a c|a k|a]; simpl in Htg;
    try done.
  destruct (Htg a) as [? _]; [done | set_solver|].
  by rewrite frac_get_data_app_l.
Qed.

Lemma reachable_app_l (s l : store) v x :
  reachable s v x → reachable (s ++ l) v x.
Proof.
  apply rtc_subrel. intros u c Huc. unfold edge in *.
  rewrite get_prev_app_l; [done | by eapply edge_lt].
Qed.

Lemma reachable_old (s l : store) v x :
  closed s → (v < length s)%nat → reachable (s ++ l) v x →
  reachable s v x ∧ (x < length s)%nat.
Proof.
  intros Hcl Hv. revert x. apply rtc_ind_r; [split; [apply rtc_refl | done]|].
  intros y z _ Hyz [IH Hy]. unfold edge in Hyz.
  rewrite get_prev_app_l in Hyz by done.
  split; [by eapply rtc_r | by eapply Hcl].
Qed.

Lemma extends_by_well_formed new : ∀ s,
  well_formed (shape s) →
  (∀ j v c, new !! j = Some v →
     (c ∈ Frac._prev v ↔ c ∈ rule_targets (Frac._backward v)) ∧
     (c ∈ rule_targets (Frac._backward v) → (c < length s + j)%nat)) →
  well_formed (shape (s ++ new)).
Proof.
  induction new as [|v new IH]; intros s Hwf Hnew.
  - by rewrite app_nil_r.
  - rewrite cons_middle, app_assoc. apply IH.
    + rewrite shape_app. apply well_formed_snoc; [done | |]; simpl.
      * intros c Hc. rewrite length_shape.
        destruct (Hnew 0%nat v c eq_refl) as [Hiff Hlt].
        apply Hiff, Hlt in Hc. lia.
      * intros c. destruct (Hnew 0%nat v c eq_refl) as [Hiff _]. by symmetry.
    + intros j w c Hw. destruct (Hnew (S j) w c Hw) as [Hiff Hlt].
      split; [done|]. intros Hc%Hlt. rewrite length_app. simpl. lia.
Qed.

Lemma sweep_order_app_r s P Q : sweep_order s (P ++ Q) → sweep_order s Q.
Proof. induction P as [|v P IH]; [done|]. intros [_ H]. by apply IH. Qed.

(** A homogeneous system of chain-rule equations over a swept list has
    the zero solution only. *)
Lemma sweep_zero s (D : id → Qc) Q : ∀ P,
  well_formed (shape s) → sweep_order (shape s) (P ++ Q) →
  (∀ x, x ∈ P ++ Q →
     D x = Qsum (λ v, fweight s v x * D v)%Qc (P ++ Q)) →
  ∀ x, x ∈ P → D x = 0%Qc.
Proof.
  intros P Hwf. revert Q.
  induction P as [|v P IH] using rev_ind; intros Q Hsw Heq x Hx.
  - by apply elem_of_nil in Hx.
  - rewrite <- app_assoc in Hsw, Heq. simpl in Hsw, Heq.
    specialize (IH (v :: Q) Hsw Heq).
    apply elem_of_app in Hx as [Hx|Hx%list_elem_of_singleton]; [by apply IH|].
    subst x. rewrite Heq by set_solver. rewrite Qsum_app.
    apply sweep_order_app_r in Hsw as [Hno _].
    rewrite !Qsum_zero; [ring | |].
    + intros u Hu. rewrite fweight_no_edge; [ring | done | by apply Hno].
    + intros u Hu. rewrite IH by done. ring.
Qed.

Lemma elem_of_below s es v :
  well_formed (shape s) → (∀ e, e ∈ es → (e < length s)%nat) →
  v ∈ below s es ↔ ∃ e, e ∈ es ∧ reachable (shape s) e v.
Proof.
  intros (Hcl & Hac & _) Hes. unfold below.
  rewrite list_elem_of_filter, Exists_exists, elem_of_seq.
  split.
  - intros [(e & He & Hv) _]. exists e. split; [done|].
    rewrite frac_topo_of_shape in Hv.
    destruct (topo_of_spec (shape s) Hac Hcl e) as (_ & _ & _ & _ & _ & Hm & _);
      [rewrite length_shape; by apply Hes|].
    by apply Hm.
  - intros (e & He & Hv). split.
    + exists e. split; [done|]. rewrite frac_topo_of_shape.
      destruct (topo_of_spec (shape s) Hac Hcl e)
        as (_ & _ & _ & _ & _ & Hm & _);
        [rewrite length_shape; by apply Hes|].
      by apply Hm.
    + split; [lia|]. simpl. rewrite <- (length_shape s).
      eapply reachable_lt; [done | | done]. rewrite length_shape. by apply Hes.
Qed.

Lemma NoDup_below s es : NoDup (below s es).
Proof. apply NoDup_filter, NoDup_seq. Qed.

Lemma below_mono s es es' :
  es ⊆ es' → Forall (frule_ok s) (below s es') → Forall (frule_ok s) (below s es).
Proof.
  intros Hsub. rewrite !Forall_forall. intros H v Hv. apply H.
  unfold below in *. rewrite list_elem_of_filter, Exists_exists in Hv |- *.
  destruct Hv as [(e & He & Hv) Hs]. split; [|done]. exists e. split; [|done].
  by apply Hsub.
Qed.

Lemma Qsum_minus {A} (f g : A → Qc) l :
  Qsum (λ x, f x - g x)%Qc l = (Qsum f l - Qsum g l)%Qc.
Proof. induction l as [|y l IH]; simpl; [ring|]. rewrite IH. ring. Qed.

Lemma Qsum_fmap {A B} (f : B → Qc) (g : A → B) l :
  Qsum f (g <$> l) = Qsum (λ x, f (g x)) l.
Proof.
  induction l as [|y l IH]; [done|]. rewrite fmap_cons. simpl. by rewrite IH.
Qed.

(** An object that no operand reaches through an edge gains its seed. *)
Lemma flows_source s es seed s' x :
  well_formed (shape s) → (∀ e, e ∈ es → (e < length s)%nat) →
  flows s es seed s' → (x < length s)%nat →
  (∀ e, e ∈ es → ¬ tc (edge (shape s)) e x) →
  vgrad s' x = (vgrad s x + seed x)%Qc.
Proof.
  intros Hwf Hes Hfl Hx Hsrc. rewrite (Hfl x Hx).
  rewrite Qsum_zero; [ring|]. intros v Hv.
  apply elem_of_below in Hv as (e & He & Hv); [|done..].
  rewrite fweight_no_edge; [ring | done |].
  intros Hvx. apply (Hsrc e He). eapply tc_rtc_l; [exact Hv | by apply tc_once].
Qed.

(** The flow from a single operand is determined by the seeds. *)
Lemma flows_unique s a seed s1 s2 :
  well_formed (shape s) → (a < length s)%nat →
  flows s [a] seed s1 → flows s [a] seed s2 →
  ∀ x, (x < length s)%nat → vgrad s1 x = vgrad s2 x.
Proof.
  intros Hwf Ha H1 H2.
  pose proof Hwf as (Hcl & Hac & _).
  assert (a < length (shape s))%nat as Ha' by (by rewrite length_shape).
  destruct (topo_of_spec (shape s) Hac Hcl a Ha')
    as (_ & _ & _ & _ & Hnd & Hmem & Hbef).
  pose proof (topo_sweep_order (shape s) _ Hnd Hbef) as Hsw.
  set (L := reverse (topo_of (shape s) a)) in *.
  assert (below s [a] ≡ₚ L) as Hperm.
  { apply NoDup_Permutation.
    - apply NoDup_below.
    - unfold L. by rewrite reverse_Permutation.
    - intros v. rewrite elem_of_below; [|done | set_solver].
      unfold L. rewrite elem_of_reverse, Hmem. split.
      + by intros (e & ->%list_elem_of_singleton & Hv).
      + intros Hv. exists a. split; [set_solver | done]. }
  set (D := λ x, (vgrad s1 x - vgrad s2 x)%Qc).
  assert (∀ x, (x < length s)%nat →
            D x = Qsum (λ v, fweight s v x * D v)%Qc L) as HD.
  { intros x Hx. unfold D. rewrite (H1 x Hx), (H2 x Hx).
    rewrite !(Qsum_Permutation _ _ _ Hperm).
    rewrite (Qsum_ext (λ v, fweight s v x * (vgrad s1 v - vgrad s2 v))%Qc
               (λ v, fweight s v x * vgrad s1 v - fweight s v x * vgrad s2 v)%Qc)
      by (intros; ring).
    rewrite Qsum_minus. ring. }
  assert (∀ x, x ∈ L → D x = 0%Qc) as Hzero.
  { apply (sweep_zero s D [] L Hwf); rewrite app_nil_r; [done|].
    intros x Hx. apply HD. unfold L in Hx.
    rewrite elem_of_reverse, Hmem in Hx. rewrite <- (length_shape s).
    by eapply reachable_lt. }
  intros x Hx. pose proof (HD x Hx) as Hx0.
  rewrite Qsum_zero in Hx0 by (intros v Hv; rewrite (Hzero v Hv); ring).
  unfold D in Hx0.
  replace (vgrad s1 x) with (vgrad s1 x - vgrad s2 x + vgrad s2 x)%Qc by ring.
  rewrite Hx0. ring.
Qed.

(** The backward pass from the last object of an extended arena: the
    chain-rule equations split into the new objects and the objects below
    the operands. *)
Lemma backward_extension s es new R :
  well_formed (shape s) → extends_by s es new →
  S R = length (s ++ new) → (length s ≤ R)%nat →
  (∀ j, (j < length new)%nat → frule_ok (s ++ new) (length s + j)) →
  Forall (frule_ok s) (below s es) →
  ∃ s', Frac.backward R (s ++ new) = Ok (tt, s') ∧ fsame (s ++ new) s' ∧
    vgrad s' R = 1%Qc ∧
    (∀ i, (length s + i < R)%nat →
       vgrad s' (length s + i)
       = (vgrad (s ++ new) (length s + i)
          + Qsum (λ j, fweight (s ++ new) (length s + j) (length s + i)
                       * vgrad s' (length s + j))
              (seq 0 (length new)))%Qc) ∧
    (∀ x, (x < length s)%nat →
       vgrad s' x
       = (vgrad s x
          + Qsum (λ j, fweight (s ++ new) (length s + j) x
                       * vgrad s' (length s + j))
              (seq 0 (length new))
          + Qsum (λ v, fweight s v x * vgrad s' v) (below s es))%Qc).
Proof.
  intros Hwf (Hnew & Hcons & Hes) HR HRn Hoknew Hokold.
  set (T := s ++ new) in *. set (n := length s) in *.
  assert (length T = (n + length new)%nat) as HlenT
    by (unfold T, n; by rewrite length_app).
  assert (well_formed (shape T)) as HwfT.
  { apply extends_by_well_formed; [done|]. intros j v c Hv.
    destruct (Hnew j v c Hv) as [? Hlt]. split; [done|]. by intros [? _]%Hlt. }
  pose proof Hwf as (Hcl & Hac & Htg).
  pose proof HwfT as (HclT & HacT & HtgT).
  assert (∀ e, e ∈ es → (e < length s)%nat) as Hes' by (intros e [? _]%Hes; done).
  (* the edges of a new object *)
  assert (∀ j v c, new !! j = Some v →
            edge (shape T) (n + j) c ↔ c ∈ rule_targets (Frac._backward v))
    as Hedge.
  { intros j v c Hv. rewrite <- HtgT, get_backward_shape.
    unfold T, n. by rewrite (frac_get_backward_offset _ _ _ _ Hv). }
  (* every new object is reached from the last one *)
  assert (∀ d i, (i + d = R - n)%nat → reachable (shape T) R (n + i))
    as Hreach_new.
  { intros d. induction (lt_wf d) as [d _ IH]. intros i Hi.
    destruct (decide (d = 0)%nat) as [->|Hd].
    - replace (n + i)%nat with R by lia. apply rtc_refl.
    - destruct (Hcons i) as (j & v & Hv & Hc); [lia|].
      destruct (Hnew j v (n + i)%nat Hv) as [_ Hlt].
      destruct (Hlt Hc) as [Hij _].
      pose proof (lookup_lt_Some _ _ _ Hv) as Hj.
      eapply rtc_r; [apply (IH (R - n - j)%nat ltac:(lia) j); lia|].
      by apply (Hedge j v). }
  (* what the last object reaches *)
  assert (∀ u v, reachable (shape T) u v → (n ≤ u)%nat →
            (n ≤ v)%nat ∨ ∃ e, e ∈ es ∧ reachable (shape s) e v) as Hclass.
  { intros u v Huv. induction Huv as [u|u y v Huy Hyv IH]; intros Hu.
    - by left.
    - destruct (decide (n ≤ y)%nat) as [Hy|Hy]; [by apply IH|]. right.
      pose proof (edge_lt _ _ _ Huy) as Hult.
      rewrite length_shape, HlenT in Hult.
      destruct (lookup_lt_is_Some_2 new (u - n)) as [w Hw]; [lia|].
      replace u with (n + (u - n))%nat in Huy by lia.
      apply (Hedge _ w) in Huy; [|done].
      destruct (Hnew _ w y Hw) as [_ Hlt]. destruct (Hlt Huy) as [_ Hin].
      exists y. split; [apply Hin; lia|].
      unfold T in Hyv. rewrite shape_app in Hyv.
      apply reachable_old in Hyv as [? _]; [done | done |].
      rewrite length_shape. fold n. lia. }
  assert (R < length (shape T))%nat as HRT by (rewrite length_shape; lia).
  destruct (topo_of_spec (shape T) HacT HclT R HRT)
    as (_ & _ & _ & _ & Hnd & Hmem & _).
  assert (topo_of (shape T) R ≡ₚ ((λ j, n + j)%nat <$> seq 0 (length new))
                                  ++ below s es) as Hperm.
  { apply NoDup_Permutation; [done | |].
    - apply NoDup_app. split_and!.
      + apply NoDup_fmap_2; [intros ???; lia | apply NoDup_seq].
      + intros x (j & -> & _)%list_elem_of_fmap Hx.
        unfold below in Hx. apply list_elem_of_filter in Hx as [_ Hx].
        apply elem_of_seq in Hx. fold n in Hx. lia.
      + apply NoDup_below.
    - intros v. rewrite Hmem, elem_of_app, elem_of_below by done.
      rewrite list_elem_of_fmap. split.
      + intros Hv. destruct (Hclass R v Hv HRn) as [Hn|He]; [left | by right].
        exists (v - n)%nat. split; [lia|]. apply elem_of_seq.
        pose proof (reachable_lt _ _ _ HclT HRT Hv) as Hlt.
        rewrite length_shape in Hlt. lia.
      + intros [(j & -> & Hj%elem_of_seq)|(e & He & Hv)].
        * apply (Hreach_new (R - n - j)%nat). lia.
        * destruct (Hes e He) as [_ (j & w & Hw & Hc)].
          pose proof (lookup_lt_Some _ _ _ Hw) as Hj.
          unfold reachable. etrans; [apply (Hreach_new (R - n - j)%nat j); lia|].
          eapply rtc_l; [by apply (Hedge j w)|].
          unfold T. rewrite shape_app. by apply reachable_app_l. }
  destruct (frac_backward_spec R T HwfT) as (s' & Hrun & Hsame & Hroot & Hgrad).
  { lia. }
  { rewrite Hperm. apply Forall_app. split.
    - apply Forall_fmap, Forall_forall. intros j Hj%elem_of_seq. simpl.
      apply Hoknew. lia.
    - rewrite Forall_forall in Hokold |- *. intros v Hv.
      apply frule_ok_app_l; [done | | by apply Hokold].
      unfold below in Hv. apply list_elem_of_filter in Hv as [_ Hv].
      apply elem_of_seq in Hv. lia. }
  exists s'. split_and!; try done.
  - intros i Hi. rewrite Hgrad by lia.
    rewrite (Qsum_Permutation _ _ _ Hperm), Qsum_app. f_equal.
    rewrite (Qsum_zero _ (below s es)).
    + rewrite Qsum_fmap. ring.
    + intros v Hv. unfold below in Hv.
      apply list_elem_of_filter in Hv as [_ Hv]. apply elem_of_seq in Hv.
      unfold T. rewrite fweight_app_l by (done || lia).
      rewrite fweight_no_edge; [ring | done |].
      intros Hvx%Hcl. rewrite length_shape in Hvx. fold n in Hvx. lia.
  - intros x Hx. rewrite Hgrad by lia.
    rewrite (Qsum_Permutation _ _ _ Hperm), Qsum_app.
    unfold T at 1. rewrite vgrad_app_l by done.
    rewrite Qsum_fmap.
    rewrite (Qsum_ext (λ v, fweight T v x * vgrad s' v)%Qc
               (λ v, fweight s v x * vgrad s' v)%Qc (below s es)); [ring|].
    intros v Hv. unfold below in Hv.
    apply list_elem_of_filter in Hv as [_ Hv]. apply elem_of_seq in Hv.
    unfold T. by rewrite fweight_app_l by (done || lia).
Qed.

(** How a program that appends [new] to [s] and returns the last object
    gives its value and its seeds. *)
Lemma gives_intro (m : Frac.M id) s es new R value (seed : id → Qc) :
  well_formed (shape s) →
  Forall (frule_ok s) (below s es) →
  m s = Ok (R, s ++ new) →
  R = (length s + pred (length new))%nat →
  new ≠ [] →
  extends_by s es new →
  (∀ j, (j < length new)%nat → frule_ok (s ++ new) (length s + j)) →
  vdata (s ++ new) R = value →
  (∀ g : nat → Qc,
     g (pred (length new)) = 1%Qc →
     (∀ i, (S i < length new)%nat →
        g i = (vgrad (s ++ new) (length s + i)
               + Qsum (λ j, fweight (s ++ new) (length s + j) (length s + i)
                            * g j)
                   (seq 0 (length new)))%Qc) →
     ∀ x, (x < length s)%nat →
       Qsum (λ j, fweight (s ++ new) (length s + j) x * g j)%Qc
         (seq 0 (length new))
       = seed x) →
  gives m s es value seed.
Proof.
  intros Hwf Hok Hrun HR Hne Hext Hoknew Hval Hseed.
  assert (0 < length new)%nat as Hlen by (destruct new; [done | simpl; lia]).
  destruct (backward_extension s es new R Hwf Hext)
    as (s' & Hback & [Hshape Hdata] & Hroot & Hnewg & Holdg);
    [rewrite length_app; lia | lia | done | done |].
  assert (flows s es seed s') as Hflows.
  { intros x Hx. rewrite (Holdg x Hx). f_equal. f_equal.
    apply (Hseed (λ j, vgrad s' (length s + j)%nat)); [by rewrite <- HR | | done].
    intros i Hi. apply Hnewg. lia. }
  exists R, s'. split_and!.
  - unfold Frac.differentiate, Frac.bind. rewrite Hrun.
    by rewrite Hback.
  - lia.
  - intros x Hx. by rewrite Hdata, frac_get_data_app_l.
  - unfold vdata in *. by rewrite Hdata.
  - done.
  - done.
  - intros x Hx Hsrc. apply (flows_source s es seed s' x); try done.
    intros e He. destruct Hext as (_ & _ & Hes). by destruct (Hes e He).
Qed.

Lemma frac_get_data_new s new i j v :
  new !! j = Some v → i = (length s + j)%nat →
  Frac.get_data (s ++ new) i = Frac.data v.
Proof. intros Hv ->. by apply frac_get_data_offset. Qed.

Lemma val_minus_one : Frac.val (Frac.Int (-1)) = (- 1)%Qc.
Proof. by apply Qc_is_canon. Qed.

Lemma val_zero : Frac.val (Frac.Int 0) = 0%Qc.
Proof. by apply Qc_is_canon. Qed.

Lemma Z2Qc_minus_one : Qc_of_Z (-1) = (- 1)%Qc.
Proof. by apply Qc_is_canon. Qed.

Lemma qind_eq' x a : x = a → qind x a = 1%Qc.
Proof. intros ->. apply qind_eq. Qed.

Lemma qpow_minus_one q : qpow q (-1) = (/ q)%Qc.
Proof. unfold qpow. rewrite decide_False by lia. simpl. ring. Qed.

Lemma qpow_minus_two q : qpow q (-1 - 1) = (/ q * / q)%Qc.
Proof. unfold qpow. rewrite decide_False by lia. simpl. ring. Qed.

Lemma frac_pow_minus_one q :
  q ≠ 0%Qc → Frac.pow (Frac.Fraction q) (-1) = Ok (Frac.Fraction ((/ q) ^ 1)%Qc).
Proof.
  intros Hq. unfold Frac.pow. rewrite decide_False by lia.
  by rewrite decide_False.
Qed.

Lemma frac_pow_minus_two q :
  q ≠ 0%Qc →
  Frac.pow (Frac.Fraction q) (-1 - 1) = Ok (Frac.Fraction ((/ q) ^ 2)%Qc).
Proof.
  intros Hq. unfold Frac.pow. rewrite decide_False by lia.
  by rewrite decide_False.
Qed.

Section FracBuilders.

Variable set_rev : list id → bool.

Lemma frac_set_backward_snoc s n r :
  Frac.set_backward (length s) r (s ++ [n]) = s ++ [Frac.with_backward r n].
Proof.
  unfold Frac.set_backward.
  pose proof (alter_app_r (Frac.with_backward r) s [n] 0) as H.
  by rewrite Nat.add_0_r in H.
Qed.

Lemma frac_new_Value_run z s :
  Frac.new_Value set_rev z s
  = Ok (length s, s ++ [Frac.mkValue z (Frac.Int 0) NoOp [] ""]).
Proof. unfold Frac.new_Value, Frac.Value_init. by rewrite set_of_nil. Qed.

Lemma frac_add_run a b s :
  Frac.__add__ set_rev a (Frac.Node b) s
  = Ok (length s,
        s ++ [Frac.mkValue (Frac.add (Frac.get_data s a) (Frac.get_data s b))
                (Frac.Int 0) (AddRule a b) (set_of set_rev [a; b]) "+"]).
Proof.
  unfold Frac.__add__.
  cbv [Frac.bind Frac.wrap Frac.ret Frac.read_data Frac.Value_init Frac.modify].
  by rewrite frac_set_backward_snoc.
Qed.

Lemma frac_mul_run a b s :
  Frac.__mul__ set_rev a (Frac.Node b) s
  = Ok (length s,
        s ++ [Frac.mkValue (Frac.mul (Frac.get_data s a) (Frac.get_data s b))
                (Frac.Int 0) (MulRule a b) (set_of set_rev [a; b]) "*"]).
Proof.
  unfold Frac.__mul__.
  cbv [Frac.bind Frac.wrap Frac.ret Frac.read_data Frac.Value_init Frac.modify].
  by rewrite frac_set_backward_snoc.
Qed.

Lemma frac_pow_run a k p s :
  Frac.pow (Frac.get_data s a) k = Ok p →
  Frac.__pow__ set_rev a (PyInt k) s
  = Ok (length s,
        s ++ [Frac.mkValue p (Frac.Int 0) (PowRule a k) (set_of set_rev [a])
                (pow_op (PyInt k))]).
Proof.
  intros Hp. unfold Frac.__pow__.
  cbv [isinstance_int_float as_int Frac.bind Frac.ret Frac.read_data
       Frac.lift Frac.Value_init Frac.modify].
  rewrite Hp. by rewrite frac_set_backward_snoc.
Qed.

Lemma frac_add_raw a z s :
  Frac.__add__ set_rev a (Frac.Raw z) s
  = Frac.__add__ set_rev a (Frac.Node (length s))
      (s ++ [Frac.mkValue z (Frac.Int 0) NoOp [] ""]).
Proof.
  unfold Frac.__add__. unfold Frac.bind at 1. unfold Frac.wrap at 1.
  by rewrite frac_new_Value_run.
Qed.

Lemma frac_mul_raw a z s :
  Frac.__mul__ set_rev a (Frac.Raw z) s
  = Frac.__mul__ set_rev a (Frac.Node (length s))
      (s ++ [Frac.mkValue z (Frac.Int 0) NoOp [] ""]).
Proof.
  unfold Frac.__mul__. unfold Frac.bind at 1. unfold Frac.wrap at 1.
  by rewrite frac_new_Value_run.
Qed.

End FracBuilders.

(** Membership of an object in an explicit list, up to arithmetic. *)
Ltac mem_tac :=
  solve [ apply elem_of_cons; left; lia
        | apply elem_of_cons; right; mem_tac ].

Ltac consumer_tac :=
  first [ exists 0%nat; eexists; split; [reflexivity | cbn [Frac._backward rule_targets]; mem_tac]
        | exists 1%nat; eexists; split; [reflexivity | cbn [Frac._backward rule_targets]; mem_tac]
        | exists 2%nat; eexists; split; [reflexivity | cbn [Frac._backward rule_targets]; mem_tac]
        | exists 3%nat; eexists; split; [reflexivity | cbn [Frac._backward rule_targets]; mem_tac] ].

Ltac targets_tac H :=
  cbn [Frac._backward rule_targets] in H;
  repeat (apply elem_of_cons in H as [-> | H]);
  [ .. | by apply elem_of_nil in H ];
  (split; [lia | intros ?; first [lia | mem_tac]]).

(** The side conditions on the objects that an operator appends. *)
Ltac extends_tac :=
  split_and!;
  [ intros j v c Hv;
    repeat (destruct j as [|j]; [simpl in Hv; injection Hv as <- | simpl in Hv]);
    try discriminate Hv;
    (split;
     [ cbn [Frac._prev Frac._backward rule_targets];
       rewrite ?elem_of_set_of; done
     | let H := fresh "Hc" in intros H; targets_tac H ])
  | intros i Hi; cbn [length] in Hi;
    repeat (first [lia | destruct i as [|i]; [consumer_tac|]])
  | intros e He;
    repeat (apply elem_of_cons in He as [-> | He]);
    [ .. | by apply elem_of_nil in He ];
    (split; [done | consumer_tac]) ].

Ltac data_tac :=
  repeat match goal with
  | |- context [Frac.get_data (?s ++ ?new) ?i] =>
      first
        [ rewrite (frac_get_data_app_l s new i) by (rewrite ?length_app; cbn [length]; lia)
        | erewrite (frac_get_data_new s new i 0) by first [reflexivity | lia]
        | erewrite (frac_get_data_new s new i 1) by first [reflexivity | lia]
        | erewrite (frac_get_data_new s new i 2) by first [reflexivity | lia]
        | erewrite (frac_get_data_new s new i 3) by first [reflexivity | lia] ]
  end;
  cbn [Frac.data].

(** Bring the arena that a program returns into the form [s ++ new]. *)
Ltac run_done :=
  rewrite <- ?app_assoc; cbn [app]; rewrite ?length_app; cbn [length];
  reflexivity.

Ltac qind_tac :=
  repeat match goal with
  | |- context [qind ?x ?y] =>
      first [ rewrite (qind_eq' x y) by lia | rewrite (qind_ne x y) by lia ]
  end.

Ltac val_tac :=
  repeat first [rewrite val_mul | rewrite val_add | rewrite val_neg];
  rewrite ?val_minus_one, ?val_zero.

Ltac weights_tac :=
  unfold Qsum; cbn [length seq foldr pred];
  unfold fweight, vdata, vgrad;
  repeat (erewrite frac_get_backward_offset by reflexivity);
  repeat (erewrite frac_get_grad_offset by reflexivity);
  cbn [Frac._backward Frac.grad];
  data_tac;
  val_tac;
  rewrite ?Z2Qc_minus_one, ?qpow_minus_one, ?qpow_minus_two;
  qind_tac.

(** The closures of the new objects evaluate; what is left is the closure
    of a power. *)
Ltac new_ok_tac :=
  let j := fresh "j" in
  let Hj := fresh "Hj" in
  intros j Hj; cbn [length] in Hj; unfold frule_ok;
  repeat (first
    [ lia
    | destruct j as [|j];
      [ erewrite frac_get_backward_offset by reflexivity;
        cbn [Frac._backward]; try done | ] ]).

Ltac value_tac :=
  unfold vdata; data_tac; val_tac.

Section DerivedGives.

Variable set_rev : list id → bool.

Lemma neg_gives s a :
  well_formed (shape s) → (a < length s)%nat →
  Forall (frule_ok s) (below s [a]) →
  gives (Frac.__neg__ set_rev a) s [a] (- vdata s a)%Qc (λ x, - qind x a)%Qc.
Proof.
  intros Hwf Ha Hok.
  eapply gives_intro; [done | done | | | | | | |].
  - unfold Frac.__neg__. rewrite frac_mul_raw, frac_mul_run. run_done.
  - cbn [length pred]. lia.
  - done.
  - extends_tac.
  - new_ok_tac.
  - value_tac. ring.
  - intros g HR Hg x Hx. cbn [length pred] in HR.
    weights_tac. rewrite ?HR. ring.
Qed.

Lemma sub_gives s a b :
  well_formed (shape s) → (a < length s)%nat → (b < length s)%nat →
  Forall (frule_ok s) (below s [a; b]) →
  gives (Frac.__sub__ set_rev a (Frac.Node b)) s [a; b]
    (vdata s a - vdata s b)%Qc (λ x, qind x a - qind x b)%Qc.
Proof.
  intros Hwf Ha Hb Hok.
  eapply gives_intro; [done | done | | | | | | |].
  - unfold Frac.__sub__, Frac.__neg__, Frac.bind.
    rewrite frac_mul_raw, frac_mul_run. cbv beta iota.
    rewrite frac_add_run. run_done.
  - cbn [length pred]. lia.
  - done.
  - extends_tac.
  - new_ok_tac.
  - value_tac. ring.
  - intros g HR Hg x Hx. cbn [length pred] in HR.
    assert (g 1%nat = 1%Qc) as H1.
    { rewrite Hg by (cbn [length]; lia). weights_tac. rewrite ?HR. ring. }
    weights_tac. rewrite ?HR, ?H1. ring.
Qed.

Lemma sub_raw_gives s a z :
  well_formed (shape s) → (a < length s)%nat →
  Forall (frule_ok s) (below s [a]) →
  gives (Frac.__sub__ set_rev a (Frac.Raw z)) s [a]
    (vdata s a - Frac.val z)%Qc (λ x, qind x a).
Proof.
  intros Hwf Ha Hok.
  eapply gives_intro; [done | done | | | | | | |].
  - unfold Frac.__sub__. rewrite frac_add_raw, frac_add_run. run_done.
  - cbn [length pred]. lia.
  - done.
  - extends_tac.
  - new_ok_tac.
  - value_tac. ring.
  - intros g HR Hg x Hx. cbn [length pred] in HR.
    weights_tac. rewrite ?HR. ring.
Qed.

Lemma radd_gives s a z :
  well_formed (shape s) → (a < length s)%nat →
  Forall (frule_ok s) (below s [a]) →
  gives (Frac.__radd__ set_rev a z) s [a]
    (Frac.val z + vdata s a)%Qc (λ x, qind x a).
Proof.
  intros Hwf Ha Hok.
  eapply gives_intro; [done | done | | | | | | |].
  - unfold Frac.__radd__. rewrite frac_add_raw, frac_add_run. run_done.
  - cbn [length pred]. lia.
  - done.
  - extends_tac.
  - new_ok_tac.
  - value_tac. ring.
  - intros g HR Hg x Hx. cbn [length pred] in HR.
    weights_tac. rewrite ?HR. ring.
Qed.

Lemma forward_add_gives s a z :
  well_formed (shape s) → (a < length s)%nat →
  Forall (frule_ok s) (below s [a]) →
  gives (Frac.forward_add set_rev z a) s [a]
    (Frac.val z + vdata s a)%Qc (λ x, qind x a).
Proof.
  intros Hwf Ha Hok.
  eapply gives_intro; [done | done | | | | | | |].
  - unfold Frac.forward_add, Frac.bind.
    rewrite frac_new_Value_run. cbv beta iota. rewrite frac_add_run. run_done.
  - cbn [length pred]. lia.
  - done.
  - extends_tac.
  - new_ok_tac.
  - value_tac. ring.
  - intros g HR Hg x Hx. cbn [length pred] in HR.
    weights_tac. rewrite ?HR. ring.
Qed.

Lemma rmul_gives s a z :
  well_formed (shape s) → (a < length s)%nat →
  Forall (frule_ok s) (below s [a]) →
  gives (Frac.__rmul__ set_rev a z) s [a]
    (Frac.val z * vdata s a)%Qc (λ x, qind x a * Frac.val z)%Qc.
Proof.
  intros Hwf Ha Hok.
  eapply gives_intro; [done | done | | | | | | |].
  - unfold Frac.__rmul__. rewrite frac_mul_raw, frac_mul_run. run_done.
  - cbn [length pred]. lia.
  - done.
  - extends_tac.
  - new_ok_tac.
  - value_tac. ring.
  - intros g HR Hg x Hx. cbn [length pred] in HR.
    weights_tac. rewrite ?HR. ring.
Qed.

Lemma forward_multiply_gives s a z :
  well_formed (shape s) → (a < length s)%nat →
  Forall (frule_ok s) (below s [a]) →
  gives (Frac.forward_multiply set_rev z a) s [a]
    (Frac.val z * vdata s a)%Qc (λ x, qind x a * Frac.val z)%Qc.
Proof.
  intros Hwf Ha Hok.
  eapply gives_intro; [done | done | | | | | | |].
  - unfold Frac.forward_multiply, Frac.bind.
    rewrite frac_new_Value_run. cbv beta iota. rewrite frac_mul_run. run_done.
  - cbn [length pred]. lia.
  - done.
  - extends_tac.
  - new_ok_tac.
  - value_tac. ring.
  - intros g HR Hg x Hx. cbn [length pred] in HR.
    weights_tac. rewrite ?HR. ring.
Qed.

Lemma rsub_gives s a z :
  well_formed (shape s) → (a < length s)%nat →
  Forall (frule_ok s) (below s [a]) →
  gives (Frac.__rsub__ set_rev a z) s [a]
    (Frac.val z - vdata s a)%Qc (λ x, - qind x a)%Qc.
Proof.
  intros Hwf Ha Hok.
  eapply gives_intro; [done | done | | | | | | |].
  - unfold Frac.__rsub__, Frac.__radd__, Frac.__neg__, Frac.bind.
    rewrite frac_mul_raw, frac_mul_run. cbv beta iota.
    rewrite frac_add_raw, frac_add_run. run_done.
  - cbn [length pred]. lia.
  - done.
  - extends_tac.
  - new_ok_tac.
  - value_tac. ring.
  - intros g HR Hg x Hx. cbn [length pred] in HR.
    assert (g 1%nat = 1%Qc) as H1.
    { rewrite Hg by (cbn [length]; lia). weights_tac. rewrite ?HR. ring. }
    weights_tac. rewrite ?HR, ?H1. ring.
Qed.

Lemma forward_subtract_gives s a z :
  well_formed (shape s) → (a < length s)%nat →
  Forall (frule_ok s) (below s [a]) →
  gives (Frac.forward_subtract set_rev z a) s [a]
    (Frac.val z - vdata s a)%Qc (λ x, - qind x a)%Qc.
Proof.
  intros Hwf Ha Hok.
  eapply gives_intro; [done | done | | | | | | |].
  - unfold Frac.forward_subtract, Frac.spec_subtract, Frac.spec_negate,
      Frac.bind.
    rewrite frac_new_Value_run. cbv beta iota.
    rewrite frac_mul_raw, frac_mul_run. cbv beta iota.
    rewrite frac_add_run. run_done.
  - cbn [length pred]. lia.
  - done.
  - extends_tac.
  - new_ok_tac.
  - value_tac. ring.
  - intros g HR Hg x Hx. cbn [length pred] in HR.
    assert (g 2%nat = 1%Qc) as H2.
    { rewrite Hg by (cbn [length]; lia). weights_tac. rewrite ?HR. ring. }
    weights_tac. rewrite ?HR, ?H2. ring.
Qed.

Lemma truediv_gives s a b q :
  well_formed (shape s) → (a < length s)%nat → (b < length s)%nat →
  Forall (frule_ok s) (below s [a; b]) →
  Frac.get_data s b = Frac.Fraction q → q ≠ 0%Qc →
  gives (Frac.__truediv__ set_rev a (Frac.Node b)) s [a; b]
    (vdata s a / q)%Qc
    (λ x, qind x a / q - qind x b * (vdata s a / (q * q)))%Qc.
Proof.
  intros Hwf Ha Hb Hok Hq Hq0.
  eapply gives_intro; [done | done | | | | | | |].
  - unfold Frac.__truediv__, Frac.bind.
    erewrite frac_pow_run by (rewrite Hq; by apply frac_pow_minus_one).
    cbv beta iota. rewrite frac_mul_run. run_done.
  - cbn [length pred]. lia.
  - done.
  - extends_tac.
  - new_ok_tac. data_tac. rewrite Hq. eexists. by apply frac_pow_minus_two.
  - value_tac. cbn [Frac.val Qcpower]. unfold Qcdiv. ring.
  - intros g HR Hg x Hx. cbn [length pred] in HR.
    assert (g 0%nat = vdata s a) as H0.
    { rewrite Hg by (cbn [length]; lia). weights_tac. rewrite ?HR.
      unfold vdata. ring. }
    weights_tac. rewrite ?HR, ?H0, ?Hq. unfold vdata.
    cbn [Frac.val Qcpower]. field. done.
Qed.

Lemma truediv_raw_gives s a q :
  well_formed (shape s) → (a < length s)%nat →
  Forall (frule_ok s) (below s [a]) → q ≠ 0%Qc →
  gives (Frac.__truediv__ set_rev a (Frac.Raw (Frac.Fraction q))) s [a]
    (vdata s a / q)%Qc (λ x, qind x a / q)%Qc.
Proof.
  intros Hwf Ha Hok Hq0.
  eapply gives_intro; [done | done | | | | | | |].
  - unfold Frac.__truediv__, Frac.bind, Frac.lift.
    rewrite frac_pow_minus_one by done.
    rewrite frac_mul_raw, frac_mul_run. run_done.
  - cbn [length pred]. lia.
  - done.
  - extends_tac.
  - new_ok_tac.
  - value_tac. cbn [Frac.val Qcpower]. unfold Qcdiv. ring.
  - intros g HR Hg x Hx. cbn [length pred] in HR.
    weights_tac. rewrite ?HR. cbn [Frac.val Qcpower]. unfold Qcdiv. ring.
Qed.

Lemma rtruediv_gives s a z q :
  well_formed (shape s) → (a < length s)%nat →
  Forall (frule_ok s) (below s [a]) →
  Frac.get_data s a = Frac.Fraction q → q ≠ 0%Qc →
  gives (Frac.__rtruediv__ set_rev a z) s [a]
    (Frac.val z / q)%Qc (λ x, - (qind x a * (Frac.val z / (q * q))))%Qc.
Proof.
  intros Hwf Ha Hok Hq Hq0.
  eapply gives_intro; [done | done | | | | | | |].
  - unfold Frac.__rtruediv__, Frac.__rmul__, Frac.bind.
    erewrite frac_pow_run by (rewrite Hq; by apply frac_pow_minus_one).
    cbv beta iota. rewrite frac_mul_raw, frac_mul_run. run_done.
  - cbn [length pred]. lia.
  - done.
  - extends_tac.
  - new_ok_tac. data_tac. rewrite Hq. eexists. by apply frac_pow_minus_two.
  - value_tac. cbn [Frac.val Qcpower]. unfold Qcdiv. ring.
  - intros g HR Hg x Hx. cbn [length pred] in HR.
    assert (g 0%nat = Frac.val z) as H0.
    { rewrite Hg by (cbn [length]; lia). weights_tac. rewrite ?HR. ring. }
    weights_tac. rewrite ?HR, ?H0, ?Hq.
    cbn [Frac.val Qcpower]. field. done.
Qed.

Lemma forward_divide_gives s a z q :
  well_formed (shape s) → (a < length s)%nat →
  Forall (frule_ok s) (below s [a]) →
  Frac.get_data s a = Frac.Fraction q → q ≠ 0%Qc →
  gives (Frac.forward_divide set_rev z a) s [a]
    (Frac.val z / q)%Qc (λ x, - (qind x a * (Frac.val z / (q * q))))%Qc.
Proof.
  intros Hwf Ha Hok Hq Hq0.
  eapply gives_intro; [done | done | | | | | | |].
  - unfold Frac.forward_divide, Frac.spec_divide, Frac.bind.
    rewrite frac_new_Value_run. cbv beta iota.
    erewrite frac_pow_run
      by (rewrite frac_get_data_app_l, Hq by done; by apply frac_pow_minus_one).
    cbv beta iota. rewrite frac_mul_run. run_done.
  - cbn [length pred]. lia.
  - done.
  - extends_tac.
  - new_ok_tac. data_tac. rewrite Hq. eexists. by apply frac_pow_minus_two.
  - value_tac. cbn [Frac.val Qcpower]. unfold Qcdiv. ring.
  - intros g HR Hg x Hx. cbn [length pred] in HR.
    assert (g 1%nat = Frac.val z) as H1.
    { rewrite Hg by (cbn [length]; lia). weights_tac. rewrite ?HR. ring. }
    weights_tac. rewrite ?HR, ?H1, ?Hq.
    cbn [Frac.val Qcpower]. field. done.
Qed.

End DerivedGives.

Lemma gives_same_program (m m' : Frac.M id) s es value seed :
  m s = m' s → gives m s es value seed → same_derivatives m m' s.
Proof.
  intros Heq (r & s' & Hrun & _). exists r, s', r, s'.
  split_and!; try done.
  unfold Frac.differentiate, Frac.bind in *. by rewrite <- Heq.
Qed.

Lemma gives_same (m1 m2 : Frac.M id) s a value seed :
  well_formed (shape s) → (a < length s)%nat →
  gives m1 s [a] value seed → gives m2 s [a] value seed →
  same_derivatives m1 m2 s.
Proof.
  intros Hwf Ha (r1 & s1 & Hrun1 & _ & Hd1 & Hv1 & Hg1 & Hf1 & _)
    (r2 & s2 & Hrun2 & _ & Hd2 & Hv2 & Hg2 & Hf2 & _).
  exists r1, s1, r2, s2. split_and!; try done; try congruence.
  intros x Hx. split; [by rewrite Hd1, Hd2|].
  by apply (flows_unique s a seed).
Qed.

(** On [int]s a division leaves the exact numbers or raises. *)
Lemma frac_pow_int_minus_one k r : Frac.pow (Frac.Int k) (-1) ≠ Ok r.
Proof.
  unfold Frac.pow, py_pow. rewrite decide_False by lia. by case_decide.
Qed.

Lemma truediv_int set_rev s a b k r s' :
  Frac.get_data s b = Frac.Int k →
  Frac.__truediv__ set_rev a (Frac.Node b) s ≠ Ok (r, s').
Proof.
  intros Hk. unfold Frac.__truediv__, Frac.__pow__.
  cbv [isinstance_int_float as_int Frac.bind Frac.ret Frac.read_data
       Frac.lift].
  rewrite Hk. pose proof (frac_pow_int_minus_one k) as Hp.
  by destruct (Frac.pow (Frac.Int k) (-1)) as [p| |]; [destruct (Hp p)| |].
Qed.

Lemma truediv_raw_int set_rev s a k r s' :
  Frac.__truediv__ set_rev a (Frac.Raw (Frac.Int k)) s ≠ Ok (r, s').
Proof.
  unfold Frac.__truediv__. cbv [Frac.bind Frac.lift].
  pose proof (frac_pow_int_minus_one k) as Hp.
  by destruct (Frac.pow (Frac.Int k) (-1)) as [p| |]; [destruct (Hp p)| |].
Qed.

Lemma rtruediv_int set_rev s a z k r s' :
  Frac.get_data s a = Frac.Int k →
  Frac.__rtruediv__ set_rev a z s ≠ Ok (r, s').
Proof.
  intros Hk. unfold Frac.__rtruediv__, Frac.__pow__.
  cbv [isinstance_int_float as_int Frac.bind Frac.ret Frac.read_data
       Frac.lift].
  rewrite Hk. pose proof (frac_pow_int_minus_one k) as Hp.
  by destruct (Frac.pow (Frac.Int k) (-1)) as [p| |]; [destruct (Hp p)| |].
Qed.

Lemma fraction_arena_well_formed : well_formed (shape fraction_arena).
Proof.
  apply (well_formed_app_leaf [_] 0 ""), (well_formed_app_leaf [] 0 "").
  apply well_formed_nil.
Qed.

Lemma fraction_arena_leaves e x : ¬ tc (edge (shape fraction_arena)) e x.
Proof.
  intros (c & Hc & _)%tc_first_step. unfold edge, get_prev in Hc.
  destruct e as [|[|e]]; simpl in Hc; by apply elem_of_nil in Hc.
Qed.

(** C8. Every derived operator behaves as its composition of primitives,
    over the exact numbers ([int] and [Fraction]) and for all objects [a]
    and [b] of any well-formed arena whose closures below the operands
    evaluate exactly, and any raw number [z].  Followed by the backward
    pass on its result, [-a] returns [- a.data] and seeds [a] with [-1];
    [a - b] returns the difference and seeds [a] with [1] and [b] with
    [-1]; [a - z] and [z + a] seed [a] with [1], [z - a] with [-1] and
    [z * a] with [z]; on fractions, [a / b] returns the quotient and seeds
    [a] with [1/b] and [b] with [-a/b²], [a / z] seeds [a] with [1/z], and
    [z / a] returns [z/a] and seeds [a] with [-z/a²]; the seeds flow down
    the arena by the chain rule.  Each operator gives the same values and
    the same gradients in every object of the arena as its composition:
    negation as [a * (-1)], subtraction as [a + negate(b)], division as
    [a * power(b, -1)], and each reflected operator as the forward
    operator applied to the wrapped left operand.  On an [int] divisor no
    division returns an exact number. *)
Theorem derived_operators set_rev s a b z :
  well_formed (shape s) → (a < length s)%nat → (b < length s)%nat →
  Forall (frule_ok s) (below s [a; b]) →
  (gives (Frac.__neg__ set_rev a) s [a]
     (- vdata s a)%Qc (λ x, - qind x a)%Qc ∧
   gives (Frac.__sub__ set_rev a (Frac.Node b)) s [a; b]
     (vdata s a - vdata s b)%Qc (λ x, qind x a - qind x b)%Qc ∧
   gives (Frac.__sub__ set_rev a (Frac.Raw z)) s [a]
     (vdata s a - Frac.val z)%Qc (λ x, qind x a) ∧
   gives (Frac.__radd__ set_rev a z) s [a]
     (Frac.val z + vdata s a)%Qc (λ x, qind x a) ∧
   gives (Frac.__rsub__ set_rev a z) s [a]
     (Frac.val z - vdata s a)%Qc (λ x, - qind x a)%Qc ∧
   gives (Frac.__rmul__ set_rev a z) s [a]
     (Frac.val z * vdata s a)%Qc (λ x, qind x a * Frac.val z)%Qc) ∧
  (∀ q, q ≠ 0%Qc →
     (Frac.get_data s b = Frac.Fraction q →
      gives (Frac.__truediv__ set_rev a (Frac.Node b)) s [a; b]
        (vdata s a / q)%Qc
        (λ x, qind x a / q - qind x b * (vdata s a / (q * q)))%Qc) ∧
     (z = Frac.Fraction q →
      gives (Frac.__truediv__ set_rev a (Frac.Raw z)) s [a]
        (vdata s a / q)%Qc (λ x, qind x a / q)%Qc) ∧
     (Frac.get_data s a = Frac.Fraction q →
      gives (Frac.__rtruediv__ set_rev a z) s [a]
        (Frac.val z / q)%Qc
        (λ x, - (qind x a * (Frac.val z / (q * q))))%Qc)) ∧
  (same_derivatives (Frac.__neg__ set_rev a) (Frac.spec_negate set_rev a) s ∧
   same_derivatives (Frac.__sub__ set_rev a (Frac.Node b))
     (Frac.spec_subtract set_rev a (Frac.Node b)) s ∧
   same_derivatives (Frac.__sub__ set_rev a (Frac.Raw z))
     (Frac.spec_subtract set_rev a (Frac.Raw z)) s ∧
   same_derivatives (Frac.__radd__ set_rev a z)
     (Frac.forward_add set_rev z a) s ∧
   same_derivatives (Frac.__rsub__ set_rev a z)
     (Frac.forward_subtract set_rev z a) s ∧
   same_derivatives (Frac.__rmul__ set_rev a z)
     (Frac.forward_multiply set_rev z a) s) ∧
  (∀ q, q ≠ 0%Qc →
     (Frac.get_data s b = Frac.Fraction q →
      same_derivatives (Frac.__truediv__ set_rev a (Frac.Node b))
        (Frac.spec_divide set_rev a (Frac.Node b)) s) ∧
     (z = Frac.Fraction q →
      same_derivatives (Frac.__truediv__ set_rev a (Frac.Raw z))
        (Frac.spec_divide set_rev a (Frac.Raw z)) s) ∧
     (Frac.get_data s a = Frac.Fraction q →
      same_derivatives (Frac.__rtruediv__ set_rev a z)
        (Frac.forward_divide set_rev z a) s)) ∧
  (∀ k r s',
     (Frac.get_data s b = Frac.Int k →
      Frac.__truediv__ set_rev a (Frac.Node b) s ≠ Ok (r, s')) ∧
     (z = Frac.Int k →
      Frac.__truediv__ set_rev a (Frac.Raw z) s ≠ Ok (r, s')) ∧
     (Frac.get_data s a = Frac.Int k →
      Frac.__rtruediv__ set_rev a z s ≠ Ok (r, s'))).
Proof.
  intros Hwf Ha Hb Hok.
  assert (Forall (frule_ok s) (below s [a])) as Hoka
    by (apply (below_mono s [a] [a; b]); [set_solver | done]).
  pose proof (neg_gives set_rev s a Hwf Ha Hoka) as Hneg.
  pose proof (sub_gives set_rev s a b Hwf Ha Hb Hok) as Hsub.
  pose proof (sub_raw_gives set_rev s a z Hwf Ha Hoka) as Hsubz.
  pose proof (radd_gives set_rev s a z Hwf Ha Hoka) as Hradd.
  pose proof (rsub_gives set_rev s a z Hwf Ha Hoka) as Hrsub.
  pose proof (rmul_gives set_rev s a z Hwf Ha Hoka) as Hrmul.
  split_and!; try done.
  - intros q Hq. split_and!.
    + intros Hb'. by apply truediv_gives.
    + intros ->. by apply truediv_raw_gives.
    + intros Ha'. by apply rtruediv_gives.
  - by eapply gives_same_program.
  - by eapply gives_same_program.
  - by eapply gives_same_program.
  - eapply (gives_same _ _ s a); [done | done | exact Hradd|].
    by apply forward_add_gives.
  - eapply (gives_same _ _ s a); [done | done | exact Hrsub|].
    by apply forward_subtract_gives.
  - eapply (gives_same _ _ s a); [done | done | exact Hrmul|].
    by apply forward_multiply_gives.
  - intros q Hq. split_and!.
    + intros Hb'. eapply gives_same_program; [|by apply truediv_gives]. done.
    + intros ->. eapply gives_same_program; [|by apply truediv_raw_gives].
      done.
    + intros Ha'. eapply (gives_same _ _ s a); [done | done | by apply rtruediv_gives|].
      by apply forward_divide_gives.
  - intros k r s'. split_and!.
    + by apply truediv_int.
    + intros ->. apply truediv_raw_int.
    + by apply rtruediv_int.
Qed.

Lemma derived_operators_witness :
  ∃ r s',
    Frac.differentiate
      (Frac.__truediv__ (λ _, false) 0%nat (Frac.Node 1%nat)) fraction_arena
    = Ok (r, s') ∧
    vdata s' r = Q2Qc (3 # 2) ∧
    vgrad s' 0%nat = Q2Qc (1 # 2) ∧
    vgrad s' 1%nat = Q2Qc (-3 # 4).
Proof.
  assert (Q2Qc (2 # 1) ≠ 0%Qc) as Hq by done.
  destruct (proj1 (proj1 (proj2 (derived_operators (λ _, false)
              fraction_arena 0%nat 1%nat (Frac.Int 0)
              fraction_arena_well_formed ltac:(simpl; lia) ltac:(simpl; lia)
              ltac:(apply Forall_forall; intros v _;
                    by destruct v as [|[|v]])))
            (Q2Qc (2 # 1)) Hq) eq_refl)
    as (r & s' & Hrun & _ & _ & Hval & _ & _ & Hsrc).
  exists r, s'. split; [exact Hrun|]. split; [|split].
  - rewrite Hval. by apply Qc_is_canon.
  - rewrite (Hsrc 0%nat) by (simpl; lia || intros; apply fraction_arena_leaves).
    by apply Qc_is_canon.
  - rewrite (Hsrc 1%nat) by (simpl; lia || intros; apply fraction_arena_leaves).
    by apply Qc_is_canon.
Defined.
